(** * USER-GLE: the pair style [dpd/jung]

    A shallow embedding of [src/pair_dpd_jung.cpp] (class [PairDPDJung]):
    the explicit force assembly [compute], the matrix-free operator
    [compute_step], the Lanczos solver [compute_inverse], the setup routines
    [allocate] and [init_one], the commands [settings], [coeff] and
    [init_style], the energy query [single], the restart writer and reader
    and the writers of the data file.

    Conventions of the embedding.
    - A C++ [double] is a value of a type [F] carrying the operations of the
      class [Double].  Every function is written once, over an arbitrary
      [Double] instance, with the operand order and the parenthesisation of the
      source.  Two instances are given: [float] (Rocq's IEEE 754 binary64
      numbers, the very type of the source) and [R] (the reals, the exact
      arithmetic the algebraic statements refer to).
    - A C++ [int] is a [Z]; the source never relies on wrap-around.
    - A bare pointer [double*] is a map from offsets to cells, [Z -> F]; a
      [double**] table is [Z -> Z -> F].  The source attaches no bounds to its
      pointers, and neither does the embedding.
    - Loops are iterated by [for_loop]; [continue] returns the loop state as it
      is.
    - A call of [error->all] ends the run: the function has no result ([None])
      or, where the message matters, the outcome [ErrorAll] with the message. *)

From Stdlib Require Import ZArith List Bool Lia.
From Stdlib Require Import Floats.
From Stdlib Require Import Reals Lra.
From Stdlib Require Import Ring.
From Stdlib Require String Ascii.
From coqutil Require Import Byte Word.LittleEndianList.
Import ListNotations.
Import String.StringSyntax.
Delimit Scope string_scope with string.


Local Open Scope Z_scope.

(** ** Arithmetic of [double] *)

(** The operations the source applies to doubles, and the literals it writes.
    No law is part of the interface: a statement proved for every instance holds
    of IEEE arithmetic as it is. *)
Class Double (F : Type) : Type := {
  dzero : F;                    (* 0.0 *)
  done : F;                     (* 1.0 *)
  dtwo : F;                     (* 2.0 *)
  dhalf : F;                    (* 0.5 *)
  EPSILON : F;                  (* #define EPSILON 1.0e-10 *)
  lit_tolLanczos : F;           (* 0.00001 *)
  dadd : F -> F -> F;
  dsub : F -> F -> F;
  dmul : F -> F -> F;
  ddiv : F -> F -> F;
  dneg : F -> F;
  dsqrt : F -> F;
  dlt : F -> F -> bool
}.

Declare Scope dbl_scope.
Delimit Scope dbl_scope with D.
Infix "+" := dadd : dbl_scope.
Infix "-" := dsub : dbl_scope.
Infix "*" := dmul : dbl_scope.
Infix "/" := ddiv : dbl_scope.
Notation "- x" := (dneg x) : dbl_scope.
Infix "<?" := dlt : dbl_scope.

(** IEEE 754 binary64, the arithmetic the compiled source runs on. *)
#[export] Instance float_Double : Double float := {
  dzero := 0%float;
  done := 1%float;
  dtwo := 2%float;
  dhalf := 0.5%float;
  EPSILON := (1 / 10000000000)%float;
  lit_tolLanczos := (1 / 100000)%float;
  dadd := PrimFloat.add;
  dsub := PrimFloat.sub;
  dmul := PrimFloat.mul;
  ddiv := PrimFloat.div;
  dneg := PrimFloat.opp;
  dsqrt := PrimFloat.sqrt;
  dlt := PrimFloat.ltb
}.

(** Exact real arithmetic. *)
Definition Rltb (a b : R) : bool := if Rlt_dec a b then true else false.

#[export] Instance R_Double : Double R := {
  dzero := 0%R;
  done := 1%R;
  dtwo := 2%R;
  dhalf := (1 / 2)%R;
  EPSILON := (1 / 10000000000)%R;
  lit_tolLanczos := (1 / 100000)%R;
  dadd := Rplus;
  dsub := Rminus;
  dmul := Rmult;
  ddiv := Rdiv;
  dneg := Ropp;
  dsqrt := sqrt;
  dlt := Rltb
}.

(** ** Memory and control *)

(** [a[k] = v] on a [double*] or an [int*]. *)
Definition upd {A : Type} (a : Z -> A) (k : Z) (v : A) : Z -> A :=
  fun n => if Z.eqb n k then v else a n.

(** [a[i][j] = v] on a table. *)
Definition upd2 {A : Type} (a : Z -> Z -> A) (i j : Z) (v : A) : Z -> Z -> A :=
  fun m n => if Z.eqb m i && Z.eqb n j then v else a m n.

(** [n] rounds of a loop whose counter starts at [lo] and goes up by one. *)
Fixpoint for_loop {S : Type} (n : nat) (lo : Z) (body : Z -> S -> S) (s : S) : S :=
  match n with
  | O => s
  | Datatypes.S n' => for_loop n' (lo + 1) body (body lo s)
  end.

(** [for (i = lo; i < hi; i++) body]. *)
Definition for_range {S : Type} (lo hi : Z) (body : Z -> S -> S) (s : S) : S :=
  for_loop (Z.to_nat (hi - lo)) lo body s.

(** The same loop when the body can fail; the first failure ends it. *)
Fixpoint for_loop_opt {S : Type} (n : nat) (lo : Z) (body : Z -> S -> option S) (s : S)
  : option S :=
  match n with
  | O => Some s
  | Datatypes.S n' =>
      match body lo s with
      | Some s' => for_loop_opt n' (lo + 1) body s'
      | None => None
      end
  end.

(** A C condition: an [int] is true when it is not zero. *)
Definition truthy (z : Z) : bool := negb (Z.eqb z 0).

(** ** The engine's objects read by the pair style *)

Section Engine.
Context {F : Type} {DF : Double F}.
Local Open Scope dbl_scope.

(** [atom]: positions, velocities, types, tags, number of owned atoms and of
    types. *)
Record Atom : Type := {
  atom_x : Z -> Z -> F;
  atom_v : Z -> Z -> F;
  atom_type : Z -> Z;
  atom_tag : Z -> Z;
  atom_nlocal : Z;
  atom_ntypes : Z
}.

(** [force]: the special-bond factors, the newton flag and the Boltzmann
    constant. *)
Record Force : Type := {
  force_special_lj : Z -> F;
  force_newton_pair : Z;
  force_boltz : F
}.

(** [update]: the time step and the step counters. *)
Record Update : Type := {
  update_dt : F;
  update_nsteps : Z;
  update_ntimestep : Z
}.

(** [list]: the neighbor list of the current step. *)
Record NeighList : Type := {
  list_inum : Z;
  list_ilist : Z -> Z;
  list_numneigh : Z -> Z;
  list_firstneigh : Z -> Z -> Z
}.

(** [RanMars]: the generator is outside [src/]; it is a stream of draws and the
    position reached in it. *)
Record RanMars : Type := {
  rng_draws : nat -> F;
  rng_pos : nat
}.

(** [random->gaussian()]. *)
Definition gaussian (r : RanMars) : F * RanMars :=
  (rng_draws r (rng_pos r), {| rng_draws := rng_draws r; rng_pos := Datatypes.S (rng_pos r) |}).

(** What the base class [Pair], [lmptype.h] and [random_mars.h] supply and
    [src/] does not hold: the decoding of a neighbor entry ([sbmask],
    [NEIGHMASK]), the flags [ev_setup] leaves in [evflag] and [vflag_fdotr], and
    the generator [new RanMars(lmp,seed)] starts from. *)
Record PairBase : Type := {
  sbmask : Z -> Z;
  NEIGHMASK : Z;
  ev_setup : Z -> Z -> Z * Z;
  new_RanMars : Z -> RanMars
}.

(** The members of [PairDPDJung], with the engine objects it points to. *)
Record PairDPDJung : Type := {
  atom : Atom;
  force : Force;
  update : Update;
  nlist : NeighList;             (* the member [list] *)
  base : PairBase;
  comm_me : Z;                   (* [comm->me] *)
  allocated : Z;
  setflag : Z -> Z -> Z;
  cutsq : Z -> Z -> F;
  cut : Z -> Z -> F;
  a0 : Z -> Z -> F;
  gamma : Z -> Z -> F;
  sigma : Z -> Z -> F;
  temperature : F;
  cut_global : F;
  seed : Z;
  mix_flag : Z;
  random : RanMars
}.

(** [a[k] += d] and [a[k] -= d]. *)
Definition acc_add (a : Z -> F) (k : Z) (d : F) : Z -> F := upd a k (a k + d).
Definition acc_sub (a : Z -> F) (k : Z) (d : F) : Z -> F := upd a k (a k - d).

(** Lines 146-153 and 537-544, the same in [compute] and [compute_step]: the
    vector [(dx,dy,dz)] is added to the entries of [itag] and, when [both]
    holds, subtracted from the entries of [jtag]. *)
Definition scatter (a : Z -> F) (itag jtag : Z) (both : bool) (dx dy dz : F) : Z -> F :=
  let a := acc_add a (3 * itag)%Z dx in
  let a := acc_add a (3 * itag + 1)%Z dy in
  let a := acc_add a (3 * itag + 2)%Z dz in
  if both then
    let a := acc_sub a (3 * jtag)%Z dx in
    let a := acc_sub a (3 * jtag + 1)%Z dy in
    acc_sub a (3 * jtag + 2)%Z dz
  else a.

(** Lines 119-128 and 514-523, the same in [compute] and [compute_step]: the
    neighbor [jj] of atom [i] is decoded and the separation is measured. *)
Record PairGeom : Type := {
  pg_j : Z;
  pg_factor_dpd : F;
  pg_delx : F;
  pg_dely : F;
  pg_delz : F;
  pg_rsq : F;
  pg_jtype : Z;
  pg_jtag : Z
}.

Definition pair_geom (this : PairDPDJung) (xtmp ytmp ztmp : F) (i jj : Z) : PairGeom :=
  let j := list_firstneigh (nlist this) i jj in
  let factor_dpd := force_special_lj (force this) (sbmask (base this) j) in
  let j := Z.land j (NEIGHMASK (base this)) in
  let delx := xtmp - atom_x (atom this) j 0 in
  let dely := ytmp - atom_x (atom this) j 1 in
  let delz := ztmp - atom_x (atom this) j 2 in
  let rsq := delx * delx + dely * dely + delz * delz in
  let jtype := atom_type (atom this) j in
  let jtag := (atom_tag (atom this) j - 1)%Z in
  {| pg_j := j; pg_factor_dpd := factor_dpd; pg_delx := delx; pg_dely := dely;
     pg_delz := delz; pg_rsq := rsq; pg_jtype := jtype; pg_jtag := jtag |}.

(** The tag, less one, of the neighbor [jj] of atom [i]: [jtag] of lines 128
    and 523. *)
Definition neighbor_tag (this : PairDPDJung) (i jj : Z) : Z :=
  (atom_tag (atom this)
     (Z.land (list_firstneigh (nlist this) i jj) (NEIGHMASK (base this))) - 1)%Z.

(** The test of lines 149 and 540: [newton_pair || j < nlocal]. *)
Definition updates_j (this : PairDPDJung) (j : Z) : bool :=
  truthy (force_newton_pair (force this)) || (j <? atom_nlocal (atom this))%Z.

(** ** [compute_step]: the operator applied to a vector *)

(** The state of the loops of [compute_step]: the output buffer, and the
    divisors of the divisions carried out so far, latest first. *)
Record StepState : Type := {
  ss_out : Z -> F;
  ss_divs : list F
}.

(** The body of the loop over the neighbors [jj] of atom [i]
    (lines 513-546). *)
Definition step_pair (this : PairDPDJung) (input : Z -> F) (pre : F)
  (i itag itype : Z) (xtmp ytmp ztmp vxtmp vytmp vztmp : F)
  (jj : Z) (s : StepState) : StepState :=
  let g := pair_geom this xtmp ytmp ztmp i jj in
  let j := pg_j g in
  let factor_dpd := pg_factor_dpd g in
  let delx := pg_delx g in
  let dely := pg_dely g in
  let delz := pg_delz g in
  let rsq := pg_rsq g in
  let jtype := pg_jtype g in
  let jtag := pg_jtag g in
  if rsq <? cutsq this itype jtype then
    let r := dsqrt rsq in
    if r <? EPSILON then s
    else
      let rinv := done / r in
      let delvx := vxtmp - input (3 * jtag)%Z in
      let delvy := vytmp - input (3 * jtag + 1)%Z in
      let delvz := vztmp - input (3 * jtag + 2)%Z in
      let dot := delx * delvx + dely * delvy + delz * delvz in
      let wd := done - r / cut this itype jtype in
      let fpair := - gamma this itype jtype * wd * wd * dot * rinv in
      let fpair := fpair * (pre * factor_dpd * rinv) in
      let o := scatter (ss_out s) itag jtag (updates_j this j)
                 (delx * fpair) (dely * fpair) (delz * fpair) in
      {| ss_out := o; ss_divs := cut this itype jtype :: r :: ss_divs s |}
  else s.

(** The body of the loop over the owned atoms [ii] (lines 494-547). *)
Definition step_atom (this : PairDPDJung) (input : Z -> F) (pre : F)
  (ii : Z) (s : StepState) : StepState :=
  let i := list_ilist (nlist this) ii in
  let xtmp := atom_x (atom this) i 0 in
  let ytmp := atom_x (atom this) i 1 in
  let ztmp := atom_x (atom this) i 2 in
  let vxtmp := input (3 * i)%Z in
  let vytmp := input (3 * i + 1)%Z in
  let vztmp := input (3 * i + 2)%Z in
  let itype := atom_type (atom this) i in
  let itag := (atom_tag (atom this) i - 1)%Z in
  let jnum := list_numneigh (nlist this) i in
  let o := acc_add (ss_out s) (3 * itag)%Z (input (3 * itag)%Z) in
  let o := acc_add o (3 * itag + 1)%Z (input (3 * itag + 1)%Z) in
  let o := acc_add o (3 * itag + 2)%Z (input (3 * itag + 2)%Z) in
  for_range 0 jnum
    (step_pair this input pre i itag itype xtmp ytmp ztmp vxtmp vytmp vztmp)
    {| ss_out := o; ss_divs := ss_divs s |}.

(** [compute_step(input, output)], on the buffer [output] as the caller left
    it.  The two divisions ahead of the loops are those of [dtinvsqrt] and
    [pre]. *)
Definition compute_step_from (this : PairDPDJung) (input : Z -> F) (s : StepState)
  : StepState :=
  let dtinvsqrt := done / dsqrt (update_dt (update this)) in
  let pre := - update_dt (update this) / dtwo in
  for_range 0 (list_inum (nlist this)) (step_atom this input pre)
    {| ss_out := ss_out s;
       ss_divs := dtwo :: dsqrt (update_dt (update this)) :: ss_divs s |}.

Definition compute_step (this : PairDPDJung) (input output : Z -> F) : Z -> F :=
  ss_out (compute_step_from this input {| ss_out := output; ss_divs := [] |}).

End Engine.

Arguments Atom F : clear implicits.
Arguments Force F : clear implicits.
Arguments Update F : clear implicits.
Arguments RanMars F : clear implicits.
Arguments PairDPDJung F : clear implicits.
Arguments StepState F : clear implicits.
Arguments PairGeom F : clear implicits.
Arguments PairBase F : clear implicits.
Arguments NeighList : clear implicits.

(** ** [compute]: the explicit pair forces and the right-hand side *)

Section FullMode.
Context {F : Type} {DF : Double F}.
Local Open Scope dbl_scope.

(** One call [ev_tally(i,j,nlocal,newton_pair,evdwl,0.0,fpair,delx,dely,delz)]
    of the engine's tally. *)
Record Tally : Type := {
  ty_i : Z;
  ty_j : Z;
  ty_nlocal : Z;
  ty_newton_pair : Z;
  ty_evdwl : F;
  ty_ecoul : F;
  ty_fpair : F;
  ty_delx : F;
  ty_dely : F;
  ty_delz : F
}.

(** The state of the loops of [compute]: [f_step], the generator, the local
    [evdwl], the tally calls made (latest first) and the divisors used (latest
    first). *)
Record ForceState : Type := {
  fs_f : Z -> F;
  fs_random : RanMars F;
  fs_evdwl : F;
  fs_tally : list Tally;
  fs_divs : list F
}.

(** The body of the loop over the neighbors [jj] of atom [i] (lines 118-166).
    Line 134 computes [dot] from [delvx], [delvy], [delvz], which nothing
    assigns, and nothing reads [dot] afterwards: the line is left out. *)
Definition force_pair (this : PairDPDJung F) (eflag evflag : Z) (dtinvsqrt : F)
  (i itag itype : Z) (xtmp ytmp ztmp : F) (jj : Z) (s : ForceState) : ForceState :=
  let g := pair_geom this xtmp ytmp ztmp i jj in
  let j := pg_j g in
  let factor_dpd := pg_factor_dpd g in
  let delx := pg_delx g in
  let dely := pg_dely g in
  let delz := pg_delz g in
  let rsq := pg_rsq g in
  let jtype := pg_jtype g in
  let jtag := pg_jtag g in
  if rsq <? cutsq this itype jtype then
    let r := dsqrt rsq in
    if r <? EPSILON then s
    else
      let rinv := done / r in
      let wd := done - r / cut this itype jtype in
      let (randnum, rng) := gaussian (fs_random s) in
      let fpair := a0 this itype jtype * wd in
      let fpair := fpair + sigma this itype jtype * wd * randnum * dtinvsqrt in
      let fpair := fpair * (factor_dpd * rinv) in
      let f := scatter (fs_f s) itag jtag (updates_j this j)
                 (delx * fpair) (dely * fpair) (delz * fpair) in
      let evdwl :=
        if truthy eflag then
          dhalf * a0 this itype jtype * cut this itype jtype * wd * wd * factor_dpd
        else fs_evdwl s in
      let tally :=
        if truthy evflag then
          {| ty_i := i; ty_j := j; ty_nlocal := atom_nlocal (atom this);
             ty_newton_pair := force_newton_pair (force this);
             ty_evdwl := evdwl; ty_ecoul := dzero; ty_fpair := fpair;
             ty_delx := delx; ty_dely := dely; ty_delz := delz |} :: fs_tally s
        else fs_tally s in
      {| fs_f := f; fs_random := rng; fs_evdwl := evdwl; fs_tally := tally;
         fs_divs := cut this itype jtype :: r :: fs_divs s |}
  else s.

(** The body of the loop over the owned atoms [ii] (lines 108-167). *)
Definition force_atom (this : PairDPDJung F) (eflag evflag : Z) (dtinvsqrt : F)
  (ii : Z) (s : ForceState) : ForceState :=
  let i := list_ilist (nlist this) ii in
  let xtmp := atom_x (atom this) i 0 in
  let ytmp := atom_x (atom this) i 1 in
  let ztmp := atom_x (atom this) i 2 in
  let itype := atom_type (atom this) i in
  let itag := (atom_tag (atom this) i - 1)%Z in
  let jnum := list_numneigh (nlist this) i in
  for_range 0 jnum (force_pair this eflag evflag dtinvsqrt i itag itype xtmp ytmp ztmp) s.

(** Lines 81-167: the flags, [dtinvsqrt], the zeroed [f_step] and the neighbor
    loops.  The result is the loop state and the flag [vflag_fdotr]. *)
Definition compute_forces (this : PairDPDJung F) (eflag vflag : Z) : ForceState * Z :=
  let '(evflag, vflag_fdotr) :=
    if truthy eflag || truthy vflag then ev_setup (base this) eflag vflag else (0, 0)%Z in
  let dtinvsqrt := done / dsqrt (update_dt (update this)) in
  (for_range 0 (list_inum (nlist this)) (force_atom this eflag evflag dtinvsqrt)
     {| fs_f := fun _ => dzero; fs_random := random this; fs_evdwl := dzero;
        fs_tally := []; fs_divs := [dsqrt (update_dt (update this))] |},
   vflag_fdotr).

(** The body of the loop of lines 169-178, for the owned atom [i]. *)
Definition rhs_atom (this : PairDPDJung F) (i : Z) (s : ForceState) : ForceState :=
  let dt := update_dt (update this) in
  let f := fs_f s in
  let f := upd f (3 * i)%Z (f (3 * i)%Z * (dt * dt / dtwo)) in
  let f := upd f (3 * i + 1)%Z (f (3 * i + 1)%Z * (dt * dt / dtwo)) in
  let f := upd f (3 * i + 2)%Z (f (3 * i + 2)%Z * (dt * dt / dtwo)) in
  let f := acc_add f (3 * i)%Z (dt * atom_v (atom this) i 0) in
  let f := acc_add f (3 * i + 1)%Z (dt * atom_v (atom this) i 0) in
  let f := acc_add f (3 * i + 2)%Z (dt * atom_v (atom this) i 0) in
  {| fs_f := f; fs_random := fs_random s; fs_evdwl := fs_evdwl s;
     fs_tally := fs_tally s; fs_divs := dtwo :: dtwo :: dtwo :: fs_divs s |}.

(** Lines 169-178: the right-hand side handed to the solver. *)
Definition compute_rhs (this : PairDPDJung F) (s : ForceState) : ForceState :=
  for_range 0 (atom_nlocal (atom this)) (rhs_atom this) s.

(** What lines 170-176 do to a cell of atom [i] holding [x]. *)
Definition rhs_cell (this : PairDPDJung F) (i : Z) (x : F) : F :=
  x * (update_dt (update this) * update_dt (update this) / dtwo)
  + update_dt (update this) * atom_v (atom this) i 0.

(** [single] (lines 447-464): the pair energy, and the force factor written
    through the reference [fforce]; the third component lists the divisors
    used, latest first. *)
Definition single (this : PairDPDJung F) (i j itype jtype : Z)
  (rsq factor_coul factor_dpd : F) (fforce : F) : F * F * list F :=
  let r := dsqrt rsq in
  if r <? EPSILON then (dzero, dzero, [])
  else
    let rinv := done / r in
    let wd := done - r / cut this itype jtype in
    let fforce := a0 this itype jtype * wd * factor_dpd * rinv in
    let phi := dhalf * a0 this itype jtype * cut this itype jtype * wd * wd in
    (factor_dpd * phi, fforce, [cut this itype jtype; r]).

End FullMode.

Arguments Tally F : clear implicits.
Arguments ForceState F : clear implicits.

(** ** Setup: [allocate] and [init_one] *)

Section Setup.
Context {F : Type} {DF : Double F}.
Local Open Scope dbl_scope.

(** Replace the tables of [this]. *)
Definition with_tables (this : PairDPDJung F) (sf : Z -> Z -> Z)
  (csq c a g sg : Z -> Z -> F) : PairDPDJung F :=
  {| atom := atom this; force := force this; update := update this;
     nlist := nlist this; base := base this;
     comm_me := comm_me this; allocated := allocated this;
     setflag := sf; cutsq := csq; cut := c; a0 := a; gamma := g; sigma := sg;
     temperature := temperature this; cut_global := cut_global this;
     seed := seed this; mix_flag := mix_flag this; random := random this |}.

(** [init_one(i,j)] (lines 325-337): [error->all] when the pair was not set,
    rendered as [None]; otherwise the updated object and the cutoff
    returned. *)
Definition init_one (this : PairDPDJung F) (i j : Z) : option (PairDPDJung F * F) :=
  if Z.eqb (setflag this i j) 0 then None
  else
    let sg := upd2 (sigma this) i j
                (dsqrt (dtwo * force_boltz (force this) * temperature this * gamma this i j)) in
    let c := upd2 (cut this) j i (cut this i j) in
    let a := upd2 (a0 this) j i (a0 this i j) in
    let g := upd2 (gamma this) j i (gamma this i j) in
    let sg := upd2 sg j i (sg i j) in
    Some (with_tables this (setflag this) (cutsq this) c a g sg, c i j).

End Setup.

(** ** Dense linear algebra of the solver *)

(** The dense inverse [MatrixXd::inverse()] of Eigen is outside [src/] and is
    taken as a parameter: from the dimension [k] and a [k] by [k] matrix it
    gives the inverse, or [None] when the inversion is fatal (the outcome the
    specification gives to a singular matrix). *)
Class DenseInverse (F : Type) : Type :=
  inverse : Z -> (Z -> Z -> F) -> option (Z -> Z -> F).

Section Eigen.
Context {F : Type} {DF : Double F}.
Local Open Scope dbl_scope.

(** The sum of [t 0], ..., [t (n-1)], added in this order to [0.0]. *)
Definition dsum (n : Z) (t : Z -> F) : F :=
  for_range 0 n (fun i acc => acc + t i) dzero.

(** [(a.adjoint()*b).value()] on vectors of [size] entries. *)
Definition vdot (size : Z) (a b : Z -> F) : F := dsum size (fun i => a i * b i).

(** [a.norm()]. *)
Definition vnorm (size : Z) (a : Z -> F) : F := dsqrt (vdot size a a).

(** [a.normalized()]: every entry over the norm. *)
Definition normalized (size : Z) (a : Z -> F) : Z -> F :=
  let n := vnorm size a in fun i => a i / n.

(** [a - c*b]. *)
Definition vsub_scaled (a : Z -> F) (c : F) (b : Z -> F) : Z -> F :=
  fun i => a i - c * b i.

(** The first [size] cells of [src] laid over [dst]. *)
Definition copy_prefix (size : Z) (src dst : Z -> F) : Z -> F :=
  fun i => if (0 <=? i)%Z && (i <? size)%Z then src i else dst i.

(** A matrix is the list of its columns.  [Vn.col(c)]: *)
Definition col (Vn : list (Z -> F)) (c : Z) : Z -> F :=
  nth (Z.to_nat c) Vn (fun _ => dzero).

(** [Vn.conservativeResize(size,k)]: the first [k] columns are kept, missing
    ones are added. *)
Definition conservativeResize (Vn : list (Z -> F)) (k : Z) : list (Z -> F) :=
  firstn (Z.to_nat k) (Vn ++ repeat (fun _ => dzero) (Z.to_nat k)).

(** [Vn.col(c) = v]. *)
Fixpoint set_nth (l : list (Z -> F)) (n : nat) (v : Z -> F) : list (Z -> F) :=
  match l, n with
  | [], _ => []
  | _ :: t, O => v :: t
  | h :: t, Datatypes.S n' => h :: set_nth t n' v
  end.

Definition set_col (Vn : list (Z -> F)) (c : Z) (v : Z -> F) : list (Z -> F) :=
  set_nth Vn (Z.to_nat c) v.

(** [Vn * y] for a matrix of [k] columns. *)
Definition mat_vec (k : Z) (Vn : list (Z -> F)) (y : Z -> F) : Z -> F :=
  fun i => dsum k (fun c => col Vn c i * y c).

(** [M * y] for a [k] by [k] matrix given by its entries. *)
Definition dense_vec (k : Z) (M : Z -> Z -> F) (y : Z -> F) : Z -> F :=
  fun i => dsum k (fun j => M i j * y j).

End Eigen.

(** ** [compute_inverse]: the Lanczos solver *)

Section Krylov.
Context {F : Type} {DF : Double F} {DI : DenseInverse F}.
Local Open Scope dbl_scope.

Definition mLanczos : Z := 10.

(** The variables of [compute_inverse] that the loop changes, with the lines
    printed by [printf("%d\n",k)] (latest first) and the number of calls of
    [compute_step] made so far. *)
Record Krylov : Type := {
  kr_Vn : list (Z -> F);
  kr_rk : Z -> F;
  kr_alpha : Z -> F;
  kr_beta : Z -> F;
  kr_xk_save : Z -> F;
  kr_printed : list Z;
  kr_napply : nat
}.

(** Lines 561-582, up to the loop. *)
Definition lanczos_init (this : PairDPDJung F) (input : Z -> F) : Krylov * F :=
  let size := (atom_nlocal (atom this) * 3)%Z in
  let Vn := [copy_prefix size input (fun _ => dzero)] in
  let rk := fun _ : Z => dzero in
  let norm := vnorm size (col Vn 0) in
  let Vn := set_col Vn 0 (normalized size (col Vn 0)) in
  let rk := compute_step this (col Vn 0) rk in
  let alpha := upd (fun _ => dzero) 1 (vdot size (col Vn 0) rk) in
  ({| kr_Vn := Vn; kr_rk := rk; kr_alpha := alpha; kr_beta := fun _ => dzero;
      kr_xk_save := fun _ => dzero; kr_printed := []; kr_napply := 1 |}, norm).

(** Lines 586-588 of round [k]: the residual [rk] is orthogonalised against
    the last two columns of the basis. *)
Definition orthogonalized (k : Z) (st : Krylov) : Z -> F :=
  let rk := vsub_scaled (kr_rk st) (kr_alpha st (k - 1)%Z) (col (kr_Vn st) (k - 2)) in
  if (2 <? k)%Z
  then vsub_scaled rk (kr_beta st (k - 2)%Z) (col (kr_Vn st) (k - 3))
  else rk.

(** Lines 586-595 of round [k]: the residual is orthogonalised, normalised and
    appended to the basis, [compute_step] is called on the new column with [rk]
    as its output buffer, and [alpha[k]] is taken from [rk]. *)
Definition lanczos_extend (this : PairDPDJung F) (k : Z) (st : Krylov) : Krylov :=
  let size := (atom_nlocal (atom this) * 3)%Z in
  let rk := orthogonalized k st in
  let beta := upd (kr_beta st) (k - 1) (vnorm size rk) in
  let Vn := conservativeResize (kr_Vn st) k in
  let Vn := set_col Vn (k - 1) (normalized size rk) in
  let rk := compute_step this (col Vn (k - 1)) rk in
  let alpha := upd (kr_alpha st) k (vdot size (col Vn (k - 1)) rk) in
  {| kr_Vn := Vn; kr_rk := rk; kr_alpha := alpha; kr_beta := beta;
     kr_xk_save := kr_xk_save st; kr_printed := kr_printed st;
     kr_napply := Datatypes.S (kr_napply st) |}.

(** The entry [(i,j)] of the matrix [Hk] built by lines 599-609. *)
Definition Hk (st : Krylov) (i j : Z) : F :=
  if (i =? j)%Z then kr_alpha st (i + 1)%Z
  else if (i =? j + 1)%Z || (i =? j - 1)%Z
       then kr_beta st (if (j <? i)%Z then i else j)
       else dzero.

(** The vector [xk] of lines 612-618, from the inverse [f_Hk] of [Hk]. *)
Definition xk_of (k : Z) (st : Krylov) (norm : F) (f_Hk : Z -> Z -> F) : Z -> F :=
  let e1 := fun i : Z => if (i =? 0)%Z then done else dzero in
  let f_Hk1 := dense_vec k f_Hk e1 in
  fun i => mat_vec k (kr_Vn st) f_Hk1 i * norm.

(** Lines 597-632 of round [k]: the projected system is inverted, [xk] is
    rebuilt and, from the third round on, compared with the vector of the round
    before. *)
Definition lanczos_solve (this : PairDPDJung F) (norm tolLanczos : F) (k : Z)
  (st : Krylov) : option Krylov :=
  let size := (atom_nlocal (atom this) * 3)%Z in
  if (2 <=? k)%Z then
    match inverse k (Hk st) with
    | None => None
    | Some f_Hk =>
        let xk := xk_of k st norm f_Hk in
        if (k =? 2)%Z then
          Some {| kr_Vn := kr_Vn st; kr_rk := kr_rk st; kr_alpha := kr_alpha st;
                  kr_beta := kr_beta st; kr_xk_save := xk;
                  kr_printed := kr_printed st; kr_napply := kr_napply st |}
        else
          let diff := fun i => kr_xk_save st i - xk i in
          let diff_norm := vnorm size diff in
          Some {| kr_Vn := kr_Vn st; kr_rk := kr_rk st; kr_alpha := kr_alpha st;
                  kr_beta := kr_beta st; kr_xk_save := xk;
                  kr_printed := if diff_norm <? tolLanczos
                                then k :: kr_printed st else kr_printed st;
                  kr_napply := kr_napply st |}
    end
  else Some st.

(** One round of the loop of line 585. *)
Definition lanczos_round (this : PairDPDJung F) (norm tolLanczos : F) (k : Z)
  (st : Krylov) : option Krylov :=
  lanczos_solve this norm tolLanczos k (lanczos_extend this k st).

(** What [compute_inverse] leaves behind: the buffer [output]; the buffer
    [test_out] of the closing test, printed next to [input] and [output]; the
    state in which the loop ended; and the number of calls of [compute_step]
    made in all, the closing test included. *)
Record Solved : Type := {
  sv_output : Z -> F;
  sv_test_out : Z -> F;
  sv_state : Krylov;
  sv_norm : F;
  sv_napply : nat
}.

(** Lines 560-650 of [compute_inverse], for a value of the local
    [tolLanczos].  [test_out] stands for the cells of [new double[size]], which
    the source does not initialise. *)
Definition lanczos_solver (this : PairDPDJung F) (tolLanczos : F)
  (input output test_out : Z -> F) : option Solved :=
  let size := (atom_nlocal (atom this) * 3)%Z in
  let '(st, norm) := lanczos_init this input in
  match for_loop_opt (Z.to_nat (mLanczos + 1 - 2)) 2
          (lanczos_round this norm tolLanczos) st with
  | None => None
  | Some st =>
      let output := copy_prefix size (kr_xk_save st) output in
      let test_out := compute_step this output test_out in
      Some {| sv_output := output; sv_test_out := test_out; sv_state := st;
              sv_norm := norm; sv_napply := Datatypes.S (kr_napply st) |}
  end.

(** [compute_inverse(input, output)] (lines 553-651): the solver with
    [tolLanczos = 0.00001]. *)
Definition compute_inverse (this : PairDPDJung F) (input output test_out : Z -> F)
  : option Solved :=
  lanczos_solver this lit_tolLanczos input output test_out.

(** [compute(eflag, vflag)] (lines 73-213): the forces, the right-hand side,
    the solve.  The timers and the lines printed from them are left out. *)
Definition compute (this : PairDPDJung F) (eflag vflag : Z) (test_out : Z -> F)
  : option (ForceState F * Solved * Z) :=
  let '(s, vflag_fdotr) := compute_forces this eflag vflag in
  let s := compute_rhs this s in
  match compute_inverse this (fs_f s) (fun _ => dzero) test_out with
  | None => None
  | Some r => Some (s, r, vflag_fdotr)
  end.

End Krylov.

Arguments Krylov F : clear implicits.
Arguments Solved F : clear implicits.

(** ** The restart file *)

(** The object representations written by [fwrite] and read by [fread]: the
    [sizeof(int)] bytes of an [int] and the [sizeof(double)] bytes of a
    [double].  They belong to the platform, not to [src/]. *)
Class ObjRepr (F : Type) : Type := {
  sizeof_int : nat;
  sizeof_double : nat;
  int_bytes : Z -> list byte;
  bytes_int : list byte -> Z;
  double_bytes : F -> list byte;
  bytes_double : list byte -> F
}.

(** What a platform guarantees of them: the sizes, and that an object written
    and read back is the same object. *)
Class ObjReprLaws {F : Type} (OR : ObjRepr F) : Prop := {
  int_bytes_length : forall z, length (int_bytes z) = sizeof_int;
  double_bytes_length : forall d, length (double_bytes d) = sizeof_double;
  bytes_int_bytes : forall z, - 2 ^ 31 <= z < 2 ^ 31 -> bytes_int (int_bytes z) = z;
  bytes_double_bytes : forall d, bytes_double (double_bytes d) = d
}.

(** [fwrite(&obj,size,1,fp)]: the bytes of the object go to the end of the
    file. *)
Definition fwrite (obj : list byte) (fp : list byte) : list byte := fp ++ obj.

(** [fread(&obj,size,1,fp)] when [size] bytes are left: the next [size] bytes,
    and the rest of the file.  When fewer are left the read is short ([None])
    and the file is at its end. *)
Definition fread (size : nat) (fp : list byte) : option (list byte) * list byte :=
  if (size <=? length fp)%nat then (Some (firstn size fp), skipn size fp)
  else (None, []).

(** The bytes [got] stored over the first bytes of the object [obj]. *)
Definition overlay (got obj : list byte) : list byte := got ++ skipn (length got) obj.

Section Restart.
Context {F : Type} {DF : Double F} {OR : ObjRepr F}.

(** An [int] and a [double] after a short read that delivered the bytes
    [got], fewer than the object has: the bytes are stored over the first
    bytes of the variable and its other bytes stay; with no byte delivered the
    variable is as it was. *)
Definition short_int (old : Z) (got : list byte) : Z :=
  match got with
  | [] => old
  | _ => bytes_int (overlay got (int_bytes old))
  end.

Definition short_double (old : F) (got : list byte) : F :=
  match got with
  | [] => old
  | _ => bytes_double (overlay got (double_bytes old))
  end.

(** [fread] into an [int] and into a [double]; the source does not look at
    the count returned, so that a short read goes unnoticed. *)
Definition fread_int (old : Z) (fp : list byte) : Z * list byte :=
  match fread sizeof_int fp with
  | (Some bs, fp') => (bytes_int bs, fp')
  | (None, fp') => (short_int old fp, fp')
  end.

Definition fread_double (old : F) (fp : list byte) : F * list byte :=
  match fread sizeof_double fp with
  | (Some bs, fp') => (bytes_double bs, fp')
  | (None, fp') => (short_double old fp, fp')
  end.

(** The cells [memory->create] hands out, which it does not initialise. *)
Record Fresh : Type := {
  fresh_setflag : Z -> Z -> Z;
  fresh_cutsq : Z -> Z -> F;
  fresh_cut : Z -> Z -> F;
  fresh_a0 : Z -> Z -> F;
  fresh_gamma : Z -> Z -> F;
  fresh_sigma : Z -> Z -> F
}.

(** [allocate()] (lines 219-239). *)
Definition allocate (this : PairDPDJung F) (heap : Fresh) : PairDPDJung F :=
  let n := atom_ntypes (atom this) in
  let sf :=
    for_range 1 (n + 1)
      (fun i sf => for_range i (n + 1) (fun j sf => upd2 sf i j 0) sf)
      (fresh_setflag heap) in
  let sg_g :=
    for_range 0 (n + 1)
      (fun i t =>
         for_range 0 (n + 1)
           (fun j t => (upd2 (fst t) i j dzero, upd2 (snd t) i j dzero)) t)
      (fresh_sigma heap, fresh_gamma heap) in
  {| atom := atom this; force := force this; update := update this;
     nlist := nlist this; base := base this;
     comm_me := comm_me this; allocated := 1;
     setflag := sf; cutsq := fresh_cutsq heap; cut := fresh_cut heap;
     a0 := fresh_a0 heap; gamma := snd sg_g; sigma := fst sg_g;
     temperature := temperature this; cut_global := cut_global this;
     seed := seed this; mix_flag := mix_flag this; random := random this |}.

(** [write_restart_settings(fp)] (lines 392-398). *)
Definition write_restart_settings (this : PairDPDJung F) (fp : list byte) : list byte :=
  let fp := fwrite (double_bytes (temperature this)) fp in
  let fp := fwrite (double_bytes (cut_global this)) fp in
  let fp := fwrite (int_bytes (seed this)) fp in
  fwrite (int_bytes (mix_flag this)) fp.

(** The body of the inner loop of [write_restart] (lines 350-355). *)
Definition write_pair (this : PairDPDJung F) (i j : Z) (fp : list byte) : list byte :=
  let fp := fwrite (int_bytes (setflag this i j)) fp in
  if truthy (setflag this i j) then
    let fp := fwrite (double_bytes (a0 this i j)) fp in
    let fp := fwrite (double_bytes (gamma this i j)) fp in
    fwrite (double_bytes (cut this i j)) fp
  else fp.

(** [write_restart(fp)] (lines 343-357). *)
Definition write_restart (this : PairDPDJung F) (fp : list byte) : list byte :=
  let n := atom_ntypes (atom this) in
  let fp := write_restart_settings this fp in
  for_range 1 (n + 1) (fun i fp => for_range i (n + 1) (write_pair this i) fp) fp.

(** [read_restart_settings(fp)] (lines 404-422).  The file is read by rank 0
    and [MPI_Bcast] hands what it read to every rank: the values below are those
    of rank 0, on whichever rank [this] lives. *)
Definition read_restart_settings (this : PairDPDJung F) (fp : list byte)
  : PairDPDJung F * list byte :=
  let '(t, fp) := fread_double (temperature this) fp in
  let '(cg, fp) := fread_double (cut_global this) fp in
  let '(sd, fp) := fread_int (seed this) fp in
  let '(mf, fp) := fread_int (mix_flag this) fp in
  ({| atom := atom this; force := force this; update := update this;
      nlist := nlist this; base := base this;
      comm_me := comm_me this; allocated := allocated this;
      setflag := setflag this; cutsq := cutsq this; cut := cut this;
      a0 := a0 this; gamma := gamma this; sigma := sigma this;
      temperature := t; cut_global := cg; seed := sd; mix_flag := mf;
      random := new_RanMars (base this) (sd + comm_me this) |}, fp).

(** The body of the inner loop of [read_restart] (lines 373-384). *)
Definition read_pair (i j : Z) (s : PairDPDJung F * list byte)
  : PairDPDJung F * list byte :=
  let '(this, fp) := s in
  let '(sf, fp) := fread_int (setflag this i j) fp in
  let this := with_tables this (upd2 (setflag this) i j sf) (cutsq this) (cut this)
                (a0 this) (gamma this) (sigma this) in
  if truthy (setflag this i j) then
    let '(a, fp) := fread_double (a0 this i j) fp in
    let '(g, fp) := fread_double (gamma this i j) fp in
    let '(c, fp) := fread_double (cut this i j) fp in
    (with_tables this (setflag this) (cutsq this) (upd2 (cut this) i j c)
       (upd2 (a0 this) i j a) (upd2 (gamma this) i j g) (sigma this), fp)
  else (this, fp).

(** [read_restart(fp)] (lines 363-386). *)
Definition read_restart (this : PairDPDJung F) (heap : Fresh) (fp : list byte)
  : PairDPDJung F * list byte :=
  let '(this, fp) := read_restart_settings this fp in
  let this := allocate this heap in
  let n := atom_ntypes (atom this) in
  for_range 1 (n + 1) (fun i s => for_range i (n + 1) (read_pair i) s) (this, fp).

(** *** The layout of the file, as the specification gives it *)

(** The blocks [blk lo], [blk (lo+1)], ..., [n] of them, one after the
    other. *)
Fixpoint blocks_from (n : nat) (lo : Z) (blk : Z -> list byte) : list byte :=
  match n with
  | O => []
  | Datatypes.S n' => blk lo ++ blocks_from n' (lo + 1) blk
  end.

(** The settings block: temperature, global cutoff, seed, mixing flag. *)
Definition settings_block (this : PairDPDJung F) : list byte :=
  double_bytes (temperature this) ++ double_bytes (cut_global this)
  ++ int_bytes (seed this) ++ int_bytes (mix_flag this).

(** The block of the type pair [(i,j)]: the flag and, only when it is set, the
    conservative coefficient, the friction coefficient and the cutoff. *)
Definition pair_block (this : PairDPDJung F) (i j : Z) : list byte :=
  int_bytes (setflag this i j)
  ++ (if truthy (setflag this i j)
      then double_bytes (a0 this i j) ++ double_bytes (gamma this i j)
           ++ double_bytes (cut this i j)
      else []).

(** The blocks of the pairs [(i,i)], ..., [(i,ntypes)]. *)
Definition row_block (this : PairDPDJung F) (i : Z) : list byte :=
  blocks_from (Z.to_nat (atom_ntypes (atom this) + 1 - i)) i (pair_block this i).

(** The whole file: the settings, then one block for each unordered pair. *)
Definition restart_image (this : PairDPDJung F) : list byte :=
  settings_block this
  ++ blocks_from (Z.to_nat (atom_ntypes (atom this) + 1 - 1)) 1 (row_block this).

(** The pair [(a,b)] comes before the pair [(i,j)] in the file of a table of
    [n] types. *)
Definition before_pair (n i j a b : Z) : bool :=
  (1 <=? a)%Z && (a <=? b)%Z && (b <=? n)%Z && ((a <? i)%Z || ((a =? i)%Z && (b <? j)%Z)).

(** What [read_restart] has done to the tables of [start] when it is about to
    read the pair [(i,j)] of the file written from [this]: the pairs before
    [(i,j)] have the flag of [this] and, when the flag is set, its three
    coefficients; every other cell is as it was in [start]. *)
Definition read_upto (this start that : PairDPDJung F) (n i j : Z) : Prop :=
  atom that = atom start /\
  temperature that = temperature start /\ cut_global that = cut_global start /\
  seed that = seed start /\ mix_flag that = mix_flag start /\
  forall a b,
    setflag that a b
    = (if before_pair n i j a b then setflag this a b else setflag start a b) /\
    a0 that a b
    = (if before_pair n i j a b && truthy (setflag this a b)
       then a0 this a b else a0 start a b) /\
    gamma that a b
    = (if before_pair n i j a b && truthy (setflag this a b)
       then gamma this a b else gamma start a b) /\
    cut that a b
    = (if before_pair n i j a b && truthy (setflag this a b)
       then cut this a b else cut start a b).

End Restart.

Arguments Fresh F : clear implicits.

(** *** The representations of x86-64: little-endian two's complement and
    IEEE 754 binary64 *)

(** The 64 bits of a binary64 number: sign, 11 bits of biased exponent, 52
    bits of fraction. *)
Definition bits_of_SF (s : spec_float) : Z :=
  match s with
  | S754_zero sg => if sg then 2 ^ 63 else 0
  | S754_infinity sg => (if sg then 2 ^ 63 else 0) + 2047 * 2 ^ 52
  | S754_nan => 2047 * 2 ^ 52 + 2 ^ 51
  | S754_finite sg m e =>
      (if sg then 2 ^ 63 else 0) +
      (if Z.pos m <? 2 ^ 52 then Z.pos m
       else (e + 1075) * 2 ^ 52 + (Z.pos m - 2 ^ 52))
  end.

Definition SF_of_bits (b : Z) : spec_float :=
  let sg := 2 ^ 63 <=? b in
  let r := b mod 2 ^ 63 in
  let ex := r / 2 ^ 52 in
  let man := r mod 2 ^ 52 in
  if ex =? 0 then
    if man =? 0 then S754_zero sg else S754_finite sg (Z.to_pos man) (-1074)
  else if ex =? 2047 then
    if man =? 0 then S754_infinity sg else S754_nan
  else S754_finite sg (Z.to_pos (man + 2 ^ 52)) (ex - 1075).

#[export] Instance x86_64_ObjRepr : ObjRepr float := {
  sizeof_int := 4;
  sizeof_double := 8;
  int_bytes := fun z => le_split 4 z;
  bytes_int := fun bs => let u := le_combine bs in if u <? 2 ^ 31 then u else u - 2 ^ 32;
  double_bytes := fun d => le_split 8 (bits_of_SF (Prim2SF d));
  bytes_double := fun bs => SF2Prim (SF_of_bits (le_combine bs))
}.

(** ** The operator of the specification *)

(** [compute_step] is specified as [(Identity - (dt/2) Gamma) input], where
    [Gamma] is the pairwise friction operator.  This section writes that
    operator down entry by entry, from the words of the specification and not
    from the loops of the code. *)
Section SpecOperator.
Context {F : Type} {DF : Double F}.
Local Open Scope dbl_scope.

(** [x] when [b] holds, else [0]. *)
Definition ind (b : bool) (x : F) : F := if b then x else dzero.

(** The friction coefficient of the [jj]-th neighbor pair of the owned atom
    [i] for the trial velocities [u]: the relative velocity of the two
    particles, read from [u] at their tags, is projected onto the unit
    separation vector and scaled by [- gamma w^2 / r] and by the special-bond
    factor.  A pair out of the cutoff, or closer than [EPSILON], has none. *)
Definition friction_coeff (this : PairDPDJung F) (u : Z -> F) (i jj : Z) : F :=
  let itag := (atom_tag (atom this) i - 1)%Z in
  let itype := atom_type (atom this) i in
  let g := pair_geom this (atom_x (atom this) i 0) (atom_x (atom this) i 1)
             (atom_x (atom this) i 2) i jj in
  let jtag := pg_jtag g in
  if pg_rsq g <? cutsq this itype (pg_jtype g) then
    let r := dsqrt (pg_rsq g) in
    if r <? EPSILON then dzero
    else
      let w := done - r / cut this itype (pg_jtype g) in
      let dvx := u (3 * itag)%Z - u (3 * jtag)%Z in
      let dvy := u (3 * itag + 1)%Z - u (3 * jtag + 1)%Z in
      let dvz := u (3 * itag + 2)%Z - u (3 * jtag + 2)%Z in
      let proj := (pg_delx g * dvx + pg_dely g * dvy + pg_delz g * dvz) / r in
      (- (gamma this itype (pg_jtype g) * w * w) / r) * proj * pg_factor_dpd g
  else dzero.

(** The share of that pair in entry [k] of [Gamma u]: the friction force on the
    entries of [i], and its opposite on the entries of [j] when [both j]
    holds. *)
Definition Gamma_pair (both : Z -> bool) (this : PairDPDJung F) (u : Z -> F)
  (i jj k : Z) : F :=
  let itag := (atom_tag (atom this) i - 1)%Z in
  let g := pair_geom this (atom_x (atom this) i 0) (atom_x (atom this) i 1)
             (atom_x (atom this) i 2) i jj in
  let jtag := pg_jtag g in
  let c := friction_coeff this u i jj in
  (ind (k =? 3 * itag)%Z (c * pg_delx g)
   + ind (k =? 3 * itag + 1)%Z (c * pg_dely g)
   + ind (k =? 3 * itag + 2)%Z (c * pg_delz g))
  - (if both (pg_j g)
     then ind (k =? 3 * jtag)%Z (c * pg_delx g)
          + ind (k =? 3 * jtag + 1)%Z (c * pg_dely g)
          + ind (k =? 3 * jtag + 2)%Z (c * pg_delz g)
     else dzero).

(** Entry [k] of [Gamma u]: the sum over the neighbor pairs. *)
Definition Gamma (both : Z -> bool) (this : PairDPDJung F) (u : Z -> F) (k : Z) : F :=
  dsum (list_inum (nlist this))
    (fun ii =>
       let i := list_ilist (nlist this) ii in
       dsum (list_numneigh (nlist this) i) (fun jj => Gamma_pair both this u i jj k)).

(** Entry [k] of the identity term: [u k] once for every owned atom whose
    entries hold [k]. *)
Definition Identity_owned (this : PairDPDJung F) (u : Z -> F) (k : Z) : F :=
  dsum (list_inum (nlist this))
    (fun ii =>
       let itag := (atom_tag (atom this) (list_ilist (nlist this) ii) - 1)%Z in
       ind (k =? 3 * itag)%Z (u k) + ind (k =? 3 * itag + 1)%Z (u k)
       + ind (k =? 3 * itag + 2)%Z (u k)).

(** Entry [k] of [(Identity - (dt/2) Gamma) u]. *)
Definition spec_step (both : Z -> bool) (this : PairDPDJung F) (u : Z -> F) (k : Z) : F :=
  Identity_owned this u k - update_dt (update this) / dtwo * Gamma both this u k.

(** The operator as the specification words it: every pair in the cutoff acts
    on both of its particles. *)
Definition claimed_step : PairDPDJung F -> (Z -> F) -> Z -> F :=
  spec_step (fun _ => true).

(** The operator with the test of line 540: the neighbor's entries change only
    when [newton_pair] is set or the neighbor is an owned atom. *)
Definition guarded_step (this : PairDPDJung F) : (Z -> F) -> Z -> F :=
  spec_step (updates_j this) this.

(** The tags of the owned atoms are their local indices plus one. *)
Definition tags_are_indices (this : PairDPDJung F) : Prop :=
  forall ii, (0 <= ii < list_inum (nlist this))%Z ->
    (atom_tag (atom this) (list_ilist (nlist this) ii) - 1)%Z = list_ilist (nlist this) ii.

End SpecOperator.

(** ** Laws of exact arithmetic *)

(** The laws under which the algebraic statements are read.  The reals
    satisfy them; floating-point numbers satisfy them up to rounding.
    [ExactRing]: the operations form a commutative ring. *)
Class ExactRing {F : Type} (DF : Double F) : Prop :=
  exact_ring : ring_theory dzero done dadd dmul dsub dneg (@eq F).

(** [Exact]: moreover a quotient is the product with an inverse. *)
Class Exact {F : Type} (DF : Double F) : Prop := {
  exact_is_ring : ExactRing DF;
  exact_div : exists inv : F -> F, forall x y : F, ddiv x y = dmul x (inv y)
}.

(** ** Concrete configurations *)

Section Examples.
Context {F : Type} {DF : Double F}.
Local Open Scope dbl_scope.

(** The neighbor encoding of LAMMPS with [SBBITS] 30. *)
Definition lammps_base : PairBase F :=
  {| sbmask := fun j => Z.land (Z.shiftr j 30) 3;
     NEIGHMASK := 1073741823;
     ev_setup := fun _ _ => (1, 0)%Z;
     new_RanMars := fun _ => {| rng_draws := fun _ => dzero; rng_pos := 0 |} |}.

Definition three : F := dtwo + done.

(** Two atoms of type 1 on the x axis, at [0] and at [sep], with tags 1 and 2
    and velocities [(1,2,3)]; the second is the only neighbor of the first.
    [nloc] of them are owned; [dt], the cutoff, [a0] and [gamma] are 1. *)
Definition duo (sep : F) (newton nloc : Z) : PairDPDJung F :=
  {| atom := {| atom_x := fun i c => if (i =? 1)%Z && (c =? 0)%Z then sep else dzero;
                atom_v := fun _ c => if (c =? 0)%Z then done
                                     else if (c =? 1)%Z then dtwo else three;
                atom_type := fun _ => 1%Z;
                atom_tag := fun i => (i + 1)%Z;
                atom_nlocal := nloc;
                atom_ntypes := 2 |};
     force := {| force_special_lj := fun _ => done;
                 force_newton_pair := newton;
                 force_boltz := done |};
     update := {| update_dt := done; update_nsteps := 0; update_ntimestep := 1 |};
     nlist := {| list_inum := nloc;
                 list_ilist := fun ii => ii;
                 list_numneigh := fun i => if (i =? 0)%Z then 1%Z else 0%Z;
                 list_firstneigh := fun _ _ => 1%Z |};
     base := lammps_base;
     comm_me := 0;
     allocated := 1;
     setflag := fun i j => if (i =? 1)%Z && (j =? 2)%Z then 0%Z else 1%Z;
     cutsq := fun _ _ => done;
     cut := fun _ _ => done;
     a0 := fun _ _ => done;
     gamma := fun _ _ => done;
     sigma := fun _ _ => dzero;
     temperature := done;
     cut_global := done;
     seed := 12345;
     mix_flag := 0;
     random := {| rng_draws := fun _ => dzero; rng_pos := 0 |} |}.

(** [this] with other tags. *)
Definition with_tags (this : PairDPDJung F) (tag : Z -> Z) : PairDPDJung F :=
  {| atom := {| atom_x := atom_x (atom this); atom_v := atom_v (atom this);
                atom_type := atom_type (atom this); atom_tag := tag;
                atom_nlocal := atom_nlocal (atom this);
                atom_ntypes := atom_ntypes (atom this) |};
     force := force this; update := update this; nlist := nlist this;
     base := base this; comm_me := comm_me this; allocated := allocated this;
     setflag := setflag this; cutsq := cutsq this; cut := cut this; a0 := a0 this;
     gamma := gamma this; sigma := sigma this; temperature := temperature this;
     cut_global := cut_global this; seed := seed this; mix_flag := mix_flag this;
     random := random this |}.

(** Two owned atoms (tags 1 and 2) at [x0] and [x1] on the x axis of a
    periodic box, and their two ghost images: atom 2 is the image of atom 1, at
    [x2], and atom 3 is the image of atom 0, at [x3].  The list is the one the
    engine builds with [newton_pair] off: the image of the other atom is the
    only neighbor of each owned atom.  The rest is as in [duo]. *)
Definition quad (x0 x1 x2 x3 : F) (newton : Z) : PairDPDJung F :=
  {| atom := {| atom_x := fun i c =>
                            if (c =? 0)%Z then
                              if (i =? 0)%Z then x0 else if (i =? 1)%Z then x1
                              else if (i =? 2)%Z then x2 else x3
                            else dzero;
                atom_v := fun _ c => if (c =? 0)%Z then done
                                     else if (c =? 1)%Z then dtwo else three;
                atom_type := fun _ => 1%Z;
                atom_tag := fun i => if (i =? 2)%Z then 2%Z
                                     else if (i =? 3)%Z then 1%Z else (i + 1)%Z;
                atom_nlocal := 2;
                atom_ntypes := 2 |};
     force := {| force_special_lj := fun _ => done;
                 force_newton_pair := newton;
                 force_boltz := done |};
     update := {| update_dt := done; update_nsteps := 0; update_ntimestep := 1 |};
     nlist := {| list_inum := 2;
                 list_ilist := fun ii => ii;
                 list_numneigh := fun _ => 1%Z;
                 list_firstneigh := fun i _ => if (i =? 0)%Z then 2%Z else 3%Z |};
     base := lammps_base;
     comm_me := 0;
     allocated := 1;
     setflag := fun _ _ => 1%Z;
     cutsq := fun _ _ => done;
     cut := fun _ _ => done;
     a0 := fun _ _ => done;
     gamma := fun _ _ => done;
     sigma := fun _ _ => dzero;
     temperature := done;
     cut_global := done;
     seed := 12345;
     mix_flag := 0;
     random := {| rng_draws := fun _ => dzero; rng_pos := 0 |} |}.

(** The unit vector of the first entry, and the zeroed buffer. *)
Definition e0 : Z -> F := fun i => if (i =? 0)%Z then done else dzero.
Definition zeros : Z -> F := fun _ => dzero.

(** Cells never written, all holding [2.0]. *)
Definition stale : Fresh F :=
  {| fresh_setflag := fun _ _ => 7%Z;
     fresh_cutsq := fun _ _ => dtwo; fresh_cut := fun _ _ => dtwo;
     fresh_a0 := fun _ _ => dtwo; fresh_gamma := fun _ _ => dtwo;
     fresh_sigma := fun _ _ => dtwo |}.

End Examples.

(** Gauss-Jordan elimination without pivot search: a stand-in for Eigen's
    inverse in the examples.  It never reports a failure. *)
Section GaussJordan.
Context {F : Type} {DF : Double F}.
Local Open Scope dbl_scope.

(** Round [p]: row [p] of the pair [(M, N)] is scaled by the pivot and
    subtracted from the other rows. *)
Definition gj_round (p : Z) (MN : (Z -> Z -> F) * (Z -> Z -> F))
  : (Z -> Z -> F) * (Z -> Z -> F) :=
  let '(M, N) := MN in
  let piv := M p p in
  let Mp := fun j => M p j / piv in
  let Np := fun j => N p j / piv in
  (fun i j => if (i =? p)%Z then Mp j else M i j - M i p * Mp j,
   fun i j => if (i =? p)%Z then Np j else N i j - M i p * Np j).

Definition gauss_jordan (k : Z) (M : Z -> Z -> F) : option (Z -> Z -> F) :=
  Some (snd (for_range 0 k gj_round
               (M, fun i j => if (i =? j)%Z then done else dzero))).

End GaussJordan.

(** ** Newton's third law in [compute] *)

Section ThirdLaw.
Context {F : Type} {DF : Double F}.
Local Open Scope dbl_scope.

(** The factor [fpair] of lines 142-144 for a pair of separation [g] and the
    draw [randnum]. *)
Definition fpair_of (this : PairDPDJung F) (dtinvsqrt : F) (itype : Z)
  (g : PairGeom F) (randnum : F) : F :=
  let r := dsqrt (pg_rsq g) in
  let rinv := done / r in
  let wd := done - r / cut this itype (pg_jtype g) in
  (a0 this itype (pg_jtype g) * wd
   + sigma this itype (pg_jtype g) * wd * randnum * dtinvsqrt)
  * (pg_factor_dpd g * rinv).






End ThirdLaw.

(** The state in which [compute] enters its neighbor loops. *)
Definition force_start {F : Type} {DF : Double F} (this : PairDPDJung F) : ForceState F :=
  {| fs_f := fun _ => dzero; fs_random := random this; fs_evdwl := dzero;
     fs_tally := []; fs_divs := [] |}.

(** [this] with other velocities and another generator. *)
Definition with_velocities {F : Type} {DF : Double F} (this : PairDPDJung F)
  (vel : Z -> Z -> F) (rnd : RanMars F) : PairDPDJung F :=
  {| atom := {| atom_x := atom_x (atom this); atom_v := vel;
                atom_type := atom_type (atom this); atom_tag := atom_tag (atom this);
                atom_nlocal := atom_nlocal (atom this);
                atom_ntypes := atom_ntypes (atom this) |};
     force := force this; update := update this; nlist := nlist this;
     base := base this; comm_me := comm_me this; allocated := allocated this;
     setflag := setflag this; cutsq := cutsq this; cut := cut this; a0 := a0 this;
     gamma := gamma this; sigma := sigma this; temperature := temperature this;
     cut_global := cut_global this; seed := seed this; mix_flag := mix_flag this;
     random := rnd |}.


(** C1 as stated, for one configuration and one input: from a zeroed buffer
    [compute_step] produces the operator of the specification. *)
Definition step_claim {F : Type} {DF : Double F} (this : PairDPDJung F) (u : Z -> F) : Prop :=
  forall k, compute_step this u zeros k = claimed_step this u k.

(** Two loop states of the solver that differ at most in the lines printed. *)
Definition same_numbers {F : Type} (st st' : Krylov F) : Prop :=
  kr_Vn st = kr_Vn st' /\ kr_rk st = kr_rk st' /\ kr_alpha st = kr_alpha st' /\
  kr_beta st = kr_beta st' /\ kr_xk_save st = kr_xk_save st' /\
  kr_napply st = kr_napply st'.

(** Two loop states of [compute] that differ at most in the energy and the
    tallies. *)
Definition same_forces {F : Type} (s s' : ForceState F) : Prop :=
  fs_f s = fs_f s' /\ fs_random s = fs_random s' /\ fs_divs s = fs_divs s'.

(** Two calls of [compute] that have done the same but for the energy, the
    tallies and the flag [vflag_fdotr]: the same right-hand side, the same
    generator, the same divisions and the same solve. *)
Definition same_step {F : Type} (a b : ForceState F * Solved F * Z) : Prop :=
  same_forces (fst (fst a)) (fst (fst b)) /\ snd (fst a) = snd (fst b).

(** ** Notions used by the statements and the proofs *)

(** Two loops whose rounds fail together and keep a relation when they
    succeed. *)
Definition together {S T : Type} (R : S -> T -> Prop) (a : option S) (b : option T) : Prop :=
  match a, b with
  | Some x, Some y => R x y
  | None, None => True
  | _, _ => False
  end.

Section Notions.
Context {F : Type} {DF : Double F} {DI : DenseInverse F}.
Local Open Scope dbl_scope.

(** The outputs of two runs differ by the vector [t]. *)
Definition shifted (t : Z -> F) (s s' : StepState F) : Prop :=
  forall k, ss_out s' k = ss_out s k + t k.

(** The outputs of three runs: the third is the combination [c1, c2] of the
    first two. *)
Definition combined (c1 c2 : F) (su sv sw : StepState F) : Prop :=
  forall k, ss_out sw k = c1 * ss_out su k + c2 * ss_out sv k.

(** An amount added to a cell by [+=] or taken from it by [-=]. *)
Inductive Increment : Type :=
| Added (d : F)
| Subtracted (d : F).

Definition increment (x : F) (w : Increment) : F :=
  match w with
  | Added d => x + d
  | Subtracted d => x - d
  end.

(** The content [x] of a cell after the increments [ds], first to last. *)
Definition accumulate (ds : list Increment) (x : F) : F := fold_left increment ds x.

(** A change of the buffer that only accumulates into the cell [k]: the
    cell comes out as it came in, with increments that do not depend on the
    buffer. *)
Definition accumulating (k : Z) (f : (Z -> F) -> Z -> F) : Prop :=
  exists ds, forall a, f a k = accumulate ds (a k).

(** The same for a change of the loop state of [compute_step]. *)
Definition accumulates_at (k : Z) (f : StepState F -> StepState F) : Prop :=
  exists ds, forall s, ss_out (f s) k = accumulate ds (ss_out s k).

(** The loop behind [dsum], from any counter and any start. *)
Definition sum_from (n : nat) (lo : Z) (t : Z -> F) (a : F) : F :=
  for_loop n lo (fun i acc => acc + t i) a.

(** The indicator as a factor. *)
Definition chi (b : bool) : F := ind b done.

(** The identity term of the owned atom [i], and the sum of the shares of its
    pairs. *)
Definition atom_share (this : PairDPDJung F) (u : Z -> F) (ii k : Z) : F :=
  let i := list_ilist (nlist this) ii in
  let itag := (atom_tag (atom this) i - 1)%Z in
  ind (k =? 3 * itag)%Z (u k) + ind (k =? 3 * itag + 1)%Z (u k)
  + ind (k =? 3 * itag + 2)%Z (u k)
  + - (update_dt (update this) / dtwo
       * dsum (list_numneigh (nlist this) i)
           (fun jj => Gamma_pair (updates_j this) this u i jj k)).

(** What holds when round [i] is about to start: [i - 1] columns, [i - 1]
    calls of [compute_step], only rounds from the third on reported, and,
    once a round is done, [xk_save] is the vector [xk] of the last round. *)
Definition before_round (norm : F) (i : Z) (st : Krylov F) : Prop :=
  kr_napply st = Z.to_nat (i - 1) /\
  length (kr_Vn st) = Z.to_nat (i - 1) /\
  (forall k, In k (kr_printed st) -> (3 <= k <= i - 1)%Z) /\
  ((2 < i)%Z ->
   exists f_Hk, inverse (i - 1)%Z (Hk st) = Some f_Hk /\
                kr_xk_save st = xk_of (i - 1) st norm f_Hk).

(** Round [k] of the loop of line 585 takes the loop state [st] to [st']
    (lines 586-632): the orthogonalised residual, normalised, is column [k-1]
    of a basis of [k] columns and its norm is [beta[k-1]]; [compute_step] is
    applied to that column with the orthogonalised residual in the buffer
    [rk]; [alpha[k]] is taken from the column and [rk]; the matrix [Hk] is
    inverted and [xk_save] is the vector [xk] made from the inverse; and the
    line [k] is printed exactly when this is the third round or a later one
    and the norm of the difference to the [xk_save] of the round before is
    below [tol]. *)
Definition full_round (this : PairDPDJung F) (norm tol : F) (k : Z)
  (st st' : Krylov F) : Prop :=
  let size := (atom_nlocal (atom this) * 3)%Z in
  let o := orthogonalized k st in
  length (kr_Vn st') = Z.to_nat k /\
  col (kr_Vn st') (k - 1) = normalized size o /\
  kr_rk st' = compute_step this (col (kr_Vn st') (k - 1)) o /\
  kr_beta st' = upd (kr_beta st) (k - 1) (vnorm size o) /\
  kr_alpha st' = upd (kr_alpha st) k (vdot size (col (kr_Vn st') (k - 1)) (kr_rk st')) /\
  (exists f_Hk, inverse k (Hk st') = Some f_Hk /\
                kr_xk_save st' = xk_of k st' norm f_Hk) /\
  kr_printed st'
  = if (3 <=? k)%Z && (vnorm size (fun i => kr_xk_save st i - kr_xk_save st' i) <? tol)
    then k :: kr_printed st else kr_printed st.

End Notions.

Arguments Increment F : clear implicits.

(** ** The commands of the input script: [settings], [coeff], [init_style] *)

(** [error->all(FLERR,msg)] ends the run with the message [msg]; a function
    that can call it has an [Outcome]. *)
Inductive Outcome (A : Type) : Type :=
| Returns (a : A)
| ErrorAll (msg : String.string).

Arguments Returns {A} a.
Arguments ErrorAll {A} msg.

Definition and_then {A B : Type} (m : Outcome A) (k : A -> Outcome B) : Outcome B :=
  match m with
  | Returns a => k a
  | ErrorAll msg => ErrorAll msg
  end.

Declare Scope outcome_scope.
Notation "x <- m ;; k" := (and_then m (fun x => k))
  (at level 61, m at next level, right associativity) : outcome_scope.
Notation "' pat <- m ;; k" := (and_then m (fun x => match x with pat => k end))
  (at level 61, pat pattern, m at next level, right associativity) : outcome_scope.

(** The readers of the engine's class [Force], outside [src/]:
    [force->numeric(FLERR,str)], [force->inumeric(FLERR,str)] and
    [force->bounds(FLERR,str,nmax,nlo,nhi)], each of which ends the run on a
    word it does not accept. *)
Class ForceInput (F : Type) : Type := {
  numeric : String.string -> Outcome F;
  inumeric : String.string -> Outcome Z;
  bounds : String.string -> Z -> Outcome (Z * Z)
}.

Definition Illegal_pair_style : String.string := "Illegal pair_style command"%string.
Definition Incorrect_args : String.string := "Incorrect args for pair coefficients"%string.
Definition Needs_ghost_velocity : String.string :=
  "Pair dpd requires ghost atoms store velocity"%string.
Definition Needs_newton_pair : String.string :=
  "Pair dpd needs newton pair on for momentum conservation"%string.

Section Commands.
Context {F : Type} {DF : Double F} {FI : ForceInput F}.
Local Open Scope dbl_scope.
Local Open Scope outcome_scope.

(** [this] with other settings and another generator, and with the table
    [cut] replaced. *)
Definition with_settings (this : PairDPDJung F) (t cg : F) (sd : Z) (rnd : RanMars F)
  (c : Z -> Z -> F) : PairDPDJung F :=
  {| atom := atom this; force := force this; update := update this;
     nlist := nlist this; base := base this;
     comm_me := comm_me this; allocated := allocated this;
     setflag := setflag this; cutsq := cutsq this; cut := c;
     a0 := a0 this; gamma := gamma this; sigma := sigma this;
     temperature := t; cut_global := cg; seed := sd; mix_flag := mix_flag this;
     random := rnd |}.

(** [settings(narg, arg)] (lines 245-267). *)
Definition settings (this : PairDPDJung F) (narg : Z) (arg : Z -> String.string)
  : Outcome (PairDPDJung F) :=
  if negb (narg =? 3)%Z then ErrorAll Illegal_pair_style
  else
    t <- numeric (arg 0%Z) ;;
    cg <- numeric (arg 1%Z) ;;
    sd <- inumeric (arg 2%Z) ;;
    if (sd <=? 0)%Z then ErrorAll Illegal_pair_style
    else
      let rnd := new_RanMars (base this) (sd + comm_me this)%Z in
      let n := atom_ntypes (atom this) in
      let c :=
        if truthy (allocated this) then
          for_range 1 (n + 1)
            (fun i c =>
               for_range i (n + 1)
                 (fun j c => if truthy (setflag this i j) then upd2 c i j cg else c) c)
            (cut this)
        else cut this in
      Returns (with_settings this t cg sd rnd c).

(** The body of the loops of [coeff] (lines 292-296): the state is the object
    and the local [count]. *)
Definition coeff_pair (a0_one gamma_one cut_one : F) (i j : Z) (s : PairDPDJung F * Z)
  : PairDPDJung F * Z :=
  let '(this, count) := s in
  (with_tables this (upd2 (setflag this) i j 1%Z) (cutsq this)
     (upd2 (cut this) i j cut_one) (upd2 (a0 this) i j a0_one)
     (upd2 (gamma this) i j gamma_one) (sigma this),
   (count + 1)%Z).

(** [coeff(narg, arg)] (lines 273-301); [heap] holds the cells [allocate]
    would be handed. *)
Definition coeff (this : PairDPDJung F) (heap : Fresh F) (narg : Z)
  (arg : Z -> String.string) : Outcome (PairDPDJung F) :=
  if (narg <? 4)%Z || (5 <? narg)%Z then ErrorAll Incorrect_args
  else
    let this := if truthy (allocated this) then this else allocate this heap in
    ' (ilo, ihi) <- bounds (arg 0%Z) (atom_ntypes (atom this)) ;;
    ' (jlo, jhi) <- bounds (arg 1%Z) (atom_ntypes (atom this)) ;;
    a0_one <- numeric (arg 2%Z) ;;
    gamma_one <- numeric (arg 3%Z) ;;
    cut_one <- (if (narg =? 5)%Z then numeric (arg 4%Z) else Returns (cut_global this)) ;;
    let '(this, count) :=
      for_range ilo (ihi + 1)
        (fun i s =>
           for_range (Z.max jlo i) (jhi + 1) (coeff_pair a0_one gamma_one cut_one i) s)
        (this, 0%Z) in
    if (count =? 0)%Z then ErrorAll Incorrect_args else Returns this.

(** What [init_style] leaves with the engine: the warnings given and the
    number of neighbor lists requested. *)
Record Styled : Type := {
  st_warnings : list String.string;
  st_requests : nat
}.

(** [init_style()] (lines 307-319), for the value of [comm->ghost_velocity]. *)
Definition init_style (this : PairDPDJung F) (ghost_velocity : Z) : Outcome Styled :=
  if (ghost_velocity =? 0)%Z then ErrorAll Needs_ghost_velocity
  else
    let warnings :=
      if (force_newton_pair (force this) =? 0)%Z && (comm_me this =? 0)%Z
      then [Needs_newton_pair] else [] in
    Returns {| st_warnings := warnings; st_requests := 1 |}.

End Commands.

(** Stand-ins for the readers of the engine in the examples: words of decimal
    digits with an optional sign and an optional decimal point, and type ranges
    written [n], [*], [*n], [n*] or [m*n]. *)
Section Readers.
Context {F : Type} {DF : Double F}.
Local Open Scope dbl_scope.

Definition Expected_number : String.string := "Expected numeric parameter"%string.
Definition Out_of_bounds : String.string := "Numeric index is out of bounds"%string.

(** The digits of [s] read after [acc]; [scale] is the power of ten by which
    the digits read after the decimal point have multiplied the number. *)
Fixpoint digits_from (s : String.string) (acc : Z) (scale : option Z) : option (Z * Z) :=
  match s with
  | String.EmptyString =>
      Some (acc, match scale with Some p => p | None => 1%Z end)
  | String.String c s' =>
      let d := (Z.of_nat (Ascii.nat_of_ascii c) - 48)%Z in
      if (0 <=? d)%Z && (d <=? 9)%Z then
        digits_from s' (10 * acc + d)%Z
          (match scale with Some p => Some (10 * p)%Z | None => None end)
      else if (Nat.eqb (Ascii.nat_of_ascii c) 46)
           then match scale with
                | None => digits_from s' acc (Some 1%Z)
                | Some _ => None
                end
           else None
  end.

(** A signed decimal word: the number and the power of ten dividing it. *)
Definition decimal (s : String.string) : option (Z * Z) :=
  match s with
  | String.EmptyString => None
  | String.String c s' =>
      if Nat.eqb (Ascii.nat_of_ascii c) 45 then
        match s' with
        | String.EmptyString => None
        | _ => match digits_from s' 0%Z None with
               | Some (n, p) => Some ((- n)%Z, p)
               | None => None
               end
        end
      else digits_from s 0%Z None
  end.

(** A whole number as a [double]. *)
Fixpoint of_pos (p : positive) : F :=
  match p with
  | xH => done
  | xO p' => dtwo * of_pos p'
  | xI p' => dtwo * of_pos p' + done
  end.

Definition of_Z (z : Z) : F :=
  match z with
  | Z0 => dzero
  | Zpos p => of_pos p
  | Zneg p => - of_pos p
  end.

Definition read_numeric (s : String.string) : Outcome F :=
  match decimal s with
  | Some (n, p) => Returns (if (p =? 1)%Z then of_Z n else of_Z n / of_Z p)
  | None => ErrorAll Expected_number
  end.

Definition read_inumeric (s : String.string) : Outcome Z :=
  match decimal s with
  | Some (n, p) => if (p =? 1)%Z then Returns n else ErrorAll Expected_number
  | None => ErrorAll Expected_number
  end.

(** [atoi]: the leading digits of a word, [0] when there are none. *)
Fixpoint atoi_from (s : String.string) (acc : Z) : Z :=
  match s with
  | String.EmptyString => acc
  | String.String c s' =>
      let d := (Z.of_nat (Ascii.nat_of_ascii c) - 48)%Z in
      if (0 <=? d)%Z && (d <=? 9)%Z then atoi_from s' (10 * acc + d)%Z else acc
  end.

Definition atoi (s : String.string) : Z := atoi_from s 0%Z.

Definition read_bounds (s : String.string) (nmax : Z) : Outcome (Z * Z) :=
  let star := String.String (Ascii.ascii_of_nat 42) String.EmptyString in
  let '(nlo, nhi) :=
    match String.index 0 star s with
    | None => (atoi s, atoi s)
    | Some p =>
        let after := String.substring (S p) (String.length s - S p) s in
        if Nat.eqb (String.length s) 1 then (1%Z, nmax)
        else if Nat.eqb p 0 then (1%Z, atoi after)
        else if Nat.eqb (String.length after) 0 then (atoi s, nmax)
        else (atoi s, atoi after)
    end in
  if (nlo <? 1)%Z || (nmax <? nhi)%Z || (nhi <? nlo)%Z then ErrorAll Out_of_bounds
  else Returns (nlo, nhi).

Definition script_reader : ForceInput F :=
  {| numeric := read_numeric; inumeric := read_inumeric; bounds := read_bounds |}.

(** The words of a command line, from a list. *)
Definition words (l : list String.string) : Z -> String.string :=
  fun k => nth (Z.to_nat k) l String.EmptyString.

End Readers.


(** ** Notions used by the further properties *)

(** The pairs [(i,j)] with [ilo <= i <= ihi], [jlo <= j <= jhi] and [i <= j]:
    those the loops of [coeff] visit. *)
Definition in_block (ilo ihi jlo jhi i j : Z) : bool :=
  (ilo <=? i) && (i <=? ihi) && (jlo <=? j) && (j <=? jhi) && (i <=? j).

Section MoreNotions.
Context {F : Type} {DF : Double F}.
Local Open Scope dbl_scope.

(** What the loops of [coeff] leave alone. *)
Definition coeff_kept (s0 s : PairDPDJung F * Z) : Prop :=
  sigma (fst s) = sigma (fst s0) /\ cutsq (fst s) = cutsq (fst s0) /\
  temperature (fst s) = temperature (fst s0) /\ cut_global (fst s) = cut_global (fst s0) /\
  seed (fst s) = seed (fst s0) /\ mix_flag (fst s) = mix_flag (fst s0) /\
  random (fst s) = random (fst s0) /\
  allocated (fst s) = allocated (fst s0) /\ atom (fst s) = atom (fst s0) /\
  force (fst s) = force (fst s0).

(** The neighbor [jj] of the listed atom [i] passes the two tests of lines
    130-132 and 525-527: it is in the cutoff and not closer than [EPSILON]. *)
Definition interacts (this : PairDPDJung F) (i jj : Z) : bool :=
  let g := pair_geom this (atom_x (atom this) i 0) (atom_x (atom this) i 1)
             (atom_x (atom this) i 2) i jj in
  (pg_rsq g <? cutsq this (atom_type (atom this) i) (pg_jtype g))
  && negb (dsqrt (pg_rsq g) <? EPSILON).

(** The number of such neighbors in the whole list. *)
Definition interactions (this : PairDPDJung F) : nat :=
  for_range 0 (list_inum (nlist this))
    (fun ii n =>
       let i := list_ilist (nlist this) ii in
       for_range 0 (list_numneigh (nlist this) i)
         (fun jj n => if interacts this i jj then Datatypes.S n else n) n)
    0%nat.

(** The flag [evflag] in [compute(eflag, vflag)] (lines 82-83). *)
Definition evflag_of (this : PairDPDJung F) (eflag vflag : Z) : Z :=
  fst (if truthy eflag || truthy vflag then ev_setup (base this) eflag vflag else (0, 0)%Z).

End MoreNotions.

Section ConservationNotions.
Context {F : Type} {DF : Double F}.
Local Open Scope dbl_scope.

(** The sum of the entries of component [c] of the first [n] particles of a
    state vector. *)
Definition component_sum (n c : Z) (f : Z -> F) : F :=
  dsum n (fun a => f (3 * a + c)%Z).

(** One of three values, by the component. *)
Definition pick (c : Z) (dx dy dz : F) : F :=
  if (c =? 0)%Z then dx else if (c =? 1)%Z then dy else dz.

(** Every listed atom and every listed neighbor has its tag, less one, below
    [n]: their entries lie in the first [3 n] cells of a state vector. *)
Definition tags_below (this : PairDPDJung F) (n : Z) : Prop :=
  (forall ii, (0 <= ii < list_inum (nlist this))%Z ->
     (0 <= atom_tag (atom this) (list_ilist (nlist this) ii) - 1 < n)%Z) /\
  (forall ii jj,
     (0 <= ii < list_inum (nlist this))%Z ->
     (0 <= jj < list_numneigh (nlist this) (list_ilist (nlist this) ii))%Z ->
     (0 <= neighbor_tag this (list_ilist (nlist this) ii) jj < n)%Z).

(** The test of lines 149 and 540 passes for every listed neighbor. *)
Definition every_neighbor_updated (this : PairDPDJung F) : Prop :=
  forall ii jj,
    (0 <= ii < list_inum (nlist this))%Z ->
    (0 <= jj < list_numneigh (nlist this) (list_ilist (nlist this) ii))%Z ->
    updates_j this
      (Z.land (list_firstneigh (nlist this) (list_ilist (nlist this) ii) jj)
         (NEIGHMASK (base this))) = true.

End ConservationNotions.

Section RestartNotions.
Context {F : Type} {DF : Double F}.

(** What the loops of [read_restart] leave alone. *)
Definition read_kept (start that : PairDPDJung F) : Prop :=
  sigma that = sigma start /\ cutsq that = cutsq start /\ random that = random start /\
  allocated that = allocated start /\ atom that = atom start /\
  temperature that = temperature start /\ cut_global that = cut_global start /\
  seed that = seed start /\ mix_flag that = mix_flag start /\
  (forall a b, ~ (1 <= a <= b /\ b <= atom_ntypes (atom start)) ->
     setflag that a b = setflag start a b /\ a0 that a b = a0 start a b /\
     gamma that a b = gamma start a b /\ cut that a b = cut start a b).

(** The tables of two objects hold the same values. *)
Definition same_tables (this that : PairDPDJung F) : Prop :=
  forall a b,
    setflag that a b = setflag this a b /\ a0 that a b = a0 this a b /\
    gamma that a b = gamma this a b /\ cut that a b = cut this a b /\
    sigma that a b = sigma this a b /\ cutsq that a b = cutsq this a b.

End RestartNotions.

(** The squared length of the entries of the listed atoms in a state
    vector. *)
Definition listed_square (this : PairDPDJung R) (u : Z -> R) : R :=
  dsum (list_inum (nlist this))
    (fun ii =>
       let itag := (atom_tag (atom this) (list_ilist (nlist this) ii) - 1)%Z in
       (u (3 * itag)%Z * u (3 * itag)%Z + u (3 * itag + 1)%Z * u (3 * itag + 1)%Z
        + u (3 * itag + 2)%Z * u (3 * itag + 2)%Z)%R).

(** ** The data file: [write_data] and [write_data_all] *)

Section DataFile.
Context {F : Type} {DF : Double F}.

(** One call [fprintf(fp,"%d %g %g\n",i,a0[i][i],gamma[i][i])] (line 431): the
    arguments of a line of the section of pair coefficients. *)
Record DataLine : Type := {
  dl_i : Z;
  dl_a0 : F;
  dl_gamma : F
}.

(** One call [fprintf(fp,"%d %d %g %g %g\n",i,j,a0[i][j],gamma[i][j],cut[i][j])]
    (line 442). *)
Record DataLineAll : Type := {
  da_i : Z;
  da_j : Z;
  da_a0 : F;
  da_gamma : F;
  da_cut : F
}.

(** [write_data(fp)] (lines 428-432); the file is the list of the lines
    printed to it. *)
Definition write_data (this : PairDPDJung F) (fp : list DataLine) : list DataLine :=
  for_range 1 (atom_ntypes (atom this) + 1)
    (fun i fp => fp ++ [{| dl_i := i; dl_a0 := a0 this i i; dl_gamma := gamma this i i |}])
    fp.

(** [write_data_all(fp)] (lines 438-443). *)
Definition write_data_all (this : PairDPDJung F) (fp : list DataLineAll)
  : list DataLineAll :=
  for_range 1 (atom_ntypes (atom this) + 1)
    (fun i fp =>
       for_range i (atom_ntypes (atom this) + 1)
         (fun j fp =>
            fp ++ [{| da_i := i; da_j := j; da_a0 := a0 this i j;
                      da_gamma := gamma this i j; da_cut := cut this i j |}])
         fp)
    fp.

(** The line of [write_data] held in a line of [write_data_all]. *)
Definition short_line (l : DataLineAll) : DataLine :=
  {| dl_i := da_i l; dl_a0 := da_a0 l; dl_gamma := da_gamma l |}.

Definition on_diagonal (l : DataLineAll) : bool := (da_i l =? da_j l)%Z.

End DataFile.

Arguments DataLine F : clear implicits.
Arguments DataLineAll F : clear implicits.

Section DivisorNotions.
Context {F : Type} {DF : Double F}.
Local Open Scope dbl_scope.

(** A divisor of [compute] or [compute_step] that is not a separation below
    [EPSILON]: the literal [2.0], the root of the time step, a cutoff, or a
    number that the test of lines 132 and 527 lets through. *)
Definition guarded_divisor (this : PairDPDJung F) (d : F) : Prop :=
  d = dtwo \/ d = dsqrt (update_dt (update this)) \/ (exists a b, d = cut this a b)
  \/ (d <? EPSILON) = false.

End DivisorNotions.

(** [this] as the constructor of the base class leaves it: nothing
    allocated. *)
Definition blank {F : Type} (this : PairDPDJung F) : PairDPDJung F :=
  {| atom := atom this; force := force this; update := update this;
     nlist := nlist this; base := base this;
     comm_me := comm_me this; allocated := 0;
     setflag := setflag this; cutsq := cutsq this; cut := cut this;
     a0 := a0 this; gamma := gamma this; sigma := sigma this;
     temperature := temperature this; cut_global := cut_global this;
     seed := seed this; mix_flag := mix_flag this; random := random this |}.

(** * Properties *)

(** ** Cells and loops *)

Lemma upd_same {A : Type} (a : Z -> A) (k : Z) (v : A) : upd a k v k = v.
Proof. unfold upd. now rewrite Z.eqb_refl. Qed.

Lemma upd_other {A : Type} (a : Z -> A) (k n : Z) (v : A) : n <> k -> upd a k v n = a n.
Proof. intros H. unfold upd. apply Z.eqb_neq in H. now rewrite H. Qed.

Lemma upd2_same {A : Type} (a : Z -> Z -> A) (i j : Z) (v : A) : upd2 a i j v i j = v.
Proof. unfold upd2. now rewrite !Z.eqb_refl. Qed.

Lemma upd2_other {A : Type} (a : Z -> Z -> A) (i j m n : Z) (v : A) :
  (m, n) <> (i, j) -> upd2 a i j v m n = a m n.
Proof.
  intros H. unfold upd2.
  destruct (Z.eqb_spec m i) as [-> | ]; destruct (Z.eqb_spec n j) as [-> | ];
    simpl; congruence.
Qed.

(** A property kept by every round of a loop holds when the loop ends; the
    round may rely on its counter being in range. *)
Lemma for_loop_ind {S : Type} (P : S -> Prop) (body : Z -> S -> S) :
  forall n lo s,
    P s ->
    (forall i t, lo <= i < lo + Z.of_nat n -> P t -> P (body i t)) ->
    P (for_loop n lo body s).
Proof.
  induction n as [| n IH]; intros lo s Hs Hb; simpl; [exact Hs |].
  apply IH.
  - apply Hb; [lia | exact Hs].
  - intros i t Hi. apply Hb. lia.
Qed.

Lemma for_range_ind {S : Type} (P : S -> Prop) (body : Z -> S -> S) (lo hi : Z) (s : S) :
  P s ->
  (forall i t, lo <= i < hi -> P t -> P (body i t)) ->
  P (for_range lo hi body s).
Proof.
  intros Hs Hb. unfold for_range. apply for_loop_ind; [exact Hs |].
  intros i t Hi. apply Hb. lia.
Qed.

(** A relation between the states of two loops. *)
Lemma for_loop_rel {S T : Type} (R : S -> T -> Prop) (f : Z -> S -> S) (g : Z -> T -> T) :
  forall n lo s t,
    R s t ->
    (forall i s' t', lo <= i < lo + Z.of_nat n -> R s' t' -> R (f i s') (g i t')) ->
    R (for_loop n lo f s) (for_loop n lo g t).
Proof.
  induction n as [| n IH]; intros lo s t Hst Hb; simpl; [exact Hst |].
  apply IH.
  - apply Hb; [lia | exact Hst].
  - intros i s' t' Hi. apply Hb. lia.
Qed.

Lemma for_range_rel {S T : Type} (R : S -> T -> Prop) (f : Z -> S -> S) (g : Z -> T -> T)
  (lo hi : Z) (s : S) (t : T) :
  R s t ->
  (forall i s' t', lo <= i < hi -> R s' t' -> R (f i s') (g i t')) ->
  R (for_range lo hi f s) (for_range lo hi g t).
Proof.
  intros Hst Hb. unfold for_range. apply for_loop_rel; [exact Hst |].
  intros i s' t' Hi. apply Hb. lia.
Qed.

(** ** Setup: the noise coefficient (C9) *)

Section InitOne.
Context {F : Type} {DF : Double F}.
Local Open Scope dbl_scope.

(** C9.  For a type pair [(i,j)] whose coefficients are set, [init_one]
    succeeds and leaves [sigma[i][j]] equal to
    [sqrt(2.0 * boltz * temperature * gamma[i][j])], computed with the
    operations of the source, and [sigma[j][i]] equal to [sigma[i][j]]; the
    friction coefficient [gamma[i][j]] it is derived from is not changed. *)
Theorem init_one_sigma (this : PairDPDJung F) (i j : Z) :
  setflag this i j <> 0%Z ->
  exists this' c,
    init_one this i j = Some (this', c) /\
    sigma this' i j
    = dsqrt (dtwo * force_boltz (force this) * temperature this * gamma this i j) /\
    sigma this' j i = sigma this' i j /\
    gamma this' i j = gamma this i j.
Proof.
  intros Hset. unfold init_one.
  apply Z.eqb_neq in Hset. rewrite Hset.
  eexists _, _. split; [reflexivity |]. cbn [sigma gamma with_tables].
  destruct (Z.eq_dec i j) as [-> | Hij].
  - rewrite !upd2_same. auto.
  - assert (Hne : (i, j) <> (j, i)) by congruence.
    assert (Hne' : (j, i) <> (i, j)) by congruence.
    rewrite !(upd2_other _ _ _ _ _ _ Hne), !upd2_same. auto.
Qed.

End InitOne.

(** The same on IEEE doubles: the pair [(2,1)] of [duo], which is set, with
    [boltz], [temperature] and [gamma] equal to 1; its mirror cell is
    [(1,2)]. *)
Lemma init_one_sigma_witness :
  exists this' c,
    init_one (duo 0.5%float 1 2) 2 1 = Some (this', c) /\
    sigma this' 2 1 = PrimFloat.sqrt (2 * 1 * 1 * 1)%float /\
    sigma this' 1 2 = sigma this' 2 1 /\
    gamma this' 2 1 = 1%float.
Proof.
  refine (init_one_sigma (duo 0.5%float 1 2) 2 1 _). vm_compute. discriminate.
Defined.

(** ** Pairs closer than [EPSILON] (C7) *)

Section Degenerate.
Context {F : Type} {DF : Double F}.
Local Open Scope dbl_scope.

(** C7.  When the separation [r = sqrt(rsq)] of a pair is below [EPSILON], the
    round of the neighbor loop of [compute] and the round of the neighbor loop
    of [compute_step] return the state they were given: no entry of the force
    or output vector changes, no random number is drawn, nothing is tallied and
    no division is carried out.  [single] returns the energy [0.0], stores
    [0.0] in [fforce] and carries out no division.  None of the three has
    another outcome.  The statement holds for every arithmetic, IEEE doubles
    included. *)
Theorem degenerate_pair_skipped (this : PairDPDJung F) (input : Z -> F)
  (pre dtinvsqrt : F) (eflag evflag : Z) (i itag itype : Z)
  (xtmp ytmp ztmp vxtmp vytmp vztmp : F) (jj : Z)
  (fs : ForceState F) (ss : StepState F)
  (si sj sitype sjtype : Z) (factor_coul factor_dpd fforce : F) :
  let rsq := pg_rsq (pair_geom this xtmp ytmp ztmp i jj) in
  (dsqrt rsq <? EPSILON) = true ->
  force_pair this eflag evflag dtinvsqrt i itag itype xtmp ytmp ztmp jj fs = fs /\
  step_pair this input pre i itag itype xtmp ytmp ztmp vxtmp vytmp vztmp jj ss = ss /\
  single this si sj sitype sjtype rsq factor_coul factor_dpd fforce = (dzero, dzero, []).
Proof.
  intros rsq Hdeg. unfold force_pair, step_pair, single. fold rsq.
  rewrite Hdeg.
  destruct (rsq <? cutsq this itype _); auto.
Qed.

End Degenerate.

(** Two atoms at the same place, on IEEE doubles. *)
Lemma degenerate_pair_skipped_witness :
  let this := duo 0%float 1 2 in
  force_pair this 1 1 1%float 0 0 1 0%float 0%float 0%float 0 (force_start this)
  = force_start this /\
  step_pair this e0 (-0.5)%float 0 0 1 0%float 0%float 0%float 1%float 0%float 0%float 0
    {| ss_out := zeros; ss_divs := [] |}
  = {| ss_out := zeros; ss_divs := [] |} /\
  single this 0 1 1 1 0%float 1%float 1%float 5%float = (0%float, 0%float, []).
Proof.
  refine (degenerate_pair_skipped (duo 0%float 1 2) e0 (-0.5)%float 1%float 1 1 0 0 1
            0%float 0%float 0%float 1%float 0%float 0%float 0
            (force_start _) {| ss_out := zeros; ss_divs := [] |}
            0 1 1 1 1%float 1%float 5%float _).
  vm_compute. reflexivity.
Defined.

(** ** Newton's third law in [compute] (C6) *)



Ltac cells :=
  unfold acc_add, acc_sub, upd;
  repeat match goal with
         | |- context [Z.eqb ?a ?b] => destruct (Z.eqb_spec a b); try lia
         end.

Section NewtonThree.
Context {F : Type} {DF : Double F}.
Local Open Scope dbl_scope.


End NewtonThree.



(** ** The right-hand side built by [compute] (C2) *)

Section RightHandSide.
Context {F : Type} {DF : Double F}.
Local Open Scope dbl_scope.

Lemma rhs_atom_entry (this : PairDPDJung F) (i : Z) (s : ForceState F) (k : Z) :
  fs_f (rhs_atom this i s) k
  = if (3 * i <=? k)%Z && (k <? 3 * i + 3)%Z then rhs_cell this i (fs_f s k) else fs_f s k.
Proof.
  unfold rhs_atom, rhs_cell. cbn [fs_f].
  destruct (Z.leb_spec (3 * i) k); destruct (Z.ltb_spec k (3 * i + 3)); cbn [andb];
    [| cells; reflexivity ..].
  assert (Hk : k = (3 * i)%Z \/ k = (3 * i + 1)%Z \/ k = (3 * i + 2)%Z) by lia.
  destruct Hk as [-> | [-> | ->]]; cells; reflexivity.
Qed.

Lemma rhs_loop_entry (this : PairDPDJung F) :
  forall n lo s k,
    fs_f (for_loop n lo (rhs_atom this) s) k
    = if (3 * lo <=? k)%Z && (k <? 3 * (lo + Z.of_nat n))%Z
      then rhs_cell this (k / 3) (fs_f s k) else fs_f s k.
Proof.
  induction n as [| n IH]; intros lo s k.
  - cbn [for_loop]. destruct (Z.leb_spec (3 * lo) k);
      destruct (Z.ltb_spec k (3 * (lo + Z.of_nat 0))); cbn [andb]; try reflexivity; lia.
  - cbn [for_loop]. rewrite IH, rhs_atom_entry.
    destruct (Z.leb_spec (3 * (lo + 1)) k);
      destruct (Z.ltb_spec k (3 * (lo + 1 + Z.of_nat n)));
      destruct (Z.leb_spec (3 * lo) k);
      destruct (Z.ltb_spec k (3 * lo + 3));
      destruct (Z.ltb_spec k (3 * (lo + Z.of_nat (S n))));
      cbn [andb]; try reflexivity; try lia.
    replace (k / 3)%Z with lo; [reflexivity |].
    apply Z.div_unique with (r := (k - 3 * lo)%Z); lia.
Qed.

(** X1.  What the code computes where C2 speaks: for every owned atom [i] and
    every component [c], the entry [3 i + c] of the right-hand side is the
    accumulated force times [dt*dt/2.0] plus [dt * v[i][0]]: the x component of
    the velocity, whichever [c] is. *)
Lemma compute_rhs_entry (this : PairDPDJung F) (s : ForceState F) (i c : Z) :
  (0 <= i < atom_nlocal (atom this))%Z -> (0 <= c < 3)%Z ->
  fs_f (compute_rhs this s) (3 * i + c)%Z
  = fs_f s (3 * i + c)%Z * (update_dt (update this) * update_dt (update this) / dtwo)
    + update_dt (update this) * atom_v (atom this) i 0.
Proof.
  intros Hi Hc. unfold compute_rhs, for_range. rewrite rhs_loop_entry.
  destruct (Z.leb_spec (3 * 0) (3 * i + c));
    destruct (Z.ltb_spec (3 * i + c)
                (3 * (0 + Z.of_nat (Z.to_nat (atom_nlocal (atom this) - 0)))));
    cbn [andb]; try lia.
  unfold rhs_cell. replace ((3 * i + c) / 3)%Z with i; [reflexivity |].
  apply Z.div_unique with (r := c); lia.
Qed.

End RightHandSide.

(** C2 fails on the code.  The two owned atoms of [duo] two units apart, out
    of the cutoff, with velocities [(1,2,3)] and [dt = 1], on IEEE doubles: the
    accumulated force is zero, so C2 puts [dt * v = (1,2,3)] in the entries of
    each atom; lines 174-176 put [(1,1,1)] there. *)
Lemma rhs_velocity_carry_uses_x_only :
  let this := duo 2%float 1 2 in
  let s := fst (compute_forces this 0 0) in
  map (fs_f s) [0; 1; 2; 3; 4; 5] = [0; 0; 0; 0; 0; 0]%float /\
  map (fun k => PrimFloat.mul (update_dt (update this)) (atom_v (atom this) (k / 3) (k mod 3)))
    [0; 1; 2; 3; 4; 5]
  = [1; 2; 3; 1; 2; 3]%float /\
  map (fs_f (compute_rhs this s)) [0; 1; 2; 3; 4; 5] = [1; 1; 1; 1; 1; 1]%float.
Proof. vm_compute. auto. Qed.

(** Three loops run side by side. *)
Lemma for_loop_rel3 {S : Type} (R : S -> S -> S -> Prop) (f g h : Z -> S -> S) :
  forall n lo s t u,
    R s t u ->
    (forall i s' t' u', lo <= i < lo + Z.of_nat n ->
                        R s' t' u' -> R (f i s') (g i t') (h i u')) ->
    R (for_loop n lo f s) (for_loop n lo g t) (for_loop n lo h u).
Proof.
  induction n as [| n IH]; intros lo s t u Hstu Hb; simpl; [exact Hstu |].
  apply IH.
  - apply Hb; [lia | exact Hstu].
  - intros i s' t' u' Hi. apply Hb. lia.
Qed.

(** ** [compute_step] in exact arithmetic: shifted buffers and linearity
    (C4) *)

Section ExactStep.
Context {F : Type} {DF : Double F} {ER : ExactRing DF}.
Local Open Scope dbl_scope.

Add Ring Fring : (@exact_ring F DF ER).

Lemma acc_add_at (a : Z -> F) (k0 : Z) (d : F) (n : Z) :
  acc_add a k0 d n = a n + ind (n =? k0)%Z d.
Proof.
  unfold acc_add, upd, ind. destruct (Z.eqb_spec n k0) as [-> | _]; ring.
Qed.

Lemma acc_sub_at (a : Z -> F) (k0 : Z) (d : F) (n : Z) :
  acc_sub a k0 d n = a n - ind (n =? k0)%Z d.
Proof.
  unfold acc_sub, upd, ind. destruct (Z.eqb_spec n k0) as [-> | _]; ring.
Qed.

(** Entry [n] after [scatter]. *)
Lemma scatter_at (a : Z -> F) (itag jtag : Z) (both : bool) (dx dy dz : F) (n : Z) :
  scatter a itag jtag both dx dy dz n
  = a n
    + (ind (n =? 3 * itag)%Z dx + ind (n =? 3 * itag + 1)%Z dy
       + ind (n =? 3 * itag + 2)%Z dz)
    - (if both
       then ind (n =? 3 * jtag)%Z dx + ind (n =? 3 * jtag + 1)%Z dy
            + ind (n =? 3 * jtag + 2)%Z dz
       else dzero).
Proof.
  unfold scatter. destruct both; rewrite ?acc_sub_at, ?acc_add_at; ring.
Qed.

Lemma step_pair_shifted (this : PairDPDJung F) (input : Z -> F) (pre : F)
  (i itag itype : Z) (xtmp ytmp ztmp vxtmp vytmp vztmp : F) (jj : Z)
  (t : Z -> F) (s s' : StepState F) :
  shifted t s s' ->
  shifted t
    (step_pair this input pre i itag itype xtmp ytmp ztmp vxtmp vytmp vztmp jj s)
    (step_pair this input pre i itag itype xtmp ytmp ztmp vxtmp vytmp vztmp jj s').
Proof.
  intros H. unfold step_pair.
  destruct (_ <? cutsq this itype _); [| exact H].
  destruct (dsqrt _ <? EPSILON); [exact H |].
  intros k. cbn [ss_out].
  rewrite !scatter_at, H. ring.
Qed.

Lemma step_atom_shifted (this : PairDPDJung F) (input : Z -> F) (pre : F) (ii : Z)
  (t : Z -> F) (s s' : StepState F) :
  shifted t s s' ->
  shifted t (step_atom this input pre ii s) (step_atom this input pre ii s').
Proof.
  intros H. unfold step_atom.
  apply for_range_rel.
  - intros k. cbn [ss_out]. rewrite !acc_add_at, H. ring.
  - intros jj s1 s1' _ H1. now apply step_pair_shifted.
Qed.

Lemma compute_step_from_shifted (this : PairDPDJung F) (input : Z -> F)
  (t : Z -> F) (s s' : StepState F) :
  shifted t s s' ->
  shifted t (compute_step_from this input s) (compute_step_from this input s').
Proof.
  intros H. unfold compute_step_from.
  apply for_range_rel.
  - exact H.
  - intros ii s1 s1' _ H1. now apply step_atom_shifted.
Qed.

(** In exact arithmetic every entry on return is the entry on entry plus the
    entry the call produces from a zeroed buffer. *)
Lemma compute_step_over_zeroed (this : PairDPDJung F) (input output : Z -> F) (k : Z) :
  compute_step this input output k = output k + compute_step this input zeros k.
Proof.
  unfold compute_step.
  rewrite (compute_step_from_shifted this input output
             {| ss_out := zeros; ss_divs := [] |} {| ss_out := output; ss_divs := [] |}).
  - ring.
  - intros n. cbn [ss_out]. unfold zeros. ring.
Qed.

(** X2.  In the solver: the vector [rk] from which round [k] takes [alpha[k]] is
    the operator applied to the new column plus the orthogonalised residual
    the buffer held when [compute_step] was called. *)
Lemma lanczos_extend_rk (this : PairDPDJung F) (k : Z) (st : Krylov F) (i : Z) :
  kr_rk (lanczos_extend this k st) i
  = orthogonalized k st i
    + compute_step this (col (kr_Vn (lanczos_extend this k st)) (k - 1)) zeros i.
Proof.
  unfold lanczos_extend. cbn [kr_rk kr_Vn]. unfold compute_step.
  rewrite (compute_step_from_shifted this _ (orthogonalized k st)
             {| ss_out := zeros; ss_divs := [] |}
             {| ss_out := orthogonalized k st; ss_divs := [] |}).
  - ring.
  - intros n. cbn [ss_out]. unfold zeros. ring.
Qed.

Lemma ind_combined (b : bool) (c1 c2 x y : F) :
  ind b (c1 * x + c2 * y) = c1 * ind b x + c2 * ind b y.
Proof. destruct b; unfold ind; ring. Qed.

Lemma scatter_combined (au av aw : Z -> F) (itag jtag : Z) (both : bool)
  (c1 c2 xu yu zu xv yv zv xw yw zw : F) :
  (forall k, aw k = c1 * au k + c2 * av k) ->
  xw = c1 * xu + c2 * xv -> yw = c1 * yu + c2 * yv -> zw = c1 * zu + c2 * zv ->
  forall k, scatter aw itag jtag both xw yw zw k
            = c1 * scatter au itag jtag both xu yu zu k
              + c2 * scatter av itag jtag both xv yv zv k.
Proof.
  intros H -> -> -> k. rewrite !scatter_at, H, !ind_combined.
  destruct both; ring.
Qed.

Lemma step_pair_combined (this : PairDPDJung F) (u v w : Z -> F) (c1 c2 pre : F)
  (i itag itype : Z) (xtmp ytmp ztmp : F)
  (ux uy uz vx vy vz wx wy wz : F) (jj : Z) (su sv sw : StepState F) :
  (forall n, w n = c1 * u n + c2 * v n) ->
  wx = c1 * ux + c2 * vx -> wy = c1 * uy + c2 * vy -> wz = c1 * uz + c2 * vz ->
  combined c1 c2 su sv sw ->
  combined c1 c2
    (step_pair this u pre i itag itype xtmp ytmp ztmp ux uy uz jj su)
    (step_pair this v pre i itag itype xtmp ytmp ztmp vx vy vz jj sv)
    (step_pair this w pre i itag itype xtmp ytmp ztmp wx wy wz jj sw).
Proof.
  intros Hw -> -> -> H. unfold step_pair.
  destruct (_ <? cutsq this itype _); [| exact H].
  destruct (dsqrt _ <? EPSILON); [exact H |].
  intros k. cbn [ss_out].
  apply scatter_combined; [exact H | rewrite !Hw; ring ..].
Qed.

Lemma step_atom_combined (this : PairDPDJung F) (u v w : Z -> F) (c1 c2 pre : F)
  (ii : Z) (su sv sw : StepState F) :
  (forall n, w n = c1 * u n + c2 * v n) ->
  combined c1 c2 su sv sw ->
  combined c1 c2 (step_atom this u pre ii su) (step_atom this v pre ii sv)
    (step_atom this w pre ii sw).
Proof.
  intros Hw H. unfold step_atom, for_range.
  apply for_loop_rel3.
  - intros k. cbn [ss_out]. rewrite !acc_add_at, H, !Hw, !ind_combined. ring.
  - intros jj s1 s2 s3 _ H1. apply step_pair_combined; auto.
Qed.

Lemma compute_step_from_combined (this : PairDPDJung F) (u v w : Z -> F) (c1 c2 : F)
  (su sv sw : StepState F) :
  (forall n, w n = c1 * u n + c2 * v n) ->
  combined c1 c2 su sv sw ->
  combined c1 c2 (compute_step_from this u su) (compute_step_from this v sv)
    (compute_step_from this w sw).
Proof.
  intros Hw H. unfold compute_step_from, for_range.
  apply for_loop_rel3.
  - exact H.
  - intros ii s1 s2 s3 _ H1. now apply step_atom_combined.
Qed.

(** C4.  In exact arithmetic the operator [compute_step] computes from a zeroed
    buffer is linear in its input: the image of [c1 u + c2 v] is [c1] times the
    image of [u] plus [c2] times the image of [v], entry by entry; the image of
    the zero vector is zero; and the image is the same whatever the velocities
    [atom->v] and the state of the random generator are. *)
Theorem compute_step_linear (this : PairDPDJung F) (u v : Z -> F) (c1 c2 : F) (k : Z) :
  compute_step this (fun n => c1 * u n + c2 * v n) zeros k
  = c1 * compute_step this u zeros k + c2 * compute_step this v zeros k
  /\ compute_step this zeros zeros k = dzero
  /\ (forall vel rnd output,
        compute_step (with_velocities this vel rnd) u output k
        = compute_step this u output k).
Proof.
  split; [| split].
  - unfold compute_step. apply compute_step_from_combined.
    + reflexivity.
    + intros n. cbn [ss_out]. unfold zeros. ring.
  - unfold compute_step.
    rewrite (compute_step_from_combined this zeros zeros zeros dzero dzero
               {| ss_out := zeros; ss_divs := [] |} {| ss_out := zeros; ss_divs := [] |}
               {| ss_out := zeros; ss_divs := [] |}).
    + ring.
    + intros n. unfold zeros. ring.
    + intros n. cbn [ss_out]. unfold zeros. ring.
  - reflexivity.
Qed.

End ExactStep.

(** The reals obey the laws of exact arithmetic. *)
Lemma R_ExactRing : ExactRing R_Double.
Proof. exact RTheory. Qed.

Lemma R_Exact : Exact R_Double.
Proof.
  split.
  - exact R_ExactRing.
  - exists Rinv. intros x y. reflexivity.
Qed.

(** C4 on the reals, for the two atoms of [duo]. *)
Lemma compute_step_linear_witness :
  let this := duo (1 / 2)%R 1 2 in
  compute_step this (fun n => 2 * e0 n + 3 * zeros n)%R zeros 3
  = (2 * compute_step this e0 zeros 3 + 3 * compute_step this zeros zeros 3)%R
  /\ compute_step this zeros zeros 3 = 0%R
  /\ (forall vel rnd output,
        compute_step (with_velocities this vel rnd) e0 output 3
        = compute_step this e0 output 3).
Proof.
  exact (@compute_step_linear R R_Double R_ExactRing (duo (1 / 2)%R 1 2) e0 zeros 2%R 3%R 3).
Defined.

(** ** [compute_step] against the operator of the specification (C1) *)

Section ExactOperator.
Context {F : Type} {DF : Double F} {EX : Exact DF}.
Local Open Scope dbl_scope.

#[local] Existing Instance exact_is_ring.
Add Ring Fring' : (@exact_ring F DF exact_is_ring).

Lemma sum_from_S (n : nat) (lo : Z) (t : Z -> F) (a : F) :
  sum_from (S n) lo t a = sum_from n (lo + 1) t (a + t lo).
Proof. reflexivity. Qed.

Lemma sum_from_start (t : Z -> F) :
  forall n lo a, sum_from n lo t a = a + sum_from n lo t dzero.
Proof.
  unfold sum_from. induction n as [| n IH]; intros lo a; cbn [for_loop].
  - ring.
  - rewrite (IH (lo + 1)%Z (a + t lo)), (IH (lo + 1)%Z (dzero + t lo)). ring.
Qed.

Lemma sum_from_ext (t t' : Z -> F) :
  forall n lo a,
    (forall i, (lo <= i < lo + Z.of_nat n)%Z -> t i = t' i) ->
    sum_from n lo t a = sum_from n lo t' a.
Proof.
  unfold sum_from. induction n as [| n IH]; intros lo a H; cbn [for_loop]; [reflexivity |].
  rewrite (H lo) by lia. apply IH. intros i Hi. apply H. lia.
Qed.

Lemma sum_from_add (t t' : Z -> F) :
  forall n lo,
    sum_from n lo (fun i => t i + t' i) dzero
    = sum_from n lo t dzero + sum_from n lo t' dzero.
Proof.
  induction n as [| n IH]; intros lo; unfold sum_from in *; cbn [for_loop].
  - ring.
  - fold (sum_from n (lo + 1) (fun i => t i + t' i) (dzero + (t lo + t' lo))).
    fold (sum_from n (lo + 1) t (dzero + t lo)).
    fold (sum_from n (lo + 1) t' (dzero + t' lo)).
    rewrite (sum_from_start _ n (lo + 1)%Z (dzero + (t lo + t' lo))),
      (sum_from_start t n (lo + 1)%Z (dzero + t lo)),
      (sum_from_start t' n (lo + 1)%Z (dzero + t' lo)).
    unfold sum_from. rewrite IH. ring.
Qed.

Lemma sum_from_scale (c : F) (t : Z -> F) :
  forall n lo, sum_from n lo (fun i => c * t i) dzero = c * sum_from n lo t dzero.
Proof.
  induction n as [| n IH]; intros lo; unfold sum_from in *; cbn [for_loop].
  - ring.
  - fold (sum_from n (lo + 1) (fun i => c * t i) (dzero + c * t lo)).
    fold (sum_from n (lo + 1) t (dzero + t lo)).
    rewrite (sum_from_start _ n (lo + 1)%Z (dzero + c * t lo)),
      (sum_from_start t n (lo + 1)%Z (dzero + t lo)).
    unfold sum_from. rewrite IH. ring.
Qed.

(** A loop whose rounds each add [delta i] to an observed quantity adds their
    sum. *)
Lemma for_loop_adds {S : Type} (obs : S -> F) (body : Z -> S -> S) (delta : Z -> F) :
  forall n lo s,
    (forall i t, (lo <= i < lo + Z.of_nat n)%Z -> obs (body i t) = obs t + delta i) ->
    obs (for_loop n lo body s) = obs s + sum_from n lo delta dzero.
Proof.
  induction n as [| n IH]; intros lo s H; unfold sum_from; cbn [for_loop].
  - ring.
  - rewrite IH by (intros i t Hi; apply H; lia).
    rewrite (H lo s) by lia.
    fold (sum_from n (lo + 1) delta (dzero + delta lo)).
    rewrite (sum_from_start delta n (lo + 1)%Z (dzero + delta lo)). ring.
Qed.

Lemma dsum_sum_from (n : Z) (t : Z -> F) :
  dsum n t = sum_from (Z.to_nat (n - 0)) 0 t dzero.
Proof. reflexivity. Qed.

Lemma ind_chi (b : bool) (x : F) : ind b x = chi b * x.
Proof. unfold chi, ind. destruct b; ring. Qed.

Lemma ind_cell (u : Z -> F) (k a : Z) : ind (k =? a)%Z (u a) = ind (k =? a)%Z (u k).
Proof. unfold ind. destruct (Z.eqb_spec k a) as [-> | _]; reflexivity. Qed.

(** One round of the neighbor loop adds the share of the pair in
    [- (dt/2) Gamma u] to every entry. *)
Lemma step_pair_adds (this : PairDPDJung F) (u : Z -> F) (i jj : Z) (s : StepState F) (k : Z) :
  (atom_tag (atom this) i - 1)%Z = i ->
  ss_out (step_pair this u (- update_dt (update this) / dtwo) i
            (atom_tag (atom this) i - 1) (atom_type (atom this) i)
            (atom_x (atom this) i 0) (atom_x (atom this) i 1) (atom_x (atom this) i 2)
            (u (3 * i)%Z) (u (3 * i + 1)%Z) (u (3 * i + 2)%Z) jj s) k
  = ss_out s k
    + - (update_dt (update this) / dtwo * Gamma_pair (updates_j this) this u i jj k).
Proof.
  intros Htag. destruct (@exact_div F DF EX) as [inv Hdiv].
  unfold step_pair, Gamma_pair, friction_coeff. rewrite !Htag.
  set (g := pair_geom this _ _ _ i jj).
  destruct (pg_rsq g <? cutsq this _ _).
  - destruct (dsqrt (pg_rsq g) <? EPSILON).
    + rewrite !ind_chi. destruct (updates_j this (pg_j g)); ring.
    + cbn [ss_out]. rewrite scatter_at, !ind_chi, !Hdiv.
      set (w := done - _ * inv _). clearbody w.
      set (dot := pg_delx g * _ + _ + _). clearbody dot.
      destruct (updates_j this (pg_j g)); ring.
  - rewrite !ind_chi. destruct (updates_j this (pg_j g)); ring.
Qed.

(** One round of the loop over the owned atoms adds the share of the atom. *)
Lemma step_atom_adds (this : PairDPDJung F) (u : Z -> F) (ii : Z) (s : StepState F) (k : Z) :
  (atom_tag (atom this) (list_ilist (nlist this) ii) - 1)%Z = list_ilist (nlist this) ii ->
  ss_out (step_atom this u (- update_dt (update this) / dtwo) ii s) k
  = ss_out s k + atom_share this u ii k.
Proof.
  intros Htag. unfold step_atom, atom_share, for_range.
  set (i := list_ilist (nlist this) ii) in *.
  rewrite (for_loop_adds (fun s => ss_out s k) _
             (fun jj => - (update_dt (update this) / dtwo
                           * Gamma_pair (updates_j this) this u i jj k))).
  - cbn [ss_out]. rewrite !acc_add_at, !ind_cell.
    rewrite dsum_sum_from.
    rewrite <- (sum_from_scale (update_dt (update this) / dtwo)).
    rewrite (sum_from_ext
               (fun jj => - (update_dt (update this) / dtwo
                             * Gamma_pair (updates_j this) this u i jj k))
               (fun jj => (- done) * (update_dt (update this) / dtwo
                                      * Gamma_pair (updates_j this) this u i jj k)))
      by (intros; ring).
    rewrite (sum_from_scale (- done)). ring.
  - intros jj t _. apply step_pair_adds. exact Htag.
Qed.

(** C1, amended.  In exact arithmetic, when the tag of every owned atom is its
    local index plus one: [compute_step] adds to each entry [k] of its output
    buffer the entry [k] of [(Identity - (dt/2) Gamma) input], where the
    identity term counts [input k] once for every owned atom holding entry [k],
    and [Gamma] sums over the neighbor pairs that are in the cutoff and not
    closer than [EPSILON]: the relative velocity read from [input] is projected
    onto the unit separation vector and scaled by [- gamma w^2 / r] and by
    the special-bond factor; the result times the separation goes to the
    entries of atom [i], and its opposite to the entries of atom [j] when
    [newton_pair] is set or [j] is an owned atom. *)
Theorem compute_step_is_guarded_operator (this : PairDPDJung F) (input output : Z -> F)
  (k : Z) :
  tags_are_indices this ->
  compute_step this input output k = output k + guarded_step this input k.
Proof.
  intros Htags. unfold compute_step, compute_step_from, for_range.
  rewrite (for_loop_adds (fun s => ss_out s k) _ (fun ii => atom_share this input ii k)).
  - cbn [ss_out]. unfold guarded_step, spec_step, Identity_owned, Gamma.
    rewrite !dsum_sum_from.
    unfold atom_share.
    rewrite (sum_from_add
               (fun ii =>
                  ind (k =? 3 * (atom_tag (atom this) (list_ilist (nlist this) ii) - 1))%Z
                    (input k)
                  + ind (k =? 3 * (atom_tag (atom this) (list_ilist (nlist this) ii) - 1) + 1)%Z
                      (input k)
                  + ind (k =? 3 * (atom_tag (atom this) (list_ilist (nlist this) ii) - 1) + 2)%Z
                      (input k))).
    rewrite (sum_from_ext
               (fun ii => - (update_dt (update this) / dtwo
                             * dsum (list_numneigh (nlist this) (list_ilist (nlist this) ii))
                                 (fun jj => Gamma_pair (updates_j this) this input
                                              (list_ilist (nlist this) ii) jj k)))
               (fun ii => (- (update_dt (update this) / dtwo))
                          * dsum (list_numneigh (nlist this) (list_ilist (nlist this) ii))
                              (fun jj => Gamma_pair (updates_j this) this input
                                           (list_ilist (nlist this) ii) jj k)))
      by (intros; ring).
    rewrite (sum_from_scale (- (update_dt (update this) / dtwo))). ring.
  - intros ii t Hii. apply step_atom_adds. apply Htags. lia.
Qed.

(** When the owned atoms are listed in the order of their indices, the
    identity term is the input itself on the entries of the owned atoms. *)
Lemma identity_sum_dense (tagm1 : Z -> Z) (u : Z -> F) (k : Z) :
  forall n lo,
    (forall ii, (lo <= ii < lo + Z.of_nat n)%Z -> tagm1 ii = ii) ->
    sum_from n lo
      (fun ii => ind (k =? 3 * tagm1 ii)%Z (u k) + ind (k =? 3 * tagm1 ii + 1)%Z (u k)
                 + ind (k =? 3 * tagm1 ii + 2)%Z (u k)) dzero
    = ind ((3 * lo <=? k)%Z && (k <? 3 * (lo + Z.of_nat n))%Z) (u k).
Proof.
  induction n as [| n IH]; intros lo H.
  - unfold sum_from. cbn [for_loop].
    destruct (Z.leb_spec (3 * lo) k); destruct (Z.ltb_spec k (3 * (lo + Z.of_nat 0)));
      cbn [andb ind]; try reflexivity; lia.
  - rewrite sum_from_S, sum_from_start, IH by (intros ii Hii; apply H; lia).
    rewrite (H lo) by lia.
    destruct (Z.eqb_spec k (3 * lo)); destruct (Z.eqb_spec k (3 * lo + 1));
      destruct (Z.eqb_spec k (3 * lo + 2));
      destruct (Z.leb_spec (3 * (lo + 1)) k);
      destruct (Z.ltb_spec k (3 * (lo + 1 + Z.of_nat n)));
      destruct (Z.leb_spec (3 * lo) k);
      destruct (Z.ltb_spec k (3 * (lo + Z.of_nat (S n))));
      cbn [andb ind]; try lia; ring.
Qed.

Lemma Identity_owned_dense (this : PairDPDJung F) (u : Z -> F) (k : Z) :
  tags_are_indices this ->
  (forall ii, (0 <= ii < list_inum (nlist this))%Z -> list_ilist (nlist this) ii = ii) ->
  (0 <= k < 3 * list_inum (nlist this))%Z ->
  Identity_owned this u k = u k.
Proof.
  intros Htags Hlist Hk. unfold Identity_owned. rewrite dsum_sum_from.
  rewrite (identity_sum_dense
             (fun ii => (atom_tag (atom this) (list_ilist (nlist this) ii) - 1)%Z)).
  - destruct (Z.leb_spec (3 * 0) k);
      destruct (Z.ltb_spec k (3 * (0 + Z.of_nat (Z.to_nat (list_inum (nlist this) - 0)))));
      cbn [andb ind]; try reflexivity; lia.
  - intros ii Hii. rewrite Htags by lia. apply Hlist. lia.
Qed.

End ExactOperator.

(** C1 as stated fails when [newton_pair] is off.  In [quad] with
    [newton_pair] off, on IEEE doubles (every operation of this run is exact),
    each owned atom has the image of the other as its neighbor and each round
    changes the entries of the owned atom only.  For the input [e0] the code
    gives the entries [(1.125,0,0,-0.125,0,0)], each pair acting once on each of
    its particles; the operator of the specification, which lets every listed
    pair act on both of its particles, has [(1.25,0,0,-0.25,0,0)].

    It fails as well, with [newton_pair] set, when the tags are not the local
    indices plus one.  In [duo] with the tags 2 and 1, lines 499-501 read the
    velocity of atom 0 at its local index, where the input holds the entries
    of the particle of tag 1, and line 529 reads the neighbor at its tag: the
    relative velocity is that of a particle to itself and the pair adds
    nothing.  The code gives [(1,0,0,0,0,0)] where the operator has
    [(1.125,0,0,-0.125,0,0)]. *)
Lemma compute_step_counterexample :
  (let this := quad 0.25%float 9.75%float (-0.25)%float 10.25%float 0 in
   tags_are_indices this /\
   map (compute_step this e0 zeros) [0; 1; 2; 3; 4; 5]
   = [1.125; 0; 0; -0.125; 0; 0]%float /\
   map (claimed_step this e0) [0; 1; 2; 3; 4; 5] = [1.25; 0; 0; -0.25; 0; 0]%float /\
   map (guarded_step this e0) [0; 1; 2; 3; 4; 5] = [1.125; 0; 0; -0.125; 0; 0]%float /\
   ~ step_claim this e0) /\
  (let this := with_tags (duo 0.5%float 1 2) (fun i => if i =? 0 then 2 else 1) in
   force_newton_pair (force this) = 1 /\
   map (compute_step this e0 zeros) [0; 1; 2; 3; 4; 5] = [1; 0; 0; 0; 0; 0]%float /\
   map (claimed_step this e0) [0; 1; 2; 3; 4; 5] = [1.125; 0; 0; -0.125; 0; 0]%float /\
   ~ step_claim this e0).
Proof.
  cbv zeta. split; [split; [| split; [| split; [| split]]] | split; [| split; [| split]]].
  - intros ii Hii. assert (Hc : ii = 0 \/ ii = 1) by (cbn in Hii; lia).
    destruct Hc as [-> | ->]; reflexivity.
  - vm_compute. reflexivity.
  - vm_compute. reflexivity.
  - vm_compute. reflexivity.
  - intros H. specialize (H 0). vm_compute in H. discriminate H.
  - reflexivity.
  - vm_compute. reflexivity.
  - vm_compute. reflexivity.
  - intros H. specialize (H 0). vm_compute in H. discriminate H.
Qed.

(** The amended statement on the reals, for [duo] with both atoms owned. *)
Lemma compute_step_is_guarded_operator_witness :
  tags_are_indices (duo (1 / 2)%R 1 2) /\
  compute_step (duo (1 / 2)%R 1 2) e0 zeros 0
  = (zeros 0 + guarded_step (duo (1 / 2)%R 1 2) e0 0)%R.
Proof.
  assert (H : tags_are_indices (duo (1 / 2)%R 1 2)) by (intros ii _; cbn; lia).
  split; [exact H |].
  exact (@compute_step_is_guarded_operator R R_Double R_Exact (duo (1 / 2)%R 1 2)
           e0 zeros 0 H).
Defined.

(** The two sides of the amended statement evaluated on IEEE doubles, for
    [duo] with both atoms owned and the input [e0]. *)
Lemma compute_step_duo_values :
  map (compute_step (duo 0.5%float 1 2) e0 zeros) [0; 1; 2; 3; 4; 5]
  = [1.125; 0; 0; -0.125; 0; 0]%float /\
  map (guarded_step (duo 0.5%float 1 2) e0) [0; 1; 2; 3; 4; 5]
  = [1.125; 0; 0; -0.125; 0; 0]%float.
Proof. vm_compute. auto. Qed.

(** ** The Lanczos solver (C3, C5) *)

Lemma for_loop_opt_inv {S : Type} (P : Z -> S -> Prop) (body : Z -> S -> option S) :
  forall n lo s s',
    P lo s ->
    (forall i t t', lo <= i < lo + Z.of_nat n -> P i t -> body i t = Some t' -> P (i + 1) t') ->
    for_loop_opt n lo body s = Some s' ->
    P (lo + Z.of_nat n) s'.
Proof.
  induction n as [| n IH]; intros lo s s' Hs Hb Hrun; cbn [for_loop_opt] in Hrun.
  - injection Hrun as <-. now replace (lo + Z.of_nat 0) with lo by lia.
  - destruct (body lo s) as [t |] eqn:Hbody; [| discriminate].
    replace (lo + Z.of_nat (Datatypes.S n)) with (lo + 1 + Z.of_nat n) by lia.
    apply (IH (lo + 1) t s').
    + apply (Hb lo s t); [lia | exact Hs | exact Hbody].
    + intros i u u' Hi. apply Hb. lia.
    + exact Hrun.
Qed.

Lemma for_loop_opt_fails {S : Type} (body : Z -> S -> option S) :
  forall n lo s,
    for_loop_opt n lo body s = None ->
    exists i t, lo <= i < lo + Z.of_nat n /\ body i t = None.
Proof.
  induction n as [| n IH]; intros lo s Hrun; cbn [for_loop_opt] in Hrun; [discriminate |].
  destruct (body lo s) as [t |] eqn:Hbody.
  - destruct (IH _ _ Hrun) as (i & u & Hi & Hu). exists i, u. split; [lia | exact Hu].
  - exists lo, s. split; [lia | exact Hbody].
Qed.

Lemma for_loop_opt_total {S : Type} (body : Z -> S -> option S) :
  forall n lo s,
    (forall i t, lo <= i < lo + Z.of_nat n -> body i t <> None) ->
    for_loop_opt n lo body s <> None.
Proof.
  intros n lo s Hb Hrun.
  destruct (for_loop_opt_fails body n lo s Hrun) as (i & t & Hi & Ht).
  exact (Hb i t Hi Ht).
Qed.

Lemma for_loop_opt_rel {S T : Type} (R : S -> T -> Prop)
  (f : Z -> S -> option S) (g : Z -> T -> option T) :
  forall n lo s t,
    R s t ->
    (forall i s' t', R s' t' -> together R (f i s') (g i t')) ->
    together R (for_loop_opt n lo f s) (for_loop_opt n lo g t).
Proof.
  induction n as [| n IH]; intros lo s t Hst Hb; cbn [for_loop_opt]; [exact Hst |].
  specialize (Hb lo s t Hst) as Hlo. unfold together in Hlo.
  destruct (f lo s) as [s1 |]; destruct (g lo t) as [t1 |]; try contradiction.
  - apply IH; assumption.
  - exact I.
Qed.

(** A loop that ends has gone through all its rounds: the states between the
    rounds. *)
Lemma for_loop_opt_trace {S : Type} (body : Z -> S -> option S) :
  forall n lo s s',
    for_loop_opt n lo body s = Some s' ->
    exists sts : Z -> S,
      sts lo = s /\ sts (lo + Z.of_nat n) = s' /\
      forall i, lo <= i < lo + Z.of_nat n -> body i (sts i) = Some (sts (i + 1)).
Proof.
  induction n as [| n IH]; intros lo s s' Hrun; cbn [for_loop_opt] in Hrun.
  - injection Hrun as <-. exists (fun _ => s).
    split; [reflexivity | split; [reflexivity |]]. intros i Hi. lia.
  - destruct (body lo s) as [t |] eqn:Hbody; [| discriminate].
    destruct (IH (lo + 1) t s' Hrun) as (sts & H0 & Hn & Hstep).
    exists (fun i => if i =? lo then s else sts i).
    split; [now rewrite Z.eqb_refl | split].
    + destruct (Z.eqb_spec (lo + Z.of_nat (Datatypes.S n)) lo) as [E | _]; [lia |].
      rewrite <- Hn. f_equal. lia.
    + intros i Hi.
      destruct (Z.eqb_spec (i + 1) lo) as [E | _]; [lia |].
      destruct (Z.eqb_spec i lo) as [-> | Hne].
      * rewrite H0. exact Hbody.
      * apply Hstep. lia.
Qed.

Section LanczosBudget.
Context {F : Type} {DF : Double F} {DI : DenseInverse F}.
Local Open Scope dbl_scope.

Lemma length_set_nth (l : list (Z -> F)) (n : nat) (v : Z -> F) :
  length (set_nth l n v) = length l.
Proof.
  revert n. induction l as [| h t IH]; intros [| n]; cbn; auto.
Qed.

Lemma length_conservativeResize (Vn : list (Z -> F)) (k : Z) :
  length (conservativeResize Vn k) = Z.to_nat k.
Proof.
  unfold conservativeResize. rewrite length_firstn, length_app, repeat_length. lia.
Qed.

Lemma nth_set_nth (l : list (Z -> F)) (n : nat) (v d : Z -> F) :
  (n < length l)%nat -> nth n (set_nth l n v) d = v.
Proof.
  revert n. induction l as [| h t IH]; intros [| n] Hn; cbn in *; try lia.
  - reflexivity.
  - apply IH. lia.
Qed.

(** What one round of the loop does. *)
Lemma lanczos_round_full (this : PairDPDJung F) (norm tol : F) (k : Z)
  (st st' : Krylov F) :
  (2 <= k)%Z ->
  lanczos_round this norm tol k st = Some st' ->
  full_round this norm tol k st st'.
Proof.
  intros Hge Hrun.
  assert (Hcol : col (kr_Vn (lanczos_extend this k st)) (k - 1)
                 = normalized (atom_nlocal (atom this) * 3) (orthogonalized k st)).
  { unfold lanczos_extend. cbn [kr_Vn]. unfold col, set_col.
    apply nth_set_nth. rewrite length_conservativeResize. lia. }
  assert (Hlen : length (kr_Vn (lanczos_extend this k st)) = Z.to_nat k).
  { unfold lanczos_extend. cbn [kr_Vn]. unfold set_col.
    rewrite length_set_nth, length_conservativeResize. reflexivity. }
  unfold lanczos_round, lanczos_solve in Hrun.
  destruct (Z.leb_spec 2 k); [| lia].
  destruct (inverse k (Hk (lanczos_extend this k st))) as [f_Hk |] eqn:Hinv; [| discriminate].
  unfold full_round.
  destruct (Z.eqb_spec k 2) as [-> | Hk2]; injection Hrun as <-;
    cbn [kr_Vn kr_rk kr_alpha kr_beta kr_xk_save kr_printed].
  - split; [exact Hlen | split; [exact Hcol |]].
    split; [reflexivity | split; [reflexivity | split; [reflexivity | split]]].
    + exists f_Hk. split; [exact Hinv | reflexivity].
    + reflexivity.
  - split; [exact Hlen | split; [exact Hcol |]].
    split; [reflexivity | split; [reflexivity | split; [reflexivity | split]]].
    + exists f_Hk. split; [exact Hinv | reflexivity].
    + destruct (Z.leb_spec 3 k); [| lia]. reflexivity.
Qed.

Lemma lanczos_round_keeps (this : PairDPDJung F) (norm tol : F) (k : Z)
  (st st' : Krylov F) :
  (2 <= k)%Z ->
  before_round norm k st ->
  lanczos_round this norm tol k st = Some st' ->
  before_round norm (k + 1) st'.
Proof.
  intros Hge (Hn & Hlen & Hpr & _) Hrun.
  unfold lanczos_round, lanczos_solve in Hrun.
  destruct (Z.leb_spec 2 k); [| lia].
  destruct (inverse k (Hk (lanczos_extend this k st))) as [f_Hk |] eqn:Hinv; [| discriminate].
  unfold before_round. replace (k + 1 - 1)%Z with k by lia.
  destruct (Z.eqb_spec k 2) as [-> | Hk2]; injection Hrun as <-;
    cbn [kr_napply kr_Vn kr_printed kr_xk_save lanczos_extend].
  - split; [| split; [| split]].
    + rewrite Hn. reflexivity.
    + unfold set_col. rewrite length_set_nth, length_conservativeResize. reflexivity.
    + intros k Hin. apply Hpr in Hin. lia.
    + intros _. exists f_Hk. split; [exact Hinv | reflexivity].
  - split; [| split; [| split]].
    + rewrite Hn. lia.
    + unfold set_col. rewrite length_set_nth, length_conservativeResize. reflexivity.
    + destruct (_ <? tol); intros k' Hin.
      * destruct Hin as [<- | Hin]; [lia |]. apply Hpr in Hin. lia.
      * apply Hpr in Hin. lia.
    + intros _. exists f_Hk. split; [exact Hinv | reflexivity].
Qed.

(** The tolerance only decides what is printed. *)
Lemma lanczos_round_tol (this : PairDPDJung F) (norm tol tol' : F) (k : Z)
  (st st' : Krylov F) :
  same_numbers st st' ->
  together same_numbers (lanczos_round this norm tol k st)
    (lanczos_round this norm tol' k st').
Proof.
  destruct st as [Vn rk al be xs pr na], st' as [Vn' rk' al' be' xs' pr' na'].
  unfold same_numbers. cbn [kr_Vn kr_rk kr_alpha kr_beta kr_xk_save kr_napply].
  intros (<- & <- & <- & <- & <- & <-).
  unfold lanczos_round, lanczos_solve, lanczos_extend, orthogonalized.
  cbn [kr_Vn kr_rk kr_alpha kr_beta kr_xk_save kr_napply kr_printed].
  destruct (2 <=? k)%Z.
  - unfold Hk. cbn [kr_alpha kr_beta].
    destruct (inverse k _) as [f_Hk |]; [| exact I].
    unfold xk_of. cbn [kr_Vn].
    destruct (k =? 2)%Z; unfold together, same_numbers;
      cbn [kr_Vn kr_rk kr_alpha kr_beta kr_xk_save kr_napply];
      repeat split; reflexivity.
  - unfold together, same_numbers.
    cbn [kr_Vn kr_rk kr_alpha kr_beta kr_xk_save kr_napply].
    repeat split; reflexivity.
Qed.

Lemma lanczos_init_before_round (this : PairDPDJung F) (input : Z -> F) :
  before_round (snd (lanczos_init this input)) 2 (fst (lanczos_init this input)).
Proof.
  unfold lanczos_init, before_round.
  cbn [fst snd kr_napply kr_Vn kr_printed length set_col set_nth Z.to_nat].
  split; [reflexivity | split; [reflexivity | split]].
  - intros k [].
  - intros Hlt. exfalso. revert Hlt. apply Z.lt_irrefl.
Qed.

(** The one way to fail. *)
Lemma lanczos_solver_fails (this : PairDPDJung F) (tol : F) (input output test_out : Z -> F) :
  lanczos_solver this tol input output test_out = None ->
  exists k M, (2 <= k <= mLanczos)%Z /\ inverse k M = None.
Proof.
  unfold lanczos_solver.
  destruct (lanczos_init this input) as [st0 norm].
  destruct (for_loop_opt _ 2 _ st0) as [st |] eqn:Hrun; [discriminate |].
  intros _. apply for_loop_opt_fails in Hrun.
  destruct Hrun as (k & t & Hkr & Hfail).
  unfold lanczos_round, lanczos_solve in Hfail.
  destruct (Z.leb_spec 2 k); [| discriminate].
  destruct (inverse k (Hk (lanczos_extend this k t))) eqn:Hinv.
  - destruct (k =? 2)%Z; discriminate.
  - exists k, (Hk (lanczos_extend this k t)).
    split; [unfold mLanczos in *; lia | exact Hinv].
Qed.

(** The solver returns when no inversion fails. *)
Lemma lanczos_solver_returns (this : PairDPDJung F) (tol : F)
  (input output test_out : Z -> F) :
  (forall k M, inverse k M <> None) ->
  lanczos_solver this tol input output test_out <> None.
Proof.
  intros Hinv Hnone. apply lanczos_solver_fails in Hnone.
  destruct Hnone as (k & M & _ & HM). exact (Hinv k M HM).
Qed.

(** What a run that returns has done. *)
Lemma lanczos_solver_budget (this : PairDPDJung F) (tol : F)
  (input output test_out : Z -> F) (r : Solved F) :
  lanczos_solver this tol input output test_out = Some r ->
  kr_napply (sv_state r) = 10%nat /\
  length (kr_Vn (sv_state r)) = 10%nat /\
  sv_napply r = 11%nat /\
  (exists f_Hk,
     inverse mLanczos (Hk (sv_state r)) = Some f_Hk /\
     forall i, (0 <= i < atom_nlocal (atom this) * 3)%Z ->
               sv_output r i = xk_of mLanczos (sv_state r) (sv_norm r) f_Hk i) /\
  (forall k, In k (kr_printed (sv_state r)) -> (3 <= k <= mLanczos)%Z).
Proof.
  unfold lanczos_solver.
  pose proof (lanczos_init_before_round this input) as H0.
  destruct (lanczos_init this input) as [st0 norm]. cbn [fst snd] in H0.
  intros Hr.
  destruct (for_loop_opt _ 2 _ st0) as [st |] eqn:Hrun; [| discriminate].
  injection Hr as <-. cbn [sv_state sv_napply sv_output sv_norm].
  apply (for_loop_opt_inv (before_round norm)) in Hrun.
  - destruct Hrun as (Hn & Hlen & Hpr & Hx).
    destruct Hx as (f_Hk & Hinv & Hxk); [unfold mLanczos; lia |].
    change (2 + Z.of_nat (Z.to_nat (mLanczos + 1 - 2)) - 1)%Z with mLanczos in *.
    change (Z.to_nat mLanczos) with 10%nat in *.
    split; [exact Hn | split; [exact Hlen | split; [| split]]].
    + rewrite Hn. reflexivity.
    + exists f_Hk. split; [exact Hinv |]. intros i Hi. unfold copy_prefix.
      destruct (Z.leb_spec 0 i); destruct (Z.ltb_spec i (atom_nlocal (atom this) * 3));
        try lia. cbn [andb]. rewrite Hxk. reflexivity.
    + exact Hpr.
  - exact H0.
  - intros k t t' Hkr. apply lanczos_round_keeps. lia.
Qed.

(** Two tolerances: the runs fail together or return the same [output]. *)
Lemma lanczos_solver_tol (this : PairDPDJung F) (tol tol' : F)
  (input output test_out : Z -> F) :
  option_map sv_output (lanczos_solver this tol input output test_out)
  = option_map sv_output (lanczos_solver this tol' input output test_out).
Proof.
  unfold lanczos_solver.
  destruct (lanczos_init this input) as [st0 norm].
  assert (Hs : together same_numbers
                 (for_loop_opt (Z.to_nat (mLanczos + 1 - 2)) 2
                    (lanczos_round this norm tol) st0)
                 (for_loop_opt (Z.to_nat (mLanczos + 1 - 2)) 2
                    (lanczos_round this norm tol') st0)).
  { apply for_loop_opt_rel; [repeat split |]. intros i s' t'. apply lanczos_round_tol. }
  unfold together in Hs.
  destruct (for_loop_opt _ 2 (lanczos_round this norm tol) st0) as [st |];
    destruct (for_loop_opt _ 2 (lanczos_round this norm tol') st0) as [st' |];
    cbn [option_map]; try contradiction; [| reflexivity].
  destruct Hs as (_ & _ & _ & _ & Hxs & _).
  cbn [sv_output]. rewrite Hxs. reflexivity.
Qed.

(** The rounds of a run that returns, one loop state after the other. *)
Lemma lanczos_solver_rounds (this : PairDPDJung F) (tol : F)
  (input output test_out : Z -> F) (r : Solved F) :
  lanczos_solver this tol input output test_out = Some r ->
  (exists sts : Z -> Krylov F,
     sts 1%Z = fst (lanczos_init this input) /\
     kr_rk (sts 1%Z)
     = compute_step this
         (normalized (atom_nlocal (atom this) * 3)
            (copy_prefix (atom_nlocal (atom this) * 3) input zeros)) zeros /\
     (forall k, (2 <= k <= mLanczos)%Z ->
                full_round this (sv_norm r) tol k (sts (k - 1)%Z) (sts k)) /\
     sts mLanczos = sv_state r) /\
  sv_test_out r = compute_step this (sv_output r) test_out.
Proof.
  unfold lanczos_solver.
  destruct (lanczos_init this input) as [st0 norm] eqn:Hinit. cbn [fst].
  destruct (for_loop_opt _ 2 _ st0) as [st |] eqn:Hrun; [| discriminate].
  intros Hr. injection Hr as <-. cbn [sv_state sv_norm sv_output sv_test_out].
  split; [| reflexivity].
  apply for_loop_opt_trace in Hrun. destruct Hrun as (sts & H0 & Hn & Hstep).
  exists (fun k => sts (k + 1)%Z).
  split; [exact H0 | split; [| split]].
  - change (1 + 1)%Z with 2%Z. rewrite H0.
    unfold lanczos_init in Hinit. injection Hinit as <- _. reflexivity.
  - intros k Hk. unfold mLanczos in Hk.
    replace (k - 1 + 1)%Z with k by lia.
    apply lanczos_round_full; [lia |].
    apply Hstep. unfold mLanczos. lia.
  - rewrite <- Hn. reflexivity.
Qed.

(** C5.  [compute_inverse] has one way to fail, a failed inversion of the
    small matrix in one of the rounds 2 to [mLanczos = 10], and returns whenever
    no inversion fails.  When it returns, the loop has run all its rounds
    whatever the convergence test found.  There are loop states [sts 1], ...,
    [sts 10], the state ahead of the loop and the states after the rounds 2 to
    10, such that: in [sts 1] the residual is [compute_step] applied to the
    normalised right-hand side from a zeroed buffer; every round [k] from 2 to
    10 is a full round, which applies [compute_step] to the new column, inverts
    the small matrix, replaces [xk_save] and prints [k] exactly when [k >= 3]
    and the difference to the round before is below [0.00001]; and [sts 10] is
    the state in which the loop ends.  That makes the ten applications of the
    iteration ([kr_napply]); the closing test of lines 641-645 applies
    [compute_step] once more, to [output] ([sv_napply]).  The basis has 10
    columns, the first [3 nlocal] cells of [output] hold the vector [xk] of
    round 10, and with any other tolerance in the place of [0.00001] the solver
    fails or returns alike, with the same [output]. *)
Theorem compute_inverse_runs_full_budget (this : PairDPDJung F)
  (input output test_out : Z -> F) :
  (compute_inverse this input output test_out = None ->
   exists k M, (2 <= k <= mLanczos)%Z /\ inverse k M = None)
  /\ ((forall k M, inverse k M <> None) ->
      compute_inverse this input output test_out <> None)
  /\ (forall r, compute_inverse this input output test_out = Some r ->
       (exists sts : Z -> Krylov F,
          sts 1%Z = fst (lanczos_init this input) /\
          kr_rk (sts 1%Z)
          = compute_step this
              (normalized (atom_nlocal (atom this) * 3)
                 (copy_prefix (atom_nlocal (atom this) * 3) input zeros)) zeros /\
          (forall k, (2 <= k <= mLanczos)%Z ->
                     full_round this (sv_norm r) lit_tolLanczos k (sts (k - 1)%Z) (sts k)) /\
          sts mLanczos = sv_state r) /\
       sv_test_out r = compute_step this (sv_output r) test_out /\
       kr_napply (sv_state r) = 10%nat /\
       length (kr_Vn (sv_state r)) = 10%nat /\
       sv_napply r = 11%nat /\
       (exists f_Hk,
          inverse mLanczos (Hk (sv_state r)) = Some f_Hk /\
          forall i, (0 <= i < atom_nlocal (atom this) * 3)%Z ->
                    sv_output r i = xk_of mLanczos (sv_state r) (sv_norm r) f_Hk i) /\
       (forall k, In k (kr_printed (sv_state r)) -> (3 <= k <= mLanczos)%Z))
  /\ (forall tol,
       option_map sv_output (lanczos_solver this tol input output test_out)
       = option_map sv_output (compute_inverse this input output test_out)).
Proof.
  unfold compute_inverse. split; [| split; [| split]].
  - apply lanczos_solver_fails.
  - apply lanczos_solver_returns.
  - intros r Hr.
    destruct (lanczos_solver_rounds this _ input output test_out r Hr) as [Hsts Htest].
    split; [exact Hsts | split; [exact Htest |]].
    exact (lanczos_solver_budget this _ input output test_out r Hr).
  - intros tol. apply lanczos_solver_tol.
Qed.

End LanczosBudget.

(** With Gauss-Jordan elimination in the place of Eigen's inverse no inversion
    fails, and the solver returns. *)
Lemma compute_inverse_returns_with_gauss_jordan {F : Type} {DF : Double F}
  (this : PairDPDJung F) (input output test_out : Z -> F) :
  @compute_inverse F DF gauss_jordan this input output test_out <> None.
Proof.
  apply (@lanczos_solver_returns F DF gauss_jordan).
  intros k M. discriminate.
Qed.

(** C3 fails on the code.  [duo] with both atoms owned and the right-hand side
    [e0], on IEEE doubles (every operation of this run is exact): in round 2
    the orthogonalised residual is [(0,0,0,-0.125,0,0)], the new column [v2] is
    [(0,0,0,-1,0,0)] and the operator applied to [v2] is
    [(0.125,0,0,-1.125,0,0)], so that C3 has [alpha[2] = 1.125].  The buffer
    [rk] handed to [compute_step] still holds the residual: [rk] comes back as
    [(0.125,0,0,-1.25,0,0)] and [alpha[2]] is [1.25]. *)
Lemma lanczos_alpha_keeps_residual :
  let this := duo 0.5%float 1 2 in
  let st1 := fst (lanczos_init this e0) in
  let st2 := lanczos_extend this 2 st1 in
  let v2 := col (kr_Vn st2) 1 in
  map (orthogonalized 2 st1) [0; 1; 2; 3; 4; 5] = [0; 0; 0; -0.125; 0; 0]%float /\
  map v2 [0; 1; 2; 3; 4; 5] = [0; 0; 0; -1; 0; 0]%float /\
  map (compute_step this v2 zeros) [0; 1; 2; 3; 4; 5] = [0.125; 0; 0; -1.125; 0; 0]%float /\
  vdot 6 v2 (compute_step this v2 zeros) = 1.125%float /\
  map (kr_rk st2) [0; 1; 2; 3; 4; 5] = [0.125; 0; 0; -1.25; 0; 0]%float /\
  kr_alpha st2 2 = 1.25%float.
Proof. vm_compute. repeat split; reflexivity. Qed.

(** ** The restart file (C8) *)

(** *** IEEE 754 binary64 and two's complement obey the laws *)

Lemma digits2_pos_bounds (m : positive) :
  2 ^ (Z.pos (digits2_pos m) - 1) <= Z.pos m < 2 ^ Z.pos (digits2_pos m).
Proof.
  induction m as [p IH | p IH |]; cbn [digits2_pos].
  - rewrite Pos2Z.inj_succ.
    replace (Z.succ (Z.pos (digits2_pos p)) - 1) with (Z.succ (Z.pos (digits2_pos p) - 1)) by lia.
    rewrite !Z.pow_succ_r by lia.
    set (a := 2 ^ (Z.pos (digits2_pos p) - 1)) in *.
    set (b := 2 ^ Z.pos (digits2_pos p)) in *. lia.
  - rewrite Pos2Z.inj_succ.
    replace (Z.succ (Z.pos (digits2_pos p)) - 1) with (Z.succ (Z.pos (digits2_pos p) - 1)) by lia.
    rewrite !Z.pow_succ_r by lia.
    set (a := 2 ^ (Z.pos (digits2_pos p) - 1)) in *.
    set (b := 2 ^ Z.pos (digits2_pos p)) in *. lia.
  - cbn. lia.
Qed.

Lemma decode_fields (sg : bool) (ex man : Z) :
  0 <= ex < 2048 -> 0 <= man < 2 ^ 52 ->
  let b := (if sg then 2 ^ 63 else 0) + (ex * 2 ^ 52 + man) in
  (2 ^ 63 <=? b) = sg /\ (b mod 2 ^ 63) / 2 ^ 52 = ex /\ (b mod 2 ^ 63) mod 2 ^ 52 = man.
Proof.
  change (2 ^ 52) with 4503599627370496. change (2 ^ 63) with 9223372036854775808.
  intros Hex Hman b. subst b.
  split; [| split].
  - destruct sg; [apply Z.leb_le | apply Z.leb_gt]; lia.
  - destruct sg; Z.div_mod_to_equations; lia.
  - destruct sg; Z.div_mod_to_equations; lia.
Qed.

Lemma valid_finite_cases (m : positive) (e : Z) :
  SpecFloat.bounded prec emax m e = true ->
  (Z.pos m < 2 ^ 52 /\ e = -1074) \/ (2 ^ 52 <= Z.pos m < 2 ^ 53 /\ -1074 <= e <= 971).
Proof.
  unfold SpecFloat.bounded, SpecFloat.canonical_mantissa, SpecFloat.fexp, SpecFloat.emin.
  intros Hv.
  apply andb_prop in Hv. destruct Hv as [Hc He].
  apply Z.eqb_eq in Hc. apply Z.leb_le in He.
  change prec with 53 in *. change emax with 1024 in *.
  pose proof (digits2_pos_bounds m) as Hd.
  set (d := Z.pos (digits2_pos m)) in *.
  assert (Hdpos : 0 < d) by (unfold d; lia).
  destruct (Z.ltb_spec (Z.pos m) (2 ^ 52)) as [Hsub | Hnorm].
  - left. split; [exact Hsub |].
    assert (Hd52 : d - 1 < 52) by (apply (Z.pow_lt_mono_r_iff 2); lia).
    lia.
  - right.
    assert (Hd53 : 52 < d) by (apply (Z.pow_lt_mono_r_iff 2); lia).
    assert (Hd' : d = 53) by lia.
    rewrite Hd' in *. lia.
Qed.

Lemma SF_of_bits_of_SF (s : spec_float) :
  valid_binary s = true -> SF_of_bits (bits_of_SF s) = s.
Proof.
  destruct s as [sg | sg | | sg m e]; intros Hv;
    [destruct sg; reflexivity | destruct sg; reflexivity | reflexivity |].
  cbn [SpecFloat.valid_binary] in Hv.
  unfold bits_of_SF, SF_of_bits.
  destruct (valid_finite_cases m e Hv) as [[Hm ->] | [Hm He]].
  - destruct (Z.ltb_spec (Z.pos m) (2 ^ 52)); [| lia].
    destruct (decode_fields sg 0 (Z.pos m)) as (Hs & Hex & Hman); [lia | lia |].
    cbn zeta in Hs, Hex, Hman.
    replace (0 * 2 ^ 52 + Z.pos m) with (Z.pos m) in * by lia.
    rewrite Hs, Hex, Hman. reflexivity.
  - destruct (Z.ltb_spec (Z.pos m) (2 ^ 52)); [lia |].
    destruct (decode_fields sg (e + 1075) (Z.pos m - 2 ^ 52)) as (Hs & Hex & Hman).
    + lia.
    + change (2 ^ 53) with (2 * 2 ^ 52) in Hm. lia.
    + cbn zeta in Hs, Hex, Hman. rewrite Hs, Hex, Hman.
      destruct (Z.eqb_spec (e + 1075) 0); [lia |].
      destruct (Z.eqb_spec (e + 1075) 2047); [lia |].
      replace (Z.pos m - 2 ^ 52 + 2 ^ 52) with (Z.pos m) by lia.
      replace (e + 1075 - 1075) with e by lia.
      reflexivity.
Qed.

Lemma bits_of_SF_range (s : spec_float) :
  valid_binary s = true -> 0 <= bits_of_SF s < 2 ^ 64.
Proof.
  destruct s as [sg | sg | | sg m e]; intros Hv;
    [destruct sg; cbn; lia | destruct sg; cbn; lia | cbn; lia |].
  cbn [SpecFloat.valid_binary] in Hv. unfold bits_of_SF.
  change (2 ^ 64) with 18446744073709551616. change (2 ^ 63) with 9223372036854775808.
  destruct (valid_finite_cases m e Hv) as [[Hm ->] | [Hm He]];
    change (2 ^ 53) with 9007199254740992 in *;
    change (2 ^ 52) with 4503599627370496 in *;
    destruct (Z.ltb_spec (Z.pos m) 4503599627370496); destruct sg; lia.
Qed.

Lemma x86_64_ObjReprLaws : ObjReprLaws x86_64_ObjRepr.
Proof.
  split; cbn [int_bytes bytes_int double_bytes bytes_double sizeof_int sizeof_double
                x86_64_ObjRepr].
  - intros z. apply length_le_split.
  - intros d. apply length_le_split.
  - intros z Hz. rewrite le_combine_split.
    change (2 ^ (Z.of_nat 4 * 8)) with 4294967296.
    change (2 ^ 31) with 2147483648 in *. change (2 ^ 32) with 4294967296.
    destruct (Z.ltb_spec (z mod 4294967296) 2147483648);
      Z.div_mod_to_equations; lia.
  - intros d. rewrite le_combine_split.
    rewrite Z.mod_small by (apply bits_of_SF_range, Prim2SF_valid).
    rewrite SF_of_bits_of_SF by apply Prim2SF_valid.
    apply SF2Prim_Prim2SF.
Qed.

(** *** The round trip *)

(** A loop with an invariant that follows the counter. *)
Lemma for_loop_inv {S : Type} (P : Z -> S -> Prop) (body : Z -> S -> S) :
  forall n lo s,
    P lo s ->
    (forall i t, lo <= i < lo + Z.of_nat n -> P i t -> P (i + 1) (body i t)) ->
    P (lo + Z.of_nat n) (for_loop n lo body s).
Proof.
  induction n as [| n IH]; intros lo s Hs Hb; cbn [for_loop].
  - now replace (lo + Z.of_nat 0) with lo by lia.
  - replace (lo + Z.of_nat (Datatypes.S n)) with (lo + 1 + Z.of_nat n) by lia.
    apply IH.
    + apply Hb; [lia | exact Hs].
    + intros i t Hi. apply Hb. lia.
Qed.

Section RestartRoundTrip.
Context {F : Type} {DF : Double F} {OR : ObjRepr F} {ORL : ObjReprLaws OR}.

Lemma fread_written (bs rest : list byte) :
  fread (length bs) (bs ++ rest) = (Some bs, rest).
Proof.
  unfold fread. rewrite length_app.
  destruct (Nat.leb_spec (length bs) (length bs + length rest)); [| lia].
  rewrite firstn_app, Nat.sub_diag, firstn_all, firstn_O, app_nil_r.
  rewrite skipn_app, Nat.sub_diag, skipn_all. reflexivity.
Qed.

Lemma fread_int_written (old z : Z) (rest : list byte) :
  - 2 ^ 31 <= z < 2 ^ 31 ->
  fread_int old (int_bytes z ++ rest) = (z, rest).
Proof.
  intros Hz. unfold fread_int.
  rewrite <- (int_bytes_length z), fread_written, bytes_int_bytes by exact Hz.
  reflexivity.
Qed.

Lemma fread_double_written (old d : F) (rest : list byte) :
  fread_double old (double_bytes d ++ rest) = (d, rest).
Proof.
  unfold fread_double.
  rewrite <- (double_bytes_length d), fread_written, bytes_double_bytes.
  reflexivity.
Qed.

(** *** Writing *)

Lemma for_loop_appends (body : Z -> list byte -> list byte) (blk : Z -> list byte) :
  forall n lo fp,
    (forall i fp', lo <= i < lo + Z.of_nat n -> body i fp' = fp' ++ blk i) ->
    for_loop n lo body fp = fp ++ blocks_from n lo blk.
Proof.
  induction n as [| n IH]; intros lo fp H; cbn [for_loop blocks_from].
  - now rewrite app_nil_r.
  - rewrite (H lo fp) by lia. rewrite IH by (intros i fp' Hi; apply H; lia).
    now rewrite app_assoc.
Qed.

Lemma write_pair_appends (this : PairDPDJung F) (i j : Z) (fp : list byte) :
  write_pair this i j fp = fp ++ pair_block this i j.
Proof.
  unfold write_pair, pair_block, fwrite.
  destruct (truthy (setflag this i j)); rewrite ?app_nil_r, <- ?app_assoc; reflexivity.
Qed.

Lemma write_restart_layout (this : PairDPDJung F) (fp : list byte) :
  write_restart this fp = fp ++ restart_image this.
Proof.
  unfold write_restart, restart_image, for_range.
  rewrite (for_loop_appends _ (row_block this)).
  - unfold write_restart_settings, settings_block, fwrite. now rewrite <- !app_assoc.
  - intros i fp' _. unfold row_block. apply for_loop_appends.
    intros j fp'' _. apply write_pair_appends.
Qed.

(** *** Reading *)

Lemma before_pair_next (n i j a b : Z) :
  1 <= i <= j -> j <= n ->
  before_pair n i (j + 1) a b = before_pair n i j a b || ((a =? i) && (b =? j)).
Proof.
  intros Hi Hj. unfold before_pair.
  destruct (Z.leb_spec 1 a); destruct (Z.leb_spec a b); destruct (Z.leb_spec b n);
    destruct (Z.ltb_spec a i); destruct (Z.eqb_spec a i);
    destruct (Z.ltb_spec b (j + 1)); destruct (Z.ltb_spec b j); destruct (Z.eqb_spec b j);
    cbn; try reflexivity; lia.
Qed.

Lemma before_pair_here (n i j : Z) : before_pair n i j i j = false.
Proof.
  unfold before_pair.
  destruct (Z.ltb_spec i i); [lia |]. destruct (Z.ltb_spec j j); [lia |].
  now rewrite !andb_false_r.
Qed.

Lemma before_pair_row_end (n i a b : Z) :
  before_pair n i (n + 1) a b = before_pair n (i + 1) (i + 1) a b.
Proof.
  unfold before_pair.
  destruct (Z.leb_spec 1 a); destruct (Z.leb_spec a b); destruct (Z.leb_spec b n);
    destruct (Z.ltb_spec a i); destruct (Z.eqb_spec a i);
    destruct (Z.ltb_spec b (n + 1)); destruct (Z.ltb_spec a (i + 1));
    destruct (Z.eqb_spec a (i + 1)); destruct (Z.ltb_spec b (i + 1));
    cbn; try reflexivity; lia.
Qed.

Lemma read_pair_block (this start that : PairDPDJung F) (n i j : Z) (rest : list byte) :
  1 <= i <= j -> j <= n ->
  - 2 ^ 31 <= setflag this i j < 2 ^ 31 ->
  read_upto this start that n i j ->
  exists that',
    read_pair i j (that, pair_block this i j ++ rest) = (that', rest) /\
    read_upto this start that' n i (j + 1).
Proof.
  intros Hi Hj Hint (Hat & Ht & Hcg & Hsd & Hmf & Htab).
  unfold read_pair, pair_block. rewrite <- app_assoc, (fread_int_written _ _ _ Hint).
  cbn [setflag with_tables]. rewrite upd2_same.
  destruct (truthy (setflag this i j)) eqn:Hset.
  - rewrite <- !app_assoc, !fread_double_written.
    eexists. split; [reflexivity |].
    unfold read_upto. cbn [atom temperature cut_global seed mix_flag setflag a0 gamma cut
                            with_tables].
    repeat (split; [assumption |]).
    intros a b. rewrite before_pair_next by assumption.
    destruct (Htab a b) as (H1 & H2 & H3 & H4).
    unfold upd2.
    destruct (Z.eqb_spec a i) as [-> | ]; destruct (Z.eqb_spec b j) as [-> | ];
      cbn [andb orb]; rewrite ?orb_false_r, ?orb_true_r, ?Hset; cbn [andb];
      auto.
  - cbn [app].
    eexists. split; [reflexivity |].
    unfold read_upto. cbn [atom temperature cut_global seed mix_flag setflag a0 gamma cut
                            with_tables].
    repeat (split; [assumption |]).
    intros a b. rewrite before_pair_next by assumption.
    destruct (Htab a b) as (H1 & H2 & H3 & H4).
    unfold upd2.
    destruct (Z.eqb_spec a i) as [-> | ]; destruct (Z.eqb_spec b j) as [-> | ];
      cbn [andb orb]; rewrite ?orb_false_r, ?orb_true_r; auto.
    rewrite Hset. cbn [andb]. rewrite before_pair_here in H2, H3, H4. auto.
Qed.

Lemma read_upto_ext (this start that : PairDPDJung F) (n i j i' j' : Z) :
  (forall a b, before_pair n i j a b = before_pair n i' j' a b) ->
  read_upto this start that n i j -> read_upto this start that n i' j'.
Proof.
  intros Heq (Hat & Ht & Hcg & Hsd & Hmf & Htab).
  unfold read_upto. repeat (split; [assumption |]).
  intros a b. rewrite <- Heq. apply Htab.
Qed.

Lemma read_row (this start : PairDPDJung F) (n i : Z) (rest : list byte) :
  (forall a b, - 2 ^ 31 <= setflag this a b < 2 ^ 31) ->
  forall m j that,
    1 <= i <= j -> j <= n + 1 -> m = Z.to_nat (n + 1 - j) ->
    read_upto this start that n i j ->
    exists that',
      for_loop m j (read_pair i) (that, blocks_from m j (pair_block this i) ++ rest)
      = (that', rest) /\
      read_upto this start that' n i (n + 1).
Proof.
  intros Hint. induction m as [| m IH]; intros j that Hi Hj Hm Hinv.
  - cbn [for_loop blocks_from app]. exists that. split; [reflexivity |].
    replace (n + 1) with j by lia. exact Hinv.
  - cbn [for_loop blocks_from]. rewrite <- app_assoc.
    destruct (read_pair_block this start that n i j
                (blocks_from m (j + 1) (pair_block this i) ++ rest))
      as (that1 & Hread & Hinv1); [lia | lia | apply Hint | exact Hinv |].
    rewrite Hread. apply IH; [lia | lia | lia | exact Hinv1].
Qed.

Lemma before_pair_past (n i a b : Z) :
  n + 1 <= i -> before_pair n i i a b = before_pair n (n + 1) (n + 1) a b.
Proof.
  intros Hi. unfold before_pair.
  destruct (Z.leb_spec 1 a); destruct (Z.leb_spec a b); destruct (Z.leb_spec b n);
    destruct (Z.ltb_spec a i); destruct (Z.eqb_spec a i); destruct (Z.ltb_spec b i);
    destruct (Z.ltb_spec a (n + 1)); destruct (Z.eqb_spec a (n + 1));
    destruct (Z.ltb_spec b (n + 1)); cbn; try reflexivity; lia.
Qed.

Lemma read_table (this start : PairDPDJung F) (n : Z) (rest : list byte) :
  n = atom_ntypes (atom this) ->
  (forall a b, - 2 ^ 31 <= setflag this a b < 2 ^ 31) ->
  forall m i that,
    1 <= i -> m = Z.to_nat (n + 1 - i) ->
    read_upto this start that n i i ->
    exists that',
      for_loop m i (fun i s => for_range i (n + 1) (read_pair i) s)
        (that, blocks_from m i (row_block this) ++ rest)
      = (that', rest) /\
      read_upto this start that' n (n + 1) (n + 1).
Proof.
  intros Hn Hint. unfold for_range.
  induction m as [| m IH]; intros i that Hi Hm Hinv.
  - cbn [for_loop blocks_from app]. exists that. split; [reflexivity |].
    apply (read_upto_ext this start that n i i); [| exact Hinv].
    intros a b. apply before_pair_past. lia.
  - cbn [for_loop blocks_from]. rewrite <- app_assoc.
    unfold row_block at 1. rewrite <- Hn.
    destruct (read_row this start n i (blocks_from m (i + 1) (row_block this) ++ rest)
                Hint (Z.to_nat (n + 1 - i)) i that)
      as (that1 & Hread & Hinv1); [lia | lia | reflexivity | exact Hinv |].
    rewrite Hread. apply IH; [lia | lia |].
    apply (read_upto_ext this start that1 n i (n + 1)); [| exact Hinv1].
    intros a b. apply before_pair_row_end.
Qed.

Lemma before_pair_start (n a b : Z) : before_pair n 1 1 a b = false.
Proof.
  unfold before_pair.
  destruct (Z.leb_spec 1 a); destruct (Z.leb_spec a b); destruct (Z.leb_spec b n);
    destruct (Z.ltb_spec a 1); destruct (Z.eqb_spec a 1); destruct (Z.ltb_spec b 1);
    cbn; try reflexivity; lia.
Qed.

Lemma before_pair_end (n a b : Z) :
  1 <= a <= b -> b <= n -> before_pair n (n + 1) (n + 1) a b = true.
Proof.
  intros Ha Hb. unfold before_pair.
  destruct (Z.leb_spec 1 a); destruct (Z.leb_spec a b); destruct (Z.leb_spec b n);
    destruct (Z.ltb_spec a (n + 1)); cbn; try reflexivity; lia.
Qed.

(** C8.  On a platform whose object representations obey [ObjReprLaws], for a
    table whose flags, seed and mixing flag are [int]s: [write_restart] writes
    the settings block and then, for each unordered type pair in the order of
    the loops, the flag followed, only when the flag is set, by the conservative
    coefficient, the friction coefficient and the cutoff; and [read_restart],
    run on that file followed by any bytes [tail] by a process of the same
    number of types, consumes the written bytes and no other, restores the
    settings, gives every pair the flag that was written (so an unset pair
    reads unset, and its coefficient cells are the ones [allocate] handed
    out, nothing having been read into them) and gives a set pair the three
    doubles that were written, as the same values. *)
Theorem restart_round_trip (this that : PairDPDJung F) (heap : Fresh F) (tail : list byte) :
  atom_ntypes (atom that) = atom_ntypes (atom this) ->
  (forall i j, - 2 ^ 31 <= setflag this i j < 2 ^ 31) ->
  - 2 ^ 31 <= seed this < 2 ^ 31 ->
  - 2 ^ 31 <= mix_flag this < 2 ^ 31 ->
  write_restart this [] = restart_image this /\
  exists that',
    read_restart that heap (write_restart this [] ++ tail) = (that', tail) /\
    temperature that' = temperature this /\ cut_global that' = cut_global this /\
    seed that' = seed this /\ mix_flag that' = mix_flag this /\
    forall i j, 1 <= i <= j -> j <= atom_ntypes (atom this) ->
      setflag that' i j = setflag this i j /\
      (setflag this i j <> 0 ->
       a0 that' i j = a0 this i j /\ gamma that' i j = gamma this i j /\
       cut that' i j = cut this i j) /\
      (setflag this i j = 0 ->
       a0 that' i j = fresh_a0 heap i j /\ cut that' i j = fresh_cut heap i j).
Proof.
  intros Hn Hint Hseed Hmix.
  rewrite (write_restart_layout this []). cbn [app]. split; [reflexivity |].
  unfold read_restart, restart_image, settings_block, read_restart_settings.
  rewrite <- !app_assoc.
  rewrite !fread_double_written, !(fread_int_written _ _ _ Hseed),
    !(fread_int_written _ _ _ Hmix).
  set (that1 := allocate _ heap).
  assert (Hn1 : atom_ntypes (atom that1) = atom_ntypes (atom this)) by exact Hn.
  rewrite Hn1. unfold for_range.
  destruct (read_table this that1 (atom_ntypes (atom this)) tail eq_refl Hint
              (Z.to_nat (atom_ntypes (atom this) + 1 - 1)) 1 that1)
    as (that' & Hread & Hat & Ht & Hcg & Hsd & Hmf & Htab).
  - lia.
  - reflexivity.
  - unfold read_upto. repeat (split; [reflexivity |]).
    intros a b. rewrite before_pair_start. cbn [andb]. auto.
  - exists that'. split; [exact Hread |].
    split; [exact Ht | split; [exact Hcg | split; [exact Hsd | split; [exact Hmf |]]]].
    intros i j Hi Hj. destruct (Htab i j) as (H1 & H2 & H3 & H4).
    rewrite before_pair_end in H1, H2, H3, H4 by assumption. cbn [andb] in *.
    split; [exact H1 | split].
    + intros Hset. apply Z.eqb_neq in Hset. unfold truthy in *.
      rewrite Hset in *. auto.
    + intros Hset. unfold truthy in *. rewrite Hset in *. cbn in H2, H4. auto.
Qed.

End RestartRoundTrip.

(** A table of two types with the pairs [(1,1)] and [(2,2)] set and the pair
    [(1,2)] unset, on IEEE doubles and the representations of x86-64, read back
    by a process whose tables hold other values; one byte follows the file. *)
Lemma restart_round_trip_witness :
  let this := duo 0.5%float 1 2 in
  let that := duo 2%float 0 1 in
  write_restart this [] = restart_image this /\
  exists that',
    read_restart that stale (write_restart this [] ++ [Byte.x2a]) = (that', [Byte.x2a]) /\
    temperature that' = temperature this /\ cut_global that' = cut_global this /\
    seed that' = seed this /\ mix_flag that' = mix_flag this /\
    forall i j, 1 <= i <= j -> j <= atom_ntypes (atom this) ->
      setflag that' i j = setflag this i j /\
      (setflag this i j <> 0 ->
       a0 that' i j = a0 this i j /\ gamma that' i j = gamma this i j /\
       cut that' i j = cut this i j) /\
      (setflag this i j = 0 ->
       a0 that' i j = fresh_a0 stale i j /\ cut that' i j = fresh_cut stale i j).
Proof.
  refine (@restart_round_trip float float_Double x86_64_ObjRepr x86_64_ObjReprLaws
            (duo 0.5%float 1 2) (duo 2%float 0 1) stale [Byte.x2a] _ _ _ _).
  - reflexivity.
  - intros i j. cbn. destruct (_ && _); lia.
  - cbn. lia.
  - cbn. lia.
Defined.

(** The same file, byte by byte: 24 bytes of settings, 28 bytes for each of
    the two set pairs and 4 bytes for the unset pair; read back, the unset pair
    has flag 0 and the cells [allocate] handed out. *)
Lemma restart_file_of_duo :
  let this := duo 0.5%float 1 2 in
  let that' := fst (read_restart (duo 2%float 0 1) stale (write_restart this [])) in
  length (write_restart this []) = 84%nat /\
  map (fun ij => setflag that' (fst ij) (snd ij)) [(1, 1); (1, 2); (2, 2)] = [1; 0; 1] /\
  map (fun ij => a0 that' (fst ij) (snd ij)) [(1, 1); (1, 2); (2, 2)] = [1; 2; 1]%float /\
  snd (read_restart (duo 2%float 0 1) stale (write_restart this [])) = [].
Proof. vm_compute. repeat split; reflexivity. Qed.

(** ** Further properties of the code *)

Section Frame.
Context {F : Type} {DF : Double F}.
Local Open Scope dbl_scope.

Lemma scatter_other (a : Z -> F) (itag jtag : Z) (both : bool) (dx dy dz : F) (k : Z) :
  (forall c, (0 <= c < 3)%Z -> k <> (3 * itag + c)%Z) ->
  (forall c, (0 <= c < 3)%Z -> k <> (3 * jtag + c)%Z) ->
  scatter a itag jtag both dx dy dz k = a k.
Proof.
  intros Hi Hj.
  pose proof (Hi 0%Z ltac:(lia)). pose proof (Hi 1%Z ltac:(lia)).
  pose proof (Hi 2%Z ltac:(lia)). pose proof (Hj 0%Z ltac:(lia)).
  pose proof (Hj 1%Z ltac:(lia)). pose proof (Hj 2%Z ltac:(lia)).
  unfold scatter. destruct both; cells; reflexivity.
Qed.

(** X3.  In every arithmetic, IEEE doubles included: a cell of the output buffer
    that is not one of the three entries of a listed atom or of one of its
    neighbors comes back from [compute_step] as the caller left it. *)
Lemma compute_step_frame (this : PairDPDJung F) (input output : Z -> F) (k : Z) :
  (forall ii c,
     (0 <= ii < list_inum (nlist this))%Z -> (0 <= c < 3)%Z ->
     k <> (3 * (atom_tag (atom this) (list_ilist (nlist this) ii) - 1) + c)%Z) ->
  (forall ii jj c,
     (0 <= ii < list_inum (nlist this))%Z ->
     (0 <= jj < list_numneigh (nlist this) (list_ilist (nlist this) ii))%Z ->
     (0 <= c < 3)%Z ->
     k <> (3 * neighbor_tag this (list_ilist (nlist this) ii) jj + c)%Z) ->
  compute_step this input output k = output k.
Proof.
  intros Hi Hj. unfold compute_step, compute_step_from.
  apply (for_range_ind (fun s => ss_out s k = output k)); [reflexivity |].
  intros ii s Hii Hs. unfold step_atom.
  apply (for_range_ind (fun s => ss_out s k = output k)).
  - cbn [ss_out].
    pose proof (Hi ii 0%Z Hii ltac:(lia)).
    pose proof (Hi ii 1%Z Hii ltac:(lia)).
    pose proof (Hi ii 2%Z Hii ltac:(lia)).
    cells; exact Hs.
  - intros jj t Hjj Ht. unfold step_pair.
    destruct (_ <? cutsq this _ _); [| exact Ht].
    destruct (dsqrt _ <? EPSILON); [exact Ht |].
    cbn [ss_out]. rewrite scatter_other; [exact Ht | |].
    + intros c Hc. now apply Hi.
    + intros c Hc. now apply Hj.
Qed.

End Frame.

(** Cell 7 of a buffer, past the entries of the two atoms of [duo], on IEEE
    doubles. *)
Lemma compute_step_frame_witness :
  compute_step (duo 0.5%float 1 2) e0 (fun _ => 5%float) 7 = 5%float.
Proof.
  refine (compute_step_frame (duo 0.5%float 1 2) e0 (fun _ => 5%float) 7 _ _).
  - intros ii c Hii Hc. cbn -[Z.mul Z.add Z.sub] in *. lia.
  - intros ii jj c Hii Hjj Hc. unfold neighbor_tag. cbn -[Z.mul Z.add Z.sub] in *. lia.
Defined.

(** Entry 4, the y entry of the second atom of [duo], on IEEE doubles. *)
Lemma compute_rhs_entry_witness :
  let this := duo 2%float 1 2 in
  fs_f (compute_rhs this (force_start this)) (3 * 1 + 1)
  = (fs_f (force_start this) (3 * 1 + 1) * (1 * 1 / 2) + 1 * atom_v (atom this) 1 0)%float.
Proof.
  refine (compute_rhs_entry (duo 2%float 1 2) (force_start _) 1 1 _ _); cbn; lia.
Defined.

(** Round 2 of the solver for [duo], on the reals. *)
Lemma lanczos_extend_rk_witness :
  let this := duo (1 / 2)%R 1 2 in
  let st := fst (lanczos_init this e0) in
  kr_rk (lanczos_extend this 2 st) 3
  = (orthogonalized 2 st 3
     + compute_step this (col (kr_Vn (lanczos_extend this 2 st)) (2 - 1)) zeros 3)%R.
Proof.
  exact (@lanczos_extend_rk R R_Double R_ExactRing (duo (1 / 2)%R 1 2) 2
           (fst (lanczos_init (duo (1 / 2)%R 1 2) e0)) 3).
Defined.

(** ** Tables filled by nested loops *)

(** A loop over the columns [j] of row [i] whose round [j] writes the cell
    [(i,j)] when [cond j] holds. *)
Lemma row_cells {S T : Type} (obs : S -> Z -> Z -> T) (body : Z -> S -> S) (i : Z)
  (cond : Z -> bool) (v : Z -> T) :
  (forall j s a b,
     obs (body j s) a b = if (a =? i) && (b =? j) && cond j then v j else obs s a b) ->
  forall n lo s a b,
    obs (for_loop n lo body s) a b
    = if (a =? i) && (lo <=? b) && (b <? lo + Z.of_nat n) && cond b then v b else obs s a b.
Proof.
  intros Hb. induction n as [| n IH]; intros lo s a b; cbn [for_loop].
  - destruct (Z.eqb_spec a i); destruct (Z.leb_spec lo b);
      destruct (Z.ltb_spec b (lo + Z.of_nat 0)); cbn [andb]; try reflexivity; lia.
  - rewrite IH, Hb.
    destruct (Z.eqb_spec a i); destruct (Z.leb_spec (lo + 1) b);
      destruct (Z.ltb_spec b (lo + 1 + Z.of_nat n)); destruct (Z.leb_spec lo b);
      destruct (Z.ltb_spec b (lo + Z.of_nat (Datatypes.S n))); destruct (Z.eqb_spec b lo);
      cbn [andb]; try reflexivity; try lia.
    subst b. reflexivity.
Qed.

(** The nested loops [for i: for j in [clo i, chi i): body i j]. *)
Lemma nest_cells {S T : Type} (obs : S -> Z -> Z -> T) (body : Z -> Z -> S -> S)
  (cond : Z -> Z -> bool) (v : Z -> Z -> T) (clo chi : Z -> Z) :
  (forall i j s a b,
     obs (body i j s) a b
     = if (a =? i) && (b =? j) && cond i j then v i j else obs s a b) ->
  forall n lo s a b,
    obs (for_loop n lo (fun i s => for_range (clo i) (chi i) (body i) s) s) a b
    = if (lo <=? a) && (a <? lo + Z.of_nat n) && (clo a <=? b) && (b <? chi a) && cond a b
      then v a b else obs s a b.
Proof.
  intros Hb. induction n as [| n IH]; intros lo s a b; cbn [for_loop].
  - destruct (Z.leb_spec lo a); destruct (Z.ltb_spec a (lo + Z.of_nat 0));
      cbn [andb]; try reflexivity; lia.
  - rewrite IH. unfold for_range.
    rewrite (row_cells obs (body lo) lo (cond lo) (v lo)) by (intros; apply Hb).
    destruct (Z.leb_spec (lo + 1) a); destruct (Z.ltb_spec a (lo + 1 + Z.of_nat n));
      destruct (Z.leb_spec lo a); destruct (Z.ltb_spec a (lo + Z.of_nat (Datatypes.S n)));
      destruct (Z.eqb_spec a lo); cbn [andb]; try reflexivity; try lia.
    subst a.
    destruct (Z.leb_spec (clo lo) b); destruct (Z.ltb_spec b (chi lo));
      destruct (Z.ltb_spec b (clo lo + Z.of_nat (Z.to_nat (chi lo - clo lo))));
      cbn [andb]; try reflexivity; lia.
Qed.

Lemma range_cells {S T : Type} (obs : S -> Z -> Z -> T) (body : Z -> Z -> S -> S)
  (cond : Z -> Z -> bool) (v : Z -> Z -> T) (clo chi : Z -> Z) :
  (forall i j s a b,
     obs (body i j s) a b
     = if (a =? i) && (b =? j) && cond i j then v i j else obs s a b) ->
  forall lo hi s a b,
    obs (for_range lo hi (fun i s => for_range (clo i) (chi i) (body i) s) s) a b
    = if (lo <=? a) && (a <? hi) && (clo a <=? b) && (b <? chi a) && cond a b
      then v a b else obs s a b.
Proof.
  intros Hb lo hi s a b. unfold for_range at 1.
  rewrite (nest_cells obs body cond v clo chi Hb).
  destruct (Z.leb_spec lo a); destruct (Z.ltb_spec a hi);
    destruct (Z.ltb_spec a (lo + Z.of_nat (Z.to_nat (hi - lo))));
    cbn [andb]; try reflexivity; lia.
Qed.

Lemma upd2_cell {A : Type} (a : Z -> Z -> A) (i j m n : Z) (v : A) :
  upd2 a i j v m n = if (m =? i) && (n =? j) && true then v else a m n.
Proof. unfold upd2. now rewrite andb_true_r. Qed.

Section Allocate.
Context {F : Type} {DF : Double F}.

(** The tables [allocate] leaves behind, cell by cell. *)
Lemma allocate_tables (this : PairDPDJung F) (heap : Fresh F) :
  let n := atom_ntypes (atom this) in
  let this' := allocate this heap in
  allocated this' = 1 /\
  (forall i j,
     setflag this' i j
     = if (1 <=? i) && (i <=? j) && (j <=? n) then 0 else fresh_setflag heap i j) /\
  (forall i j,
     sigma this' i j
     = if (0 <=? i) && (i <=? n) && (0 <=? j) && (j <=? n) then dzero
       else fresh_sigma heap i j) /\
  (forall i j,
     gamma this' i j
     = if (0 <=? i) && (i <=? n) && (0 <=? j) && (j <=? n) then dzero
       else fresh_gamma heap i j) /\
  cut this' = fresh_cut heap /\ a0 this' = fresh_a0 heap /\ cutsq this' = fresh_cutsq heap /\
  atom this' = atom this /\ temperature this' = temperature this /\
  cut_global this' = cut_global this /\ seed this' = seed this /\
  mix_flag this' = mix_flag this /\ random this' = random this.
Proof.
  intros n this'. subst this'. unfold allocate. fold n.
  cbn [allocated setflag sigma gamma cut a0 cutsq atom temperature cut_global seed mix_flag
         random].
  split; [reflexivity |]. split; [| split; [| split]].
  - intros i j.
    rewrite (range_cells (fun s => s) (fun i j sf => upd2 sf i j 0) (fun _ _ => true)
               (fun _ _ => 0) (fun i => i) (fun _ => n + 1))
      by (intros; apply upd2_cell).
    destruct (Z.leb_spec 1 i); destruct (Z.ltb_spec i (n + 1)); destruct (Z.leb_spec i j);
      destruct (Z.ltb_spec j (n + 1)); destruct (Z.leb_spec j n);
      cbn [andb]; try reflexivity; lia.
  - intros i j.
    rewrite (range_cells (fun s : (Z -> Z -> F) * (Z -> Z -> F) => fst s)
               (fun i j t => (upd2 (fst t) i j dzero, upd2 (snd t) i j dzero))
               (fun _ _ => true) (fun _ _ => dzero) (fun _ => 0) (fun _ => n + 1))
      by (intros; cbn [fst]; apply upd2_cell).
    cbn [fst].
    destruct (Z.leb_spec 0 i); destruct (Z.ltb_spec i (n + 1)); destruct (Z.leb_spec i n);
      destruct (Z.leb_spec 0 j); destruct (Z.ltb_spec j (n + 1)); destruct (Z.leb_spec j n);
      cbn [andb]; try reflexivity; lia.
  - intros i j.
    rewrite (range_cells (fun s : (Z -> Z -> F) * (Z -> Z -> F) => snd s)
               (fun i j t => (upd2 (fst t) i j dzero, upd2 (snd t) i j dzero))
               (fun _ _ => true) (fun _ _ => dzero) (fun _ => 0) (fun _ => n + 1))
      by (intros; cbn [snd]; apply upd2_cell).
    cbn [snd].
    destruct (Z.leb_spec 0 i); destruct (Z.ltb_spec i (n + 1)); destruct (Z.leb_spec i n);
      destruct (Z.leb_spec 0 j); destruct (Z.ltb_spec j (n + 1)); destruct (Z.leb_spec j n);
      cbn [andb]; try reflexivity; lia.
  - repeat split.
Qed.

(** X4.  [allocate]: what is initialised and what is not.  [allocated] is set;
    the flag of every unordered type pair [1 <= i <= j <= ntypes] is cleared,
    and [sigma] and [gamma] are zeroed on the whole square [0..ntypes]; the flags
    below the diagonal and in row and column 0, and every cell of [cut], [a0]
    and [cutsq], are the cells [memory->create] handed out, which nothing has
    written; the settings and the generator are not touched.  The statement
    holds for every arithmetic. *)
Lemma allocate_cells (this : PairDPDJung F) (heap : Fresh F) :
  let n := atom_ntypes (atom this) in
  let this' := allocate this heap in
  allocated this' = 1 /\
  (forall i j,
     setflag this' i j
     = if (1 <=? i) && (i <=? j) && (j <=? n) then 0 else fresh_setflag heap i j) /\
  (forall i j,
     sigma this' i j
     = if (0 <=? i) && (i <=? n) && (0 <=? j) && (j <=? n) then dzero
       else fresh_sigma heap i j) /\
  (forall i j,
     gamma this' i j
     = if (0 <=? i) && (i <=? n) && (0 <=? j) && (j <=? n) then dzero
       else fresh_gamma heap i j) /\
  cut this' = fresh_cut heap /\ a0 this' = fresh_a0 heap /\ cutsq this' = fresh_cutsq heap /\
  atom this' = atom this /\ temperature this' = temperature this /\
  cut_global this' = cut_global this /\ seed this' = seed this /\
  mix_flag this' = mix_flag this /\ random this' = random this.
Proof. exact (allocate_tables this heap). Qed.

End Allocate.

(** ** The commands of the input script *)

Section Script.
Context {F : Type} {DF : Double F} {FI : ForceInput F}.

(** The outcomes of [settings]. *)
Lemma settings_cases (this : PairDPDJung F) (narg : Z) (arg : Z -> String.string) :
  let n := atom_ntypes (atom this) in
  (narg <> 3 -> settings this narg arg = ErrorAll Illegal_pair_style) /\
  (forall t cg sd,
     narg = 3 ->
     numeric (arg 0) = Returns t -> numeric (arg 1) = Returns cg ->
     inumeric (arg 2) = Returns sd ->
     (sd <= 0 -> settings this narg arg = ErrorAll Illegal_pair_style) /\
     (0 < sd ->
      exists this',
        settings this narg arg = Returns this' /\
        temperature this' = t /\ cut_global this' = cg /\ seed this' = sd /\
        random this' = new_RanMars (base this) (sd + comm_me this) /\
        (forall i j,
           cut this' i j
           = if truthy (allocated this) && (1 <=? i) && (i <=? j) && (j <=? n)
                && truthy (setflag this i j)
             then cg else cut this i j) /\
        setflag this' = setflag this /\ a0 this' = a0 this /\ gamma this' = gamma this /\
        sigma this' = sigma this /\ cutsq this' = cutsq this /\
        mix_flag this' = mix_flag this /\ allocated this' = allocated this /\
        atom this' = atom this /\ force this' = force this)).
Proof.
  intros n. split.
  - intros Hn. unfold settings. apply Z.eqb_neq in Hn. now rewrite Hn.
  - intros t cg sd -> Ht Hcg Hsd. unfold settings. rewrite Ht, Hcg, Hsd.
    cbn [Z.eqb Pos.eqb negb and_then]. split.
    + intros Hle. apply Z.leb_le in Hle. now rewrite Hle.
    + intros Hlt. destruct (Z.leb_spec sd 0); [lia |].
      eexists. split; [reflexivity |].
      cbn [temperature cut_global seed random cut setflag a0 gamma sigma cutsq mix_flag
             allocated atom force with_settings].
      repeat (split; [reflexivity |]).
      split; [| repeat split].
      intros i j. fold n. destruct (truthy (allocated this)); [| reflexivity].
      rewrite (range_cells (fun s => s)
                 (fun i j c => if truthy (setflag this i j) then upd2 c i j cg else c)
                 (fun i j => truthy (setflag this i j)) (fun _ _ => cg)
                 (fun i => i) (fun _ => n + 1)).
      * destruct (Z.leb_spec 1 i); destruct (Z.ltb_spec i (n + 1));
          destruct (Z.leb_spec i j); destruct (Z.ltb_spec j (n + 1));
          destruct (Z.leb_spec j n); cbn [andb]; try reflexivity; lia.
      * intros i0 j0 s a b. destruct (truthy (setflag this i0 j0)).
        -- apply upd2_cell.
        -- now rewrite andb_false_r.
Qed.

(** The loops of [coeff]. *)
Lemma coeff_row_count (a0_one gamma_one cut_one : F) (i : Z) :
  forall n lo s,
    snd (for_loop n lo (coeff_pair a0_one gamma_one cut_one i) s) = snd s + Z.of_nat n.
Proof.
  induction n as [| n IH]; intros lo s; cbn [for_loop]; [lia |].
  rewrite IH. destruct s as [this count]. cbn [coeff_pair snd]. lia.
Qed.

Lemma coeff_count (a0_one gamma_one cut_one : F) (ilo ihi jlo jhi : Z) (s : PairDPDJung F * Z) :
  snd s = 0 ->
  let s' := for_range ilo (ihi + 1)
              (fun i s => for_range (Z.max jlo i) (jhi + 1)
                            (coeff_pair a0_one gamma_one cut_one i) s) s in
  (snd s' = 0 <-> forall i j, in_block ilo ihi jlo jhi i j = false).
Proof.
  intros Hs s'. subst s'. unfold for_range at 1.
  pose (P := fun (i : Z) (t : PairDPDJung F * Z) =>
               0 <= snd t /\
               (snd t = 0 <-> forall a b, ilo <= a < i -> ~ (Z.max jlo a <= b <= jhi))).
  assert (H : P (ilo + Z.of_nat (Z.to_nat (ihi + 1 - ilo)))
                (for_loop (Z.to_nat (ihi + 1 - ilo)) ilo
                   (fun i s => for_range (Z.max jlo i) (jhi + 1)
                                 (coeff_pair a0_one gamma_one cut_one i) s) s)).
  { apply for_loop_inv.
    - unfold P. split; [lia |]. split; [intros _ a b Ha; lia | intros _; exact Hs].
    - intros i t Hi [Hge Hiff]. unfold P, for_range. rewrite coeff_row_count.
      split; [lia |]. split.
      + intros H0 a b Ha.
        assert (Ht : snd t = 0) by lia.
        destruct (Z.eq_dec a i) as [-> | Hne].
        * lia.
        * apply (proj1 Hiff Ht). lia.
      + intros Hall.
        assert (Ht : snd t = 0).
        { apply (proj2 Hiff). intros a b Ha. apply Hall. lia. }
        assert (Hrow : ~ (Z.max jlo i <= jhi <= jhi)) by (apply Hall; lia).
        lia. }
  destruct H as [_ Hiff]. rewrite Hiff. unfold in_block. split.
  - intros Hall i j.
    destruct (Z.leb_spec ilo i); destruct (Z.leb_spec i ihi); destruct (Z.leb_spec jlo j);
      destruct (Z.leb_spec j jhi); destruct (Z.leb_spec i j); cbn [andb]; try reflexivity.
    exfalso. apply (Hall i j); lia.
  - intros Hall a b Ha Hb. specialize (Hall a b).
    destruct (Z.leb_spec ilo a); destruct (Z.leb_spec a ihi); destruct (Z.leb_spec jlo b);
      destruct (Z.leb_spec b jhi); destruct (Z.leb_spec a b); cbn [andb] in Hall;
      try discriminate; lia.
Qed.

Lemma coeff_pair_cell {T : Type} (get : PairDPDJung F -> Z -> Z -> T)
  (a0_one gamma_one cut_one : F) (v : T) :
  (forall this sf csq c a g sg i j m n,
     get (with_tables this (upd2 sf i j 1) csq (upd2 c i j cut_one) (upd2 a i j a0_one)
            (upd2 g i j gamma_one) sg) m n
     = if (m =? i) && (n =? j) && true then v
       else get (with_tables this sf csq c a g sg) m n) ->
  forall i j s a b,
    get (fst (coeff_pair a0_one gamma_one cut_one i j s)) a b
    = if (a =? i) && (b =? j) && true then v else get (fst s) a b.
Proof.
  intros H i j [this count] a b. cbn [coeff_pair fst]. rewrite H.
  destruct ((a =? i) && (b =? j) && true); [reflexivity |].
  destruct this; reflexivity.
Qed.

Lemma coeff_cells {T : Type} (get : PairDPDJung F -> Z -> Z -> T)
  (a0_one gamma_one cut_one : F) (v : T) (ilo ihi jlo jhi : Z) (s : PairDPDJung F * Z) :
  (forall this sf csq c a g sg i j m n,
     get (with_tables this (upd2 sf i j 1) csq (upd2 c i j cut_one) (upd2 a i j a0_one)
            (upd2 g i j gamma_one) sg) m n
     = if (m =? i) && (n =? j) && true then v
       else get (with_tables this sf csq c a g sg) m n) ->
  forall a b,
    get (fst (for_range ilo (ihi + 1)
                (fun i s => for_range (Z.max jlo i) (jhi + 1)
                              (coeff_pair a0_one gamma_one cut_one i) s) s)) a b
    = if in_block ilo ihi jlo jhi a b then v else get (fst s) a b.
Proof.
  intros H a b.
  rewrite (range_cells (fun s => get (fst s)) (coeff_pair a0_one gamma_one cut_one)
             (fun _ _ => true) (fun _ _ => v) (fun i => Z.max jlo i) (fun _ => jhi + 1))
    by (intros; now apply coeff_pair_cell).
  unfold in_block.
  destruct (Z.leb_spec ilo a); destruct (Z.ltb_spec a (ihi + 1)); destruct (Z.leb_spec a ihi);
    destruct (Z.leb_spec (Z.max jlo a) b); destruct (Z.ltb_spec b (jhi + 1));
    destruct (Z.leb_spec jlo b); destruct (Z.leb_spec b jhi); destruct (Z.leb_spec a b);
    cbn [andb]; try reflexivity; lia.
Qed.

Lemma coeff_keeps (a0_one gamma_one cut_one : F) (ilo ihi jlo jhi : Z)
  (s : PairDPDJung F * Z) :
  coeff_kept s
    (for_range ilo (ihi + 1)
       (fun i s => for_range (Z.max jlo i) (jhi + 1)
                     (coeff_pair a0_one gamma_one cut_one i) s) s).
Proof.
  apply for_range_ind; [unfold coeff_kept; repeat split |].
  intros i t _ Ht. apply for_range_ind; [exact Ht |].
  intros j [this count] _ Hu. exact Hu.
Qed.

(** A command [coeff] that names at least one pair [i <= j] is carried out. *)
Lemma coeff_accepts (this : PairDPDJung F) (heap : Fresh F) (narg : Z)
  (arg : Z -> String.string) (ilo ihi jlo jhi : Z) (a0_one gamma_one cut_one : F)
  (i0 j0 : Z) :
  let start := if truthy (allocated this) then this else allocate this heap in
  4 <= narg <= 5 ->
  bounds (arg 0) (atom_ntypes (atom this)) = Returns (ilo, ihi) ->
  bounds (arg 1) (atom_ntypes (atom this)) = Returns (jlo, jhi) ->
  numeric (arg 2) = Returns a0_one ->
  numeric (arg 3) = Returns gamma_one ->
  (if narg =? 5 then numeric (arg 4) = Returns cut_one else cut_one = cut_global this) ->
  in_block ilo ihi jlo jhi i0 j0 = true ->
  exists this',
    coeff this heap narg arg = Returns this' /\
    (forall i j,
       setflag this' i j = (if in_block ilo ihi jlo jhi i j then 1 else setflag start i j) /\
       a0 this' i j = (if in_block ilo ihi jlo jhi i j then a0_one else a0 start i j) /\
       gamma this' i j
       = (if in_block ilo ihi jlo jhi i j then gamma_one else gamma start i j) /\
       cut this' i j = (if in_block ilo ihi jlo jhi i j then cut_one else cut start i j)) /\
    sigma this' = sigma start /\ cutsq this' = cutsq start /\
    temperature this' = temperature this /\ cut_global this' = cut_global this /\
    seed this' = seed this /\ random this' = random this /\
    allocated this' = allocated start /\ atom this' = atom this /\
    force this' = force this.
Proof.
  intros start Hn Hi Hj Ha Hg Hc Hin. unfold coeff.
  destruct (Z.ltb_spec narg 4) as [Hlo | _]; [lia |].
  destruct (Z.ltb_spec 5 narg) as [Hhi | _]; [lia |].
  cbn [orb]. fold start.
  assert (Hat : atom start = atom this) by (subst start; destruct (truthy _); reflexivity).
  assert (Hcg : cut_global start = cut_global this)
    by (subst start; destruct (truthy _); reflexivity).
  assert (Hrest : temperature start = temperature this /\ seed start = seed this /\
                  random start = random this /\ force start = force this)
    by (subst start; destruct (truthy _); repeat split).
  rewrite Hat, Hi, Hj, Ha, Hg, Hcg. cbn [and_then].
  assert (Hcut : (if narg =? 5 then numeric (arg 4) else Returns (cut_global this))
                 = Returns cut_one).
  { destruct (narg =? 5); [exact Hc | now rewrite Hc]. }
  rewrite Hcut. cbn [and_then].
  pose proof (coeff_count a0_one gamma_one cut_one ilo ihi jlo jhi (start, 0) eq_refl)
    as Hcount.
  cbv zeta in Hcount.
  pose proof (fun T get v H => @coeff_cells T get a0_one gamma_one cut_one v ilo ihi jlo jhi
                                 (start, 0) H) as Hcells.
  pose proof (coeff_keeps a0_one gamma_one cut_one ilo ihi jlo jhi (start, 0)) as Hkeep.
  destruct (for_range ilo (ihi + 1) _ (start, 0)) as [this' count] eqn:Hloop.
  unfold coeff_kept in Hkeep. cbn [fst snd] in *.
  destruct (Z.eqb_spec count 0) as [H0 | H0].
  - apply (proj1 Hcount) with (i := i0) (j := j0) in H0. congruence.
  - exists this'. split; [reflexivity |]. split.
    + intros i j.
      rewrite (Hcells _ setflag 1), (Hcells _ a0 a0_one), (Hcells _ gamma gamma_one),
        (Hcells _ cut cut_one) by (intros; cbn [setflag a0 gamma cut with_tables];
                                   apply upd2_cell).
      repeat split.
    + destruct Hkeep as (H1 & H2 & H3 & H4 & H5 & H6 & H7 & H8 & H9 & H10).
      destruct Hrest as (R1 & R2 & R3 & R4).
      repeat split; congruence.
Qed.

(** X7.  [coeff] ends the run with "Incorrect args for pair coefficients" when
    it has fewer than 4 or more than 5 arguments, and also when its arguments
    are read without complaint but the two type ranges hold no pair with
    [i <= j]: the loops of lines 290-298 only visit the pairs on and above the
    diagonal, [count] stays 0 and line 300 reports it.  A command that names a
    pair by its larger type first, such as [pair_coeff 2 1 ...], is refused in
    this way. *)
Lemma coeff_rejects_empty_block (this : PairDPDJung F) (heap : Fresh F) (narg : Z)
  (arg : Z -> String.string) :
  (narg < 4 \/ 5 < narg -> coeff this heap narg arg = ErrorAll Incorrect_args) /\
  (forall ilo ihi jlo jhi a0_one gamma_one cut_one,
     4 <= narg <= 5 ->
     bounds (arg 0) (atom_ntypes (atom this)) = Returns (ilo, ihi) ->
     bounds (arg 1) (atom_ntypes (atom this)) = Returns (jlo, jhi) ->
     numeric (arg 2) = Returns a0_one ->
     numeric (arg 3) = Returns gamma_one ->
     (if narg =? 5 then numeric (arg 4) = Returns cut_one else cut_one = cut_global this) ->
     (forall i j, ilo <= i <= ihi -> jlo <= j <= jhi -> j < i) ->
     coeff this heap narg arg = ErrorAll Incorrect_args).
Proof.
  split.
  - intros Hn. unfold coeff.
    destruct (Z.ltb_spec narg 4) as [Hlo | Hlo]; [reflexivity |].
    destruct (Z.ltb_spec 5 narg) as [Hhi | Hhi]; [reflexivity | lia].
  - intros ilo ihi jlo jhi a0_one gamma_one cut_one Hn Hi Hj Ha Hg Hc Hnone.
    unfold coeff.
    destruct (Z.ltb_spec narg 4) as [Hlo | _]; [lia |].
    destruct (Z.ltb_spec 5 narg) as [Hhi | _]; [lia |].
    cbn [orb].
    set (start := if truthy (allocated this) then this else allocate this heap).
    assert (Hat : atom start = atom this) by (subst start; destruct (truthy _); reflexivity).
    assert (Hcg : cut_global start = cut_global this)
      by (subst start; destruct (truthy _); reflexivity).
    rewrite Hat, Hi, Hj, Ha, Hg, Hcg. cbn [and_then].
    assert (Hcut : (if narg =? 5 then numeric (arg 4) else Returns (cut_global this))
                   = Returns cut_one).
    { destruct (narg =? 5); [exact Hc | now rewrite Hc]. }
    rewrite Hcut. cbn [and_then].
    pose proof (coeff_count a0_one gamma_one cut_one ilo ihi jlo jhi (start, 0) eq_refl)
      as Hcount.
    cbv zeta in Hcount.
    destruct (for_range ilo (ihi + 1) _ (start, 0)) as [this' count] eqn:Hloop.
    cbn [snd] in Hcount.
    assert (H0 : count = 0).
    { apply (proj2 Hcount). intros i j. unfold in_block.
      destruct (Z.leb_spec ilo i); destruct (Z.leb_spec i ihi); destruct (Z.leb_spec jlo j);
        destruct (Z.leb_spec j jhi); destruct (Z.leb_spec i j); cbn [andb]; try reflexivity.
      assert (j < i) by (apply Hnone; lia). lia. }
    rewrite H0. reflexivity.
Qed.

(** X5.  [settings(narg, arg)].  The command ends the run with "Illegal
    pair_style command" when it does not have exactly three arguments, and,
    the three words being read by the engine as [t], [cg] and [sd], when the
    seed [sd] is zero or negative.  Otherwise it returns with
    [temperature = t], [cut_global = cg], [seed = sd] and a generator created
    from [sd + comm->me]; when the tables are allocated, the cutoff [cut[i][j]]
    of every pair [1 <= i <= j <= ntypes] whose flag is set becomes [cg],
    whatever cutoff [coeff] had given the pair, and every other cell of [cut]
    (the mirror cells [j > i] among them) and every other table is as it
    was. *)
Lemma settings_outcome (this : PairDPDJung F) (narg : Z) (arg : Z -> String.string) :
  let n := atom_ntypes (atom this) in
  (narg <> 3 -> settings this narg arg = ErrorAll Illegal_pair_style) /\
  (forall t cg sd,
     narg = 3 ->
     numeric (arg 0) = Returns t -> numeric (arg 1) = Returns cg ->
     inumeric (arg 2) = Returns sd ->
     (sd <= 0 -> settings this narg arg = ErrorAll Illegal_pair_style) /\
     (0 < sd ->
      exists this',
        settings this narg arg = Returns this' /\
        temperature this' = t /\ cut_global this' = cg /\ seed this' = sd /\
        random this' = new_RanMars (base this) (sd + comm_me this) /\
        (forall i j,
           cut this' i j
           = if truthy (allocated this) && (1 <=? i) && (i <=? j) && (j <=? n)
                && truthy (setflag this i j)
             then cg else cut this i j) /\
        setflag this' = setflag this /\ a0 this' = a0 this /\ gamma this' = gamma this /\
        sigma this' = sigma this /\ cutsq this' = cutsq this /\
        mix_flag this' = mix_flag this /\ allocated this' = allocated this /\
        atom this' = atom this /\ force this' = force this)).
Proof. exact (settings_cases this narg arg). Qed.

(** X6.  [coeff(narg, arg)] with 4 or 5 arguments that the engine reads as the
    type ranges [ilo..ihi] and [jlo..jhi], the coefficients [a0_one] and
    [gamma_one] and the cutoff [cut_one] (the fifth argument, or [cut_global]
    when there are four), and whose ranges hold a pair [i <= j]: the command
    returns; the tables are first allocated if they were not; then exactly the
    pairs [(i,j)] of the two ranges with [i <= j] have their flag set to 1 and
    [a0], [gamma] and [cut] set to the three values, every other cell of these
    tables is as it was (or as [allocate] left it), and [sigma], [cutsq] and the
    settings are not touched: the mirror cells [(j,i)] and [sigma] wait for
    [init_one]. *)
Lemma coeff_sets_block (this : PairDPDJung F) (heap : Fresh F) (narg : Z)
  (arg : Z -> String.string) (ilo ihi jlo jhi : Z) (a0_one gamma_one cut_one : F)
  (i0 j0 : Z) :
  let start := if truthy (allocated this) then this else allocate this heap in
  4 <= narg <= 5 ->
  bounds (arg 0) (atom_ntypes (atom this)) = Returns (ilo, ihi) ->
  bounds (arg 1) (atom_ntypes (atom this)) = Returns (jlo, jhi) ->
  numeric (arg 2) = Returns a0_one ->
  numeric (arg 3) = Returns gamma_one ->
  (if narg =? 5 then numeric (arg 4) = Returns cut_one else cut_one = cut_global this) ->
  in_block ilo ihi jlo jhi i0 j0 = true ->
  exists this',
    coeff this heap narg arg = Returns this' /\
    (forall i j,
       setflag this' i j = (if in_block ilo ihi jlo jhi i j then 1 else setflag start i j) /\
       a0 this' i j = (if in_block ilo ihi jlo jhi i j then a0_one else a0 start i j) /\
       gamma this' i j
       = (if in_block ilo ihi jlo jhi i j then gamma_one else gamma start i j) /\
       cut this' i j = (if in_block ilo ihi jlo jhi i j then cut_one else cut start i j)) /\
    sigma this' = sigma start /\ cutsq this' = cutsq start /\
    temperature this' = temperature this /\ cut_global this' = cut_global this /\
    seed this' = seed this /\ random this' = random this /\
    allocated this' = allocated start /\ atom this' = atom this /\
    force this' = force this.
Proof.
  exact (coeff_accepts this heap narg arg ilo ihi jlo jhi a0_one gamma_one cut_one i0 j0).
Qed.

End Script.

Section InitOneFrame.
Context {F : Type} {DF : Double F}.
Local Open Scope dbl_scope.

(** What [init_one] returns and writes for a pair that is set. *)
Lemma init_one_result (this : PairDPDJung F) (i j : Z) :
  setflag this i j <> 0%Z ->
  exists this',
    init_one this i j = Some (this', cut this i j) /\
    sigma this' i j
    = dsqrt (dtwo * force_boltz (force this) * temperature this * gamma this i j) /\
    sigma this' j i = sigma this' i j /\
    (forall a b,
       cut this' a b = (if (a =? j)%Z && (b =? i)%Z then cut this i j else cut this a b) /\
       a0 this' a b = (if (a =? j)%Z && (b =? i)%Z then a0 this i j else a0 this a b) /\
       gamma this' a b
       = (if (a =? j)%Z && (b =? i)%Z then gamma this i j else gamma this a b)) /\
    (forall a b, (a, b) <> (i, j) -> (a, b) <> (j, i) -> sigma this' a b = sigma this a b) /\
    setflag this' = setflag this /\ cutsq this' = cutsq this /\
    temperature this' = temperature this /\ force this' = force this /\
    atom this' = atom this.
Proof.
  intros Hset. unfold init_one. apply Z.eqb_neq in Hset. rewrite Hset.
  eexists. split.
  - f_equal. f_equal. unfold upd2.
    destruct (Z.eqb_spec i j) as [-> | ]; [now rewrite Z.eqb_refl | ].
    cbn [andb]. reflexivity.
  - cbn [sigma cut a0 gamma setflag cutsq temperature force atom with_tables].
    split; [| split; [| split; [| split]]].
    + destruct (Z.eq_dec i j) as [-> | Hij].
      * rewrite !upd2_same. reflexivity.
      * assert (Hne : (i, j) <> (j, i)) by congruence.
        rewrite (upd2_other _ _ _ _ _ _ Hne). now rewrite upd2_same.
    + destruct (Z.eq_dec i j) as [-> | Hij]; [reflexivity |].
      assert (Hne : (i, j) <> (j, i)) by congruence.
      rewrite upd2_same. now rewrite (upd2_other _ _ _ _ _ _ Hne).
    + intros a b. unfold upd2. repeat split.
    + intros a b H1 H2. now rewrite !upd2_other.
    + repeat split.
Qed.

(** X8.  [init_one(i,j)] beyond the noise coefficient.  For a pair whose flag is
    0 the run ends ([None]).  For a pair that is set, the call returns the
    cutoff [cut[i][j]] and copies [cut], [a0] and [gamma] of [(i,j)] to the
    mirror cell [(j,i)], so that the four tables are symmetric at the pair;
    no other cell of [cut], [a0] and [gamma] changes, [sigma] changes at
    [(i,j)] and [(j,i)] only, and [setflag] and [cutsq] are not written at
    all.  Calling [init_one(i,j)] again returns the same cutoff and leaves
    every cell of the four tables as the first call left it.  The statement
    holds for every arithmetic. *)
Lemma init_one_mirrors (this : PairDPDJung F) (i j : Z) :
  (setflag this i j = 0%Z -> init_one this i j = None) /\
  (setflag this i j <> 0%Z ->
   exists this',
     init_one this i j = Some (this', cut this i j) /\
     cut this' j i = cut this i j /\ a0 this' j i = a0 this i j /\
     gamma this' j i = gamma this i j /\ sigma this' j i = sigma this' i j /\
     (forall a b, (a, b) <> (j, i) ->
        cut this' a b = cut this a b /\ a0 this' a b = a0 this a b /\
        gamma this' a b = gamma this a b) /\
     (forall a b, (a, b) <> (i, j) -> (a, b) <> (j, i) -> sigma this' a b = sigma this a b) /\
     setflag this' = setflag this /\ cutsq this' = cutsq this /\
     exists this'',
       init_one this' i j = Some (this'', cut this i j) /\
       forall a b,
         cut this'' a b = cut this' a b /\ a0 this'' a b = a0 this' a b /\
         gamma this'' a b = gamma this' a b /\ sigma this'' a b = sigma this' a b).
Proof.
  split.
  - intros H0. unfold init_one. now rewrite H0.
  - intros Hset.
    destruct (init_one_result this i j Hset)
      as (this' & Hrun & Hsg & Hsym & Htab & Hsgo & Hsf & Hcsq & Ht & Hf & Hat).
    exists this'. split; [exact Hrun |].
    assert (Hcell : forall a b, (a, b) <> (j, i) -> ((a =? j)%Z && (b =? i)%Z) = false).
    { intros a b Hne. destruct (Z.eqb_spec a j) as [-> |]; [| reflexivity].
      destruct (Z.eqb_spec b i) as [-> |]; [congruence | reflexivity]. }
    destruct (Htab j i) as (Hc & Ha & Hg). rewrite !Z.eqb_refl in Hc, Ha, Hg.
    cbn [andb] in Hc, Ha, Hg.
    split; [exact Hc | split; [exact Ha | split; [exact Hg | split; [exact Hsym |]]]].
    split.
    { intros a b Hne. destruct (Htab a b) as (Hc' & Ha' & Hg').
      rewrite (Hcell a b Hne) in Hc', Ha', Hg'. auto. }
    split; [exact Hsgo |]. split; [exact Hsf | split; [exact Hcsq |]].
    assert (Hset' : setflag this' i j <> 0%Z) by (rewrite Hsf; exact Hset).
    destruct (init_one_result this' i j Hset')
      as (this'' & Hrun' & Hsg' & Hsym' & Htab' & Hsgo' & _).
    assert (Hcij : cut this' i j = cut this i j /\ a0 this' i j = a0 this i j /\
                   gamma this' i j = gamma this i j).
    { destruct (Htab i j) as (Hc' & Ha' & Hg').
      destruct ((i =? j)%Z && (j =? i)%Z); auto. }
    destruct Hcij as (Hcij & Haij & Hgij).
    exists this''. split; [now rewrite <- Hcij |].
    intros a b. destruct (Htab' a b) as (Hc' & Ha' & Hg').
    rewrite Hc', Ha', Hg'. rewrite Hcij, Haij, Hgij.
    assert (Hsig : sigma this'' a b = sigma this' a b).
    { assert (Hcases : (a = i /\ b = j) \/ (a = j /\ b = i)
                       \/ ((a, b) <> (i, j) /\ (a, b) <> (j, i))).
      { destruct (Z.eq_dec a i) as [Hai | Hai]; destruct (Z.eq_dec b j) as [Hbj | Hbj];
          destruct (Z.eq_dec a j) as [Haj | Haj]; destruct (Z.eq_dec b i) as [Hbi | Hbi];
          first [ left; split; assumption
                | right; left; split; assumption
                | right; right; split; congruence ]. }
      destruct Hcases as [[Hai Hbj] | [[Haj Hbi] | [Hne1 Hne2]]].
      - rewrite Hai, Hbj, Hsg', Ht, Hf, Hgij. now rewrite Hsg.
      - rewrite Haj, Hbi, Hsym', Hsg', Ht, Hf, Hgij, <- Hsg. now rewrite Hsym.
      - now apply Hsgo'. }
    destruct (Z.eqb_spec a j) as [Haj | Haj]; destruct (Z.eqb_spec b i) as [Hbi | Hbi];
      cbn [andb]; repeat split; try exact Hsig; subst; congruence.
Qed.

End InitOneFrame.

Section ScriptOrder.
Context {F : Type} {DF : Double F} {FI : ForceInput F}.
Local Open Scope dbl_scope.

(** X9.  The commands in the order of an input script, on an object whose
    tables are not allocated: [settings] with a temperature [t], a global
    cutoff [cg] and a positive seed, then [coeff] with four arguments naming
    the type ranges [ilo..ihi], [jlo..jhi] and the coefficients [a0_one],
    [gamma_one].  Both commands return, and afterwards, for every type pair
    [1 <= i <= j <= ntypes]: if the pair lies in the two ranges, [init_one(i,j)]
    returns the global cutoff [cg] and leaves
    [sigma = sqrt(2.0 * boltz * t * gamma_one)], [a0 = a0_one],
    [gamma = gamma_one] and [cut = cg] at [(i,j)] and at [(j,i)]; if it does
    not, [init_one(i,j)] ends the run ("All pair coeffs are not set"). *)
Lemma script_then_init_one (this : PairDPDJung F) (heap : Fresh F)
  (sarg carg : Z -> String.string) (t cg : F) (sd ilo ihi jlo jhi : Z)
  (a0_one gamma_one : F) (i0 j0 : Z) :
  let n := atom_ntypes (atom this) in
  allocated this = 0%Z ->
  numeric (sarg 0%Z) = Returns t -> numeric (sarg 1%Z) = Returns cg ->
  inumeric (sarg 2%Z) = Returns sd -> (0 < sd)%Z ->
  bounds (carg 0%Z) n = Returns (ilo, ihi) -> bounds (carg 1%Z) n = Returns (jlo, jhi) ->
  numeric (carg 2%Z) = Returns a0_one -> numeric (carg 3%Z) = Returns gamma_one ->
  in_block ilo ihi jlo jhi i0 j0 = true ->
  exists this1 this2,
    settings this 3 sarg = Returns this1 /\
    coeff this1 heap 4 carg = Returns this2 /\
    forall i j, (1 <= i <= j)%Z -> (j <= n)%Z ->
      if in_block ilo ihi jlo jhi i j then
        exists this3,
          init_one this2 i j = Some (this3, cg) /\
          sigma this3 i j = dsqrt (dtwo * force_boltz (force this) * t * gamma_one) /\
          sigma this3 j i = sigma this3 i j /\
          a0 this3 i j = a0_one /\ a0 this3 j i = a0_one /\
          gamma this3 i j = gamma_one /\ gamma this3 j i = gamma_one /\
          cut this3 i j = cg /\ cut this3 j i = cg
      else init_one this2 i j = None.
Proof.
  intros n Halloc Ht Hcg Hsd Hpos Hi Hj Ha Hg Hin.
  destruct (proj2 (settings_cases this 3 sarg) t cg sd eq_refl Ht Hcg Hsd) as [_ Hs].
  destruct (Hs Hpos)
    as (this1 & Hrun1 & Ht1 & Hcg1 & Hsd1 & _ & _ & Hsf1 & _ & _ & _ & _ & _ & Hal1 & Hat1 & Hf1).
  exists this1.
  assert (Hn1 : atom_ntypes (atom this1) = n) by (now rewrite Hat1).
  destruct (coeff_accepts this1 heap 4 carg ilo ihi jlo jhi a0_one gamma_one cg i0 j0)
    as (this2 & Hrun2 & Htab2 & _ & _ & Ht2 & _ & _ & _ & _ & _ & Hf2);
    try (rewrite Hn1; assumption); try assumption; [lia | exact (eq_sym Hcg1) |].
  exists this2. split; [exact Hrun1 | split; [exact Hrun2 |]].
  intros i j Hij Hjn.
  destruct (Htab2 i j) as (Hsf & Ha0 & Hgm & Hct).
  assert (Hstart : (if truthy (allocated this1) then this1 else allocate this1 heap)
                   = allocate this1 heap).
  { rewrite Hal1, Halloc. reflexivity. }
  rewrite Hstart in Hsf.
  destruct (in_block ilo ihi jlo jhi i j) eqn:Hblock.
  - assert (Hset : setflag this2 i j <> 0%Z) by (rewrite Hsf; discriminate).
    destruct (init_one_result this2 i j Hset)
      as (this3 & Hrun3 & Hsg & Hsym & Htab3 & _).
    exists this3. rewrite Hct in Hrun3. split; [exact Hrun3 |].
    rewrite Hf2, Hf1, Ht2, Ht1, Hgm in Hsg. split; [exact Hsg |]. split; [exact Hsym |].
    destruct (Htab3 i j) as (Hc3 & Ha3 & Hg3).
    destruct (Htab3 j i) as (Hc3' & Ha3' & Hg3').
    rewrite !Z.eqb_refl in Hc3', Ha3', Hg3'. cbn [andb] in Hc3', Ha3', Hg3'.
    assert (Hsame : cut this3 i j = cut this2 i j /\ a0 this3 i j = a0 this2 i j /\
                    gamma this3 i j = gamma this2 i j).
    { destruct ((i =? j)%Z && (j =? i)%Z); auto. }
    destruct Hsame as (S1 & S2 & S3).
    repeat split; congruence.
  - unfold init_one. rewrite Hsf.
    destruct (allocate_tables this1 heap) as (_ & Hflags & _).
    rewrite Hflags, Hn1.
    destruct (Z.leb_spec 1 i); [| lia]. destruct (Z.leb_spec i j); [| lia].
    destruct (Z.leb_spec j n); [| lia]. reflexivity.
Qed.

End ScriptOrder.

(** ** [compute]: what the neighbor loops consume *)

Section Draws.
Context {F : Type} {DF : Double F}.
Local Open Scope dbl_scope.

(** What the neighbor loops of [compute] consume and record. *)
Lemma compute_forces_counts (this : PairDPDJung F) (eflag vflag : Z) :
  let s := fst (compute_forces this eflag vflag) in
  rng_draws (fs_random s) = rng_draws (random this) /\
  rng_pos (fs_random s) = (rng_pos (random this) + interactions this)%nat /\
  length (fs_tally s)
  = (if truthy (evflag_of this eflag vflag) then interactions this else 0%nat) /\
  length (fs_divs s) = (1 + 2 * interactions this)%nat /\
  (eflag = 0%Z -> vflag = 0%Z ->
   fs_tally s = [] /\ snd (compute_forces this eflag vflag) = 0%Z).
Proof.
  intros s. subst s. unfold compute_forces, evflag_of, interactions.
  destruct (if truthy eflag || truthy vflag then ev_setup (base this) eflag vflag
            else (0, 0)%Z) as [evflag vflag_fdotr] eqn:Hflags.
  cbn [fst snd].
  set (R := fun (s : ForceState F) (n : nat) =>
              rng_draws (fs_random s) = rng_draws (random this) /\
              rng_pos (fs_random s) = (rng_pos (random this) + n)%nat /\
              length (fs_tally s) = (if truthy evflag then n else 0%nat) /\
              length (fs_divs s) = (1 + 2 * n)%nat).
  assert (H : R (for_range 0 (list_inum (nlist this))
                   (force_atom this eflag evflag
                      (done / dsqrt (update_dt (update this))))
                   {| fs_f := fun _ => dzero; fs_random := random this; fs_evdwl := dzero;
                      fs_tally := []; fs_divs := [dsqrt (update_dt (update this))] |})
                (for_range 0 (list_inum (nlist this))
                   (fun ii n =>
                      let i := list_ilist (nlist this) ii in
                      for_range 0 (list_numneigh (nlist this) i)
                        (fun jj n => if interacts this i jj then Datatypes.S n else n) n)
                   0%nat)).
  { apply (for_range_rel R).
    - unfold R. cbn [fs_random fs_tally fs_divs length].
      repeat split; try lia. now destruct (truthy evflag).
    - intros ii s n _ Hs. unfold force_atom. cbv zeta.
      apply (for_range_rel R); [exact Hs |].
      intros jj s1 n1 _ (H1 & H2 & H3 & H4). unfold force_pair, interacts.
      set (g := pair_geom this _ _ _ (list_ilist (nlist this) ii) jj).
      destruct (pg_rsq g <? cutsq this _ _); cbn [andb]; [| unfold R; auto].
      destruct (dsqrt (pg_rsq g) <? EPSILON); cbn [negb]; [unfold R; auto |].
      unfold gaussian. unfold R. cbn [fs_random fs_tally fs_divs rng_draws rng_pos length].
      repeat split.
      + exact H1.
      + lia.
      + destruct (truthy evflag); cbn [length]; lia.
      + lia. }
  destruct H as (H1 & H2 & H3 & H4).
  split; [exact H1 | split; [exact H2 | split; [exact H3 | split; [exact H4 |]]]].
  intros -> ->. cbn in Hflags. injection Hflags as <- <-.
  cbn [truthy Z.eqb negb] in H3. split; [| reflexivity].
  destruct (fs_tally _); [reflexivity | discriminate H3].
Qed.

(** X10.  The neighbor loops of [compute] (lines 108-167) draw exactly one
    random number for every listed neighbor that passes the cutoff test and
    the [EPSILON] test, and none for any other: the
    generator ends [interactions] draws further in the same stream (a pair that
    a list holds twice, as with [newton_pair] off, is given two draws).
    [ev_tally] is called once for each of these neighbors when [evflag] is set
    and never otherwise, and two divisions are carried out for each of them
    after the one of [dtinvsqrt].  With [eflag = vflag = 0] nothing is tallied
    and [vflag_fdotr] is 0.  The statement holds for every arithmetic. *)
Lemma compute_forces_draws (this : PairDPDJung F) (eflag vflag : Z) :
  let s := fst (compute_forces this eflag vflag) in
  rng_draws (fs_random s) = rng_draws (random this) /\
  rng_pos (fs_random s) = (rng_pos (random this) + interactions this)%nat /\
  length (fs_tally s)
  = (if truthy (evflag_of this eflag vflag) then interactions this else 0%nat) /\
  length (fs_divs s) = (1 + 2 * interactions this)%nat /\
  (eflag = 0%Z -> vflag = 0%Z ->
   fs_tally s = [] /\ snd (compute_forces this eflag vflag) = 0%Z).
Proof. exact (compute_forces_counts this eflag vflag). Qed.

End Draws.

Section Divisors.
Context {F : Type} {DF : Double F}.
Local Open Scope dbl_scope.

Lemma step_divisors (this : PairDPDJung F) (input : Z -> F) (s : StepState F) :
  Forall (guarded_divisor this) (ss_divs s) ->
  Forall (guarded_divisor this) (ss_divs (compute_step_from this input s)).
Proof.
  intros Hs. unfold compute_step_from.
  apply (for_range_ind (fun s => Forall (guarded_divisor this) (ss_divs s))).
  - cbn [ss_divs]. constructor; [left; reflexivity |].
    constructor; [right; left; reflexivity | exact Hs].
  - intros ii t _ Ht. unfold step_atom. cbv zeta.
    apply (for_range_ind (fun s => Forall (guarded_divisor this) (ss_divs s)));
      [exact Ht |].
    intros jj t' _ Ht'. unfold step_pair.
    set (g := pair_geom this _ _ _ _ jj).
    destruct (pg_rsq g <? cutsq this _ _); [| exact Ht'].
    destruct (dsqrt (pg_rsq g) <? EPSILON) eqn:Hdeg; [exact Ht' |].
    cbn [ss_divs]. constructor; [right; right; left; eauto |].
    constructor; [right; right; right; exact Hdeg | exact Ht'].
Qed.

Lemma force_divisors (this : PairDPDJung F) (eflag vflag : Z) :
  Forall (guarded_divisor this) (fs_divs (compute_rhs this (fst (compute_forces this eflag vflag)))).
Proof.
  unfold compute_rhs.
  apply (for_range_ind (fun s => Forall (guarded_divisor this) (fs_divs s))).
  - unfold compute_forces.
    destruct (if truthy eflag || truthy vflag then ev_setup (base this) eflag vflag
              else (0, 0)%Z) as [evflag vflag_fdotr].
    cbn [fst].
    apply (for_range_ind (fun s => Forall (guarded_divisor this) (fs_divs s))).
    + cbn [fs_divs]. constructor; [right; left; reflexivity | constructor].
    + intros ii t _ Ht. unfold force_atom. cbv zeta.
      apply (for_range_ind (fun s => Forall (guarded_divisor this) (fs_divs s)));
        [exact Ht |].
      intros jj t' _ Ht'. unfold force_pair.
      set (g := pair_geom this _ _ _ _ jj).
      destruct (pg_rsq g <? cutsq this _ _); [| exact Ht'].
      destruct (dsqrt (pg_rsq g) <? EPSILON) eqn:Hdeg; [exact Ht' |].
      destruct (gaussian (fs_random t')) as [randnum rng].
      cbn [fs_divs]. constructor; [right; right; left; eauto |].
      constructor; [right; right; right; exact Hdeg | exact Ht'].
  - intros i t _ Ht. unfold rhs_atom. cbn [fs_divs].
    repeat (constructor; [left; reflexivity |]). exact Ht.
Qed.

(** X11.  No division of the loops of [compute] and of [compute_step] has a
    separation below [EPSILON] as its divisor: every divisor is the literal
    [2.0], the root [sqrt(dt)], a cutoff [cut[itype][jtype]], or the separation
    [r] of a pair for which the test [r < EPSILON] of lines 132 and 527 has
    failed.  The statement holds for every arithmetic, and for any divisors
    recorded before [compute_step] is entered. *)
Lemma divisors_are_guarded (this : PairDPDJung F) (eflag vflag : Z) (input : Z -> F)
  (s : StepState F) :
  Forall (guarded_divisor this)
    (fs_divs (compute_rhs this (fst (compute_forces this eflag vflag)))) /\
  (Forall (guarded_divisor this) (ss_divs s) ->
   Forall (guarded_divisor this) (ss_divs (compute_step_from this input s))).
Proof.
  split; [apply force_divisors | apply step_divisors].
Qed.

End Divisors.

(** ** The cells [compute_step] reads *)

Section InputCells.
Context {F : Type} {DF : Double F}.
Local Open Scope dbl_scope.

Lemma for_range_same {S : Type} (f g : Z -> S -> S) (lo hi : Z) (s : S) :
  (forall i t, (lo <= i < hi)%Z -> f i t = g i t) ->
  for_range lo hi f s = for_range lo hi g s.
Proof.
  intros H. apply (for_range_rel (fun a b => a = b)); [reflexivity |].
  intros i a b Hi <-. now apply H.
Qed.

(** X26.  The cells of [input] that [compute_step] reads.  Two inputs that agree
    at the three entries of every listed atom, taken both at its local index
    (lines 499-501 read [input[3*i]]) and at its tag less one (lines 508-510
    read [input[3*itag]]), and at the three entries of every listed neighbor
    at its tag less one (lines 529-531), give the same output buffer and the
    same divisions: no other cell of [input] has any influence.  The statement
    holds for every arithmetic. *)
Lemma compute_step_reads (this : PairDPDJung F) (u v : Z -> F) (s : StepState F) :
  (forall ii c,
     (0 <= ii < list_inum (nlist this))%Z -> (0 <= c < 3)%Z ->
     u (3 * list_ilist (nlist this) ii + c)%Z = v (3 * list_ilist (nlist this) ii + c)%Z /\
     u (3 * (atom_tag (atom this) (list_ilist (nlist this) ii) - 1) + c)%Z
     = v (3 * (atom_tag (atom this) (list_ilist (nlist this) ii) - 1) + c)%Z) ->
  (forall ii jj c,
     (0 <= ii < list_inum (nlist this))%Z ->
     (0 <= jj < list_numneigh (nlist this) (list_ilist (nlist this) ii))%Z ->
     (0 <= c < 3)%Z ->
     u (3 * neighbor_tag this (list_ilist (nlist this) ii) jj + c)%Z
     = v (3 * neighbor_tag this (list_ilist (nlist this) ii) jj + c)%Z) ->
  compute_step_from this u s = compute_step_from this v s /\
  forall output, compute_step this u output = compute_step this v output.
Proof.
  intros Hi Hj.
  assert (Hfrom : forall s, compute_step_from this u s = compute_step_from this v s).
  { intros s0. unfold compute_step_from. apply for_range_same.
    intros ii t Hii. unfold step_atom. cbv zeta.
    destruct (Hi ii 0%Z Hii ltac:(lia)) as [A0 B0].
    destruct (Hi ii 1%Z Hii ltac:(lia)) as [A1 B1].
    destruct (Hi ii 2%Z Hii ltac:(lia)) as [A2 B2].
    rewrite !Z.add_0_r in A0, B0.
    rewrite A0, A1, A2, B0, B1, B2.
    apply for_range_same. intros jj t' Hjj. unfold step_pair. cbv zeta.
    set (g := pair_geom this _ _ _ (list_ilist (nlist this) ii) jj).
    pose proof (Hj ii jj 0%Z Hii Hjj ltac:(lia)) as C0.
    pose proof (Hj ii jj 1%Z Hii Hjj ltac:(lia)) as C1.
    pose proof (Hj ii jj 2%Z Hii Hjj ltac:(lia)) as C2.
    rewrite !Z.add_0_r in C0.
    change (neighbor_tag this (list_ilist (nlist this) ii) jj) with (pg_jtag g) in C0, C1, C2.
    rewrite C0, C1, C2. reflexivity. }
  split; [apply Hfrom |].
  intros output. unfold compute_step. now rewrite Hfrom.
Qed.

End InputCells.

(** ** [single] against [compute] on IEEE doubles *)

(** IEEE multiplication is commutative, bit for bit. *)
Lemma SFmul_comm (prec emax : Z) (a b : spec_float) :
  SFmul prec emax a b = SFmul prec emax b a.
Proof.
  destruct a as [sa | sa | | sa ma ea]; destruct b as [sb | sb | | sb mb eb];
    cbn [SFmul]; try reflexivity; try (now rewrite xorb_comm).
  now rewrite xorb_comm, Pos.mul_comm, Z.add_comm.
Qed.

Lemma float_mul_comm (x y : float) : (x * y)%float = (y * x)%float.
Proof.
  apply Prim2SF_inj. rewrite !mul_spec. apply SFmul_comm.
Qed.

Section SingleEnergy.
Context {F : Type} {DF : Double F}.
Local Open Scope dbl_scope.

(** X12.  In every arithmetic whose multiplication is commutative (IEEE
    doubles are one), for a listed neighbor that passes the cutoff and the
    [EPSILON] tests and with [eflag] set: the energy [evdwl] that [compute]
    computes for the pair (lines 159-160) and hands to [ev_tally] is, bit for
    bit, the energy [single] returns for the same pair, the same squared
    distance and the same special-bond factor. *)
Lemma single_energy_is_tallied (this : PairDPDJung F) (eflag evflag : Z) (dtinvsqrt : F)
  (i itag jj : Z) (s : ForceState F) (factor_coul fforce : F) :
  let g := pair_geom this (atom_x (atom this) i 0) (atom_x (atom this) i 1)
             (atom_x (atom this) i 2) i jj in
  let itype := atom_type (atom this) i in
  let one := single this i (pg_j g) itype (pg_jtype g) (pg_rsq g) factor_coul
               (pg_factor_dpd g) fforce in
  let s' := force_pair this eflag evflag dtinvsqrt i itag itype (atom_x (atom this) i 0)
              (atom_x (atom this) i 1) (atom_x (atom this) i 2) jj s in
  (forall x y : F, x * y = y * x) ->
  interacts this i jj = true ->
  truthy eflag = true ->
  fs_evdwl s' = fst (fst one) /\
  (truthy evflag = true ->
   exists t, fs_tally s' = t :: fs_tally s /\ ty_evdwl t = fst (fst one) /\
             ty_i t = i /\ ty_j t = pg_j g).
Proof.
  intros g itype one s' Hcomm Hint He.
  unfold interacts in Hint. fold g in Hint. fold itype in Hint.
  apply andb_prop in Hint. destruct Hint as [Hcut Hdeg].
  apply negb_true_iff in Hdeg.
  subst one s'. unfold single, force_pair. fold g.
  rewrite Hcut, Hdeg, He.
  destruct (gaussian (fs_random s)) as [randnum rng]. cbn [fst snd fs_evdwl fs_tally].
  split; [apply Hcomm |].
  intros Hev. rewrite Hev. eexists. split; [reflexivity |].
  cbn [ty_evdwl ty_i ty_j]. split; [apply Hcomm | split; reflexivity].
Qed.

End SingleEnergy.

(** ** Conservation in exact arithmetic *)

Section Conservation.
Context {F : Type} {DF : Double F} {EX : Exact DF}.
Local Open Scope dbl_scope.

#[local] Existing Instance exact_is_ring.
Add Ring Fring2 : (@exact_ring F DF exact_is_ring).

Lemma sum_from_zero :
  forall n lo, sum_from n lo (fun _ => dzero) dzero = (dzero : F).
Proof.
  induction n as [| n IH]; intros lo.
  - reflexivity.
  - rewrite sum_from_S, sum_from_start, IH. ring.
Qed.

(** The sum of a term that is present at one index only. *)
Lemma sum_from_ind (t : Z) (x : F) :
  forall n lo,
    sum_from n lo (fun a => ind (a =? t)%Z x) dzero
    = ind ((lo <=? t)%Z && (t <? lo + Z.of_nat n)%Z) x.
Proof.
  induction n as [| n IH]; intros lo.
  - unfold sum_from. cbn [for_loop].
    destruct (Z.leb_spec lo t); destruct (Z.ltb_spec t (lo + Z.of_nat 0));
      cbn [andb ind]; try reflexivity; lia.
  - rewrite sum_from_S, sum_from_start, IH.
    destruct (Z.eqb_spec lo t); destruct (Z.leb_spec (lo + 1) t);
      destruct (Z.ltb_spec t (lo + 1 + Z.of_nat n)); destruct (Z.leb_spec lo t);
      destruct (Z.ltb_spec t (lo + Z.of_nat (Datatypes.S n)));
      cbn [andb ind]; try lia; ring.
Qed.

Lemma stride_cell (a t c : Z) (dx dy dz : F) :
  (0 <= c < 3)%Z ->
  ind (3 * a + c =? 3 * t)%Z dx + ind (3 * a + c =? 3 * t + 1)%Z dy
  + ind (3 * a + c =? 3 * t + 2)%Z dz
  = ind (a =? t)%Z (pick c dx dy dz).
Proof.
  intros Hc. unfold pick.
  destruct (Z.eqb_spec (3 * a + c) (3 * t)); destruct (Z.eqb_spec (3 * a + c) (3 * t + 1));
    destruct (Z.eqb_spec (3 * a + c) (3 * t + 2)); destruct (Z.eqb_spec a t);
    destruct (Z.eqb_spec c 0); destruct (Z.eqb_spec c 1);
    cbn [ind]; try lia; ring.
Qed.

Lemma component_sum_acc_add (a : Z -> F) (t c' : Z) (d : F) (n c : Z) :
  (0 <= t < n)%Z -> (0 <= c < 3)%Z -> (0 <= c' < 3)%Z ->
  component_sum n c (acc_add a (3 * t + c')%Z d)
  = component_sum n c a + ind (c =? c')%Z d.
Proof.
  intros Ht Hc Hc'. unfold component_sum. rewrite !dsum_sum_from.
  rewrite (sum_from_ext _ (fun k => a (3 * k + c)%Z + ind (k =? t)%Z (ind (c =? c')%Z d))).
  - rewrite sum_from_add, sum_from_ind.
    destruct (Z.leb_spec 0 t); destruct (Z.ltb_spec t (0 + Z.of_nat (Z.to_nat (n - 0))));
      cbn [andb ind]; try lia. reflexivity.
  - intros k _. rewrite acc_add_at.
    destruct (Z.eqb_spec (3 * k + c) (3 * t + c')); destruct (Z.eqb_spec k t);
      destruct (Z.eqb_spec c c'); cbn [ind]; try lia; ring.
Qed.

Lemma component_sum_scatter (a : Z -> F) (itag jtag : Z) (both : bool) (dx dy dz : F)
  (n c : Z) :
  (0 <= itag < n)%Z -> (0 <= jtag < n)%Z -> (0 <= c < 3)%Z ->
  component_sum n c (scatter a itag jtag both dx dy dz)
  = component_sum n c a + pick c dx dy dz - (if both then pick c dx dy dz else dzero).
Proof.
  intros Hi Hj Hc. unfold component_sum. rewrite !dsum_sum_from.
  rewrite (sum_from_ext _
             (fun k => a (3 * k + c)%Z
                       + (ind (k =? itag)%Z (pick c dx dy dz)
                          + ind (k =? jtag)%Z (- (if both then pick c dx dy dz else dzero))))).
  - rewrite !sum_from_add, !sum_from_ind.
    destruct (Z.leb_spec 0 itag); destruct (Z.leb_spec 0 jtag);
      destruct (Z.ltb_spec itag (0 + Z.of_nat (Z.to_nat (n - 0))));
      destruct (Z.ltb_spec jtag (0 + Z.of_nat (Z.to_nat (n - 0))));
      cbn [andb ind]; try lia. ring.
  - intros k _. rewrite scatter_at.
    rewrite (stride_cell k itag c dx dy dz Hc).
    destruct both.
    + rewrite (stride_cell k jtag c dx dy dz Hc).
      destruct (k =? jtag)%Z; cbn [ind]; ring.
    + destruct (k =? jtag)%Z; cbn [ind]; ring.
Qed.

Lemma component_sum_zeros (n c : Z) : component_sum n c (fun _ : Z => dzero) = (dzero : F).
Proof. unfold component_sum. rewrite dsum_sum_from. apply sum_from_zero. Qed.

(** One round of the neighbor loop of [compute] leaves the component sums of
    the force vector as they are. *)
Lemma force_pair_component_sum (this : PairDPDJung F) (eflag evflag : Z) (dtinvsqrt : F)
  (ii jj : Z) (s : ForceState F) (n c : Z) :
  tags_below this n -> every_neighbor_updated this ->
  (0 <= ii < list_inum (nlist this))%Z ->
  (0 <= jj < list_numneigh (nlist this) (list_ilist (nlist this) ii))%Z ->
  (0 <= c < 3)%Z ->
  component_sum n c
    (fs_f (force_pair this eflag evflag dtinvsqrt (list_ilist (nlist this) ii)
             (atom_tag (atom this) (list_ilist (nlist this) ii) - 1)
             (atom_type (atom this) (list_ilist (nlist this) ii))
             (atom_x (atom this) (list_ilist (nlist this) ii) 0)
             (atom_x (atom this) (list_ilist (nlist this) ii) 1)
             (atom_x (atom this) (list_ilist (nlist this) ii) 2) jj s))
  = component_sum n c (fs_f s).
Proof.
  intros [Hi Hj] Hupd Hii Hjj Hc. unfold force_pair.
  set (g := pair_geom this _ _ _ (list_ilist (nlist this) ii) jj).
  destruct (pg_rsq g <? cutsq this _ _); [| reflexivity].
  destruct (dsqrt (pg_rsq g) <? EPSILON); [reflexivity |].
  destruct (gaussian (fs_random s)) as [randnum rng]. cbn [fs_f].
  rewrite component_sum_scatter; [| apply Hi; exact Hii | apply (Hj ii jj Hii Hjj) | exact Hc].
  subst g. cbn [pg_j pair_geom]. rewrite (Hupd ii jj Hii Hjj). ring.
Qed.

(** X13.  Momentum in [compute].  In exact arithmetic, when the entries of
    every listed atom and of every listed neighbor lie in the first [3 n] cells
    and the test [newton_pair || j < nlocal] passes for every listed neighbor:
    for each of the three components, the entries of the force vector
    [f_step] add up to zero when the neighbor loops end, whatever the random
    numbers were. *)
Lemma compute_conserves_momentum (this : PairDPDJung F) (eflag vflag : Z) (n c : Z) :
  tags_below this n -> every_neighbor_updated this -> (0 <= c < 3)%Z ->
  component_sum n c (fs_f (fst (compute_forces this eflag vflag))) = dzero.
Proof.
  intros Htags Hupd Hc. unfold compute_forces.
  destruct (if truthy eflag || truthy vflag then ev_setup (base this) eflag vflag
            else (0, 0)%Z) as [evflag vflag_fdotr].
  cbn [fst].
  apply (for_range_ind (fun s => component_sum n c (fs_f s) = dzero)).
  - cbn [fs_f]. apply component_sum_zeros.
  - intros ii s Hii Hs. unfold force_atom. cbv zeta.
    apply (for_range_ind (fun s => component_sum n c (fs_f s) = dzero)); [exact Hs |].
    intros jj t Hjj Ht. rewrite force_pair_component_sum; assumption.
Qed.

(** The same for [compute_step]; the identity term adds the entry of the
    input. *)
Lemma step_pair_component_sum (this : PairDPDJung F) (input : Z -> F) (pre : F)
  (vxtmp vytmp vztmp : F) (ii jj : Z) (s : StepState F) (n c : Z) :
  tags_below this n -> every_neighbor_updated this ->
  (0 <= ii < list_inum (nlist this))%Z ->
  (0 <= jj < list_numneigh (nlist this) (list_ilist (nlist this) ii))%Z ->
  (0 <= c < 3)%Z ->
  component_sum n c
    (ss_out (step_pair this input pre (list_ilist (nlist this) ii)
               (atom_tag (atom this) (list_ilist (nlist this) ii) - 1)
               (atom_type (atom this) (list_ilist (nlist this) ii))
               (atom_x (atom this) (list_ilist (nlist this) ii) 0)
               (atom_x (atom this) (list_ilist (nlist this) ii) 1)
               (atom_x (atom this) (list_ilist (nlist this) ii) 2)
               vxtmp vytmp vztmp jj s))
  = component_sum n c (ss_out s).
Proof.
  intros [Hi Hj] Hupd Hii Hjj Hc. unfold step_pair.
  set (g := pair_geom this _ _ _ (list_ilist (nlist this) ii) jj).
  destruct (pg_rsq g <? cutsq this _ _); [| reflexivity].
  destruct (dsqrt (pg_rsq g) <? EPSILON); [reflexivity |].
  cbn [ss_out].
  rewrite component_sum_scatter; [| apply Hi; exact Hii | apply (Hj ii jj Hii Hjj) | exact Hc].
  subst g. cbn [pg_j pair_geom]. rewrite (Hupd ii jj Hii Hjj). ring.
Qed.

Lemma step_atom_component_sum (this : PairDPDJung F) (input : Z -> F) (pre : F)
  (ii : Z) (s : StepState F) (n c : Z) :
  tags_below this n -> every_neighbor_updated this ->
  (0 <= ii < list_inum (nlist this))%Z -> (0 <= c < 3)%Z ->
  component_sum n c (ss_out (step_atom this input pre ii s))
  = component_sum n c (ss_out s)
    + input (3 * (atom_tag (atom this) (list_ilist (nlist this) ii) - 1) + c)%Z.
Proof.
  intros Htags Hupd Hii Hc. unfold step_atom. cbv zeta.
  set (itag := (atom_tag (atom this) (list_ilist (nlist this) ii) - 1)%Z).
  assert (Hitag : (0 <= itag < n)%Z) by (apply (proj1 Htags); exact Hii).
  match goal with
  | |- component_sum n c (ss_out (for_range 0 ?m ?body ?s0)) = _ =>
      transitivity (component_sum n c (ss_out s0));
        [apply (for_range_ind
                  (fun t => component_sum n c (ss_out t) = component_sum n c (ss_out s0)));
           [reflexivity |] |]
  end.
  - intros jj t Hjj Ht. rewrite <- Ht. apply step_pair_component_sum; assumption.
  - cbn [ss_out].
    rewrite !component_sum_acc_add by lia.
    rewrite <- (Z.add_0_r (3 * itag)) at 1.
    rewrite component_sum_acc_add by lia.
    assert (Hc3 : c = 0%Z \/ c = 1%Z \/ c = 2%Z) by lia.
    destruct Hc3 as [-> | [-> | ->]]; cbn [Z.eqb Pos.eqb ind]; rewrite ?Z.add_0_r; ring.
Qed.

(** X14.  The same for [compute_step].  Under the same conditions, for each
    component [c] the entries of the output buffer add up, on return, to what
    they added up to on entry plus the entries of component [c] of [input] at
    the listed atoms: the friction part of the operator adds nothing to the
    sum. *)
Lemma compute_step_conserves_sums (this : PairDPDJung F) (input output : Z -> F) (n c : Z) :
  tags_below this n -> every_neighbor_updated this -> (0 <= c < 3)%Z ->
  component_sum n c (compute_step this input output)
  = component_sum n c output
    + dsum (list_inum (nlist this))
        (fun ii => input (3 * (atom_tag (atom this) (list_ilist (nlist this) ii) - 1) + c)%Z).
Proof.
  intros Htags Hupd Hc. unfold compute_step, compute_step_from, for_range.
  rewrite (for_loop_adds (fun s => component_sum n c (ss_out s)) _
             (fun ii => input (3 * (atom_tag (atom this) (list_ilist (nlist this) ii) - 1)
                               + c)%Z)).
  - reflexivity.
  - intros ii t Hii. apply step_atom_component_sum; try assumption. lia.
Qed.

End Conservation.

(** ** The operator is symmetric and positive definite *)

Section SelfAdjoint.
Context {F : Type} {DF : Double F} {EX : Exact DF}.
Local Open Scope dbl_scope.

#[local] Existing Instance exact_is_ring.
Add Ring Fring3 : (@exact_ring F DF exact_is_ring).

Lemma vdot_acc_add (u a : Z -> F) (k : Z) (d : F) (m : Z) :
  (0 <= k < m)%Z -> vdot m u (acc_add a k d) = vdot m u a + u k * d.
Proof.
  intros Hk. unfold vdot. rewrite !dsum_sum_from.
  rewrite (sum_from_ext _ (fun i => u i * a i + ind (i =? k)%Z (u k * d))).
  - rewrite sum_from_add, sum_from_ind.
    destruct (Z.leb_spec 0 k); destruct (Z.ltb_spec k (0 + Z.of_nat (Z.to_nat (m - 0))));
      cbn [andb ind]; try lia. reflexivity.
  - intros i _. rewrite acc_add_at. destruct (Z.eqb_spec i k) as [-> |]; cbn [ind]; ring.
Qed.

Lemma vdot_acc_sub (u a : Z -> F) (k : Z) (d : F) (m : Z) :
  (0 <= k < m)%Z -> vdot m u (acc_sub a k d) = vdot m u a - u k * d.
Proof.
  intros Hk. unfold vdot. rewrite !dsum_sum_from.
  rewrite (sum_from_ext _ (fun i => u i * a i + ind (i =? k)%Z (- (u k * d)))).
  - rewrite sum_from_add, sum_from_ind.
    destruct (Z.leb_spec 0 k); destruct (Z.ltb_spec k (0 + Z.of_nat (Z.to_nat (m - 0))));
      cbn [andb ind]; try lia. ring.
  - intros i _. rewrite acc_sub_at. destruct (Z.eqb_spec i k) as [-> |]; cbn [ind]; ring.
Qed.

Lemma vdot_scatter (u a : Z -> F) (itag jtag : Z) (both : bool) (dx dy dz : F) (n : Z) :
  (0 <= itag < n)%Z -> (0 <= jtag < n)%Z ->
  vdot (3 * n) u (scatter a itag jtag both dx dy dz)
  = vdot (3 * n) u a
    + (u (3 * itag)%Z * dx + u (3 * itag + 1)%Z * dy + u (3 * itag + 2)%Z * dz)
    - (if both
       then u (3 * jtag)%Z * dx + u (3 * jtag + 1)%Z * dy + u (3 * jtag + 2)%Z * dz
       else dzero).
Proof.
  intros Hi Hj. unfold scatter.
  destruct both; rewrite ?vdot_acc_sub, ?vdot_acc_add by lia; ring.
Qed.

Lemma vdot_zeros (u : Z -> F) (m : Z) : vdot m u zeros = dzero.
Proof.
  unfold vdot. rewrite dsum_sum_from.
  rewrite (sum_from_ext _ (fun _ => dzero)) by (intros; unfold zeros; ring).
  apply sum_from_zero.
Qed.

(** One round of the neighbor loop, run on [v] and on [u]: the two inner
    products stay equal. *)
Lemma step_pair_adjoint (this : PairDPDJung F) (u v : Z -> F) (pre : F) (ii jj : Z)
  (su sv : StepState F) (n : Z) :
  let i := list_ilist (nlist this) ii in
  (atom_tag (atom this) i - 1)%Z = i ->
  tags_below this n -> every_neighbor_updated this ->
  (0 <= ii < list_inum (nlist this))%Z ->
  (0 <= jj < list_numneigh (nlist this) i)%Z ->
  vdot (3 * n) u (ss_out sv) = vdot (3 * n) v (ss_out su) ->
  vdot (3 * n) u
    (ss_out (step_pair this v pre i (atom_tag (atom this) i - 1) (atom_type (atom this) i)
               (atom_x (atom this) i 0) (atom_x (atom this) i 1) (atom_x (atom this) i 2)
               (v (3 * i)%Z) (v (3 * i + 1)%Z) (v (3 * i + 2)%Z) jj sv))
  = vdot (3 * n) v
      (ss_out (step_pair this u pre i (atom_tag (atom this) i - 1) (atom_type (atom this) i)
                 (atom_x (atom this) i 0) (atom_x (atom this) i 1) (atom_x (atom this) i 2)
                 (u (3 * i)%Z) (u (3 * i + 1)%Z) (u (3 * i + 2)%Z) jj su)).
Proof.
  intros i Htag [Hi Hj] Hupd Hii Hjj H. unfold step_pair.
  set (g := pair_geom this _ _ _ i jj).
  destruct (pg_rsq g <? cutsq this _ _); [| exact H].
  destruct (dsqrt (pg_rsq g) <? EPSILON); [exact H |].
  cbn [ss_out].
  assert (Hit : (0 <= atom_tag (atom this) i - 1 < n)%Z) by (apply Hi; exact Hii).
  assert (Hjt : (0 <= pg_jtag g < n)%Z) by (apply (Hj ii jj Hii Hjj)).
  rewrite !vdot_scatter by assumption.
  assert (Hb : updates_j this (pg_j g) = true) by (apply (Hupd ii jj Hii Hjj)).
  rewrite Hb, H, !Htag.
  set (K := done / dsqrt (pg_rsq g)). clearbody K.
  set (w := done - _ / _). clearbody w.
  set (jt := pg_jtag g). clearbody jt.
  ring.
Qed.

Lemma step_atom_adjoint (this : PairDPDJung F) (u v : Z -> F) (pre : F) (ii : Z)
  (su sv : StepState F) (n : Z) :
  (atom_tag (atom this) (list_ilist (nlist this) ii) - 1)%Z = list_ilist (nlist this) ii ->
  tags_below this n -> every_neighbor_updated this ->
  (0 <= ii < list_inum (nlist this))%Z ->
  vdot (3 * n) u (ss_out sv) = vdot (3 * n) v (ss_out su) ->
  vdot (3 * n) u (ss_out (step_atom this v pre ii sv))
  = vdot (3 * n) v (ss_out (step_atom this u pre ii su)).
Proof.
  intros Htag Htags Hupd Hii H. unfold step_atom. cbv zeta.
  apply (for_range_rel
           (fun s s' => vdot (3 * n) u (ss_out s) = vdot (3 * n) v (ss_out s'))).
  - cbn [ss_out].
    assert (Hit : (0 <= atom_tag (atom this) (list_ilist (nlist this) ii) - 1 < n)%Z)
      by (apply (proj1 Htags); exact Hii).
    rewrite !vdot_acc_add by lia. rewrite H. ring.
  - intros jj s s' Hjj Hs. apply step_pair_adjoint; assumption.
Qed.

(** X15.  The operator of [compute_step] is symmetric.  In exact arithmetic,
    when the tag of every listed atom is its local index plus one, the entries
    of every listed atom and neighbor lie in the first [3 n] cells and the test
    [newton_pair || j < nlocal] passes for every listed neighbor: for all state
    vectors [u] and [v], the inner product of [u] with the image of [v] equals
    the inner product of [v] with the image of [u] (both images computed from
    zeroed buffers).  This is the symmetry the Lanczos iteration of
    [compute_inverse] relies on. *)
Lemma compute_step_self_adjoint (this : PairDPDJung F) (u v : Z -> F) (n : Z) :
  tags_are_indices this -> tags_below this n -> every_neighbor_updated this ->
  vdot (3 * n) u (compute_step this v zeros) = vdot (3 * n) v (compute_step this u zeros).
Proof.
  intros Hidx Htags Hupd. unfold compute_step, compute_step_from.
  apply (for_range_rel
           (fun s s' => vdot (3 * n) u (ss_out s) = vdot (3 * n) v (ss_out s'))).
  - cbn [ss_out]. now rewrite !vdot_zeros.
  - intros ii s s' Hii Hs. apply step_atom_adjoint; try assumption. apply Hidx. exact Hii.
Qed.

End SelfAdjoint.

Section Definite.
Local Open Scope R_scope.

Lemma step_pair_grows (this : PairDPDJung R) (u : Z -> R) (ii jj : Z) (s : StepState R)
  (n : Z) :
  let i := list_ilist (nlist this) ii in
  (atom_tag (atom this) i - 1)%Z = i ->
  tags_below this n -> every_neighbor_updated this ->
  0 <= update_dt (update this) ->
  (forall a b, 0 <= gamma this a b) -> (forall k, 0 <= force_special_lj (force this) k) ->
  (0 <= ii < list_inum (nlist this))%Z ->
  (0 <= jj < list_numneigh (nlist this) i)%Z ->
  vdot (3 * n) u (ss_out s)
  <= vdot (3 * n) u
       (ss_out (step_pair this u (- update_dt (update this) / 2) i
                  (atom_tag (atom this) i - 1) (atom_type (atom this) i)
                  (atom_x (atom this) i 0) (atom_x (atom this) i 1)
                  (atom_x (atom this) i 2)
                  (u (3 * i)%Z) (u (3 * i + 1)%Z) (u (3 * i + 2)%Z) jj s)).
Proof.
  intros i Htag [Hi Hj] Hupd Hdt Hgamma Hfactor Hii Hjj. unfold step_pair.
  set (g := pair_geom this _ _ _ i jj).
  destruct (dlt (pg_rsq g) (cutsq this _ _)); [| apply Rle_refl].
  destruct (dlt (dsqrt (pg_rsq g)) EPSILON); [apply Rle_refl |].
  cbn [ss_out].
  assert (Hit : (0 <= atom_tag (atom this) i - 1 < n)%Z) by (apply Hi; exact Hii).
  assert (Hjt : (0 <= pg_jtag g < n)%Z) by (apply (Hj ii jj Hii Hjj)).
  rewrite (@vdot_scatter R R_Double R_Exact) by assumption.
  assert (Hb : updates_j this (pg_j g) = true) by (apply (Hupd ii jj Hii Hjj)).
  rewrite Hb, !Htag.
  cbn [dadd dsub dmul ddiv dneg done dtwo R_Double].
  set (rinv := 1 / dsqrt (pg_rsq g)).
  set (w := 1 - _ / _).
  set (jt := pg_jtag g).
  set (dot := pg_delx g * (u (3 * i)%Z - u (3 * jt)%Z)
              + pg_dely g * (u (3 * i + 1)%Z - u (3 * jt + 1)%Z)
              + pg_delz g * (u (3 * i + 2)%Z - u (3 * jt + 2)%Z)).
  set (G := gamma this (atom_type (atom this) i) (pg_jtype g)).
  set (fac := pg_factor_dpd g).
  set (dt := update_dt (update this)) in *.
  assert (HG : 0 <= G) by apply Hgamma.
  assert (Hfac : 0 <= fac) by apply Hfactor.
  match goal with
  | |- ?a <= ?a + ?x - ?y =>
      assert (Hxy : x - y = (G * fac * (dt / 2)) * ((w * rinv * dot) * (w * rinv * dot)))
        by (subst dot; field)
  end.
  assert (Hpos : 0 <= (G * fac * (dt / 2)) * ((w * rinv * dot) * (w * rinv * dot))).
  { apply Rmult_le_pos.
    - apply Rmult_le_pos; [apply Rmult_le_pos; assumption | lra].
    - apply Rle_0_sqr. }
  lra.
Qed.

Lemma step_atom_grows (this : PairDPDJung R) (u : Z -> R) (ii : Z) (s : StepState R)
  (n : Z) :
  let itag := (atom_tag (atom this) (list_ilist (nlist this) ii) - 1)%Z in
  itag = list_ilist (nlist this) ii ->
  tags_below this n -> every_neighbor_updated this ->
  0 <= update_dt (update this) ->
  (forall a b, 0 <= gamma this a b) -> (forall k, 0 <= force_special_lj (force this) k) ->
  (0 <= ii < list_inum (nlist this))%Z ->
  vdot (3 * n) u (ss_out s)
  + (u (3 * itag)%Z * u (3 * itag)%Z + u (3 * itag + 1)%Z * u (3 * itag + 1)%Z
     + u (3 * itag + 2)%Z * u (3 * itag + 2)%Z)
  <= vdot (3 * n) u (ss_out (step_atom this u (- update_dt (update this) / 2) ii s)).
Proof.
  intros itag Htag Htags Hupd Hdt Hgamma Hfactor Hii. unfold step_atom. cbv zeta.
  fold itag.
  assert (Hit : (0 <= itag < n)%Z) by (apply (proj1 Htags); exact Hii).
  match goal with
  | |- ?lhs <= vdot _ u (ss_out (for_range 0 ?m ?body ?s0)) =>
      apply (for_range_ind (fun t => lhs <= vdot (3 * n) u (ss_out t)))
  end.
  - cbn [ss_out].
    rewrite !(@vdot_acc_add R R_Double R_Exact) by lia.
    cbn [dadd dmul R_Double]. lra.
  - intros jj t Hjj Ht. eapply Rle_trans; [exact Ht |].
    apply step_pair_grows; assumption.
Qed.

Lemma for_loop_lower {S : Type} (obs : S -> R) (body : Z -> S -> S) (delta : Z -> R) :
  forall n lo s,
    (forall i t, (lo <= i < lo + Z.of_nat n)%Z -> obs t + delta i <= obs (body i t)) ->
    obs s + sum_from n lo delta 0 <= obs (for_loop n lo body s).
Proof.
  induction n as [| n IH]; intros lo s H.
  - unfold sum_from. cbn [for_loop]. lra.
  - rewrite sum_from_S. cbn [for_loop].
    rewrite (@sum_from_start R R_Double R_Exact).
    cbn [dadd dzero R_Double].
    eapply Rle_trans; [| apply IH; intros i t Hi; apply H; lia].
    pose proof (H lo s ltac:(lia)). lra.
Qed.

Lemma sum_from_vanishes (t : Z -> R) :
  forall n lo,
    (forall i, (lo <= i < lo + Z.of_nat n)%Z -> 0 <= t i) ->
    sum_from n lo t 0 <= 0 ->
    forall i, (lo <= i < lo + Z.of_nat n)%Z -> t i = 0.
Proof.
  induction n as [| n IH]; intros lo Hpos Hsum i Hi; [lia |].
  rewrite sum_from_S, (@sum_from_start R R_Double R_Exact) in Hsum.
  cbn [dadd dzero R_Double] in Hsum.
  assert (Hrest : 0 <= sum_from n (lo + 1) t 0).
  { pose proof (for_loop_lower (fun x : R => x) (fun i acc => acc + t i)
                  (fun _ => 0) n (lo + 1)%Z 0) as Hl.
    assert (Hz : sum_from n (lo + 1) (fun _ => 0) 0 = 0)
      by apply (@sum_from_zero R R_Double R_Exact).
    unfold sum_from in *. cbn [dadd R_Double] in *.
    rewrite Hz in Hl. cbn beta in Hl.
    assert (Hl' : 0 + 0 <= for_loop n (lo + 1) (fun i acc => acc + t i) 0).
    { apply Hl. intros k x Hk. pose proof (Hpos k ltac:(lia)). lra. }
    lra. }
  pose proof (Hpos lo ltac:(lia)) as Hlo.
  destruct (Z.eq_dec i lo) as [-> | Hne]; [lra |].
  apply (IH (lo + 1)%Z); [intros k Hk; apply Hpos; lia | lra | lia].
Qed.

(** The quadratic form of the operator, and its kernel. *)
Lemma compute_step_kernel (this : PairDPDJung R) (u : Z -> R) (n : Z) :
  tags_are_indices this -> tags_below this n -> every_neighbor_updated this ->
  0 <= update_dt (update this) ->
  (forall a b, 0 <= gamma this a b) -> (forall k, 0 <= force_special_lj (force this) k) ->
  listed_square this u <= vdot (3 * n) u (compute_step this u zeros) /\
  ((forall k, compute_step this u zeros k = 0) ->
   forall ii c, (0 <= ii < list_inum (nlist this))%Z -> (0 <= c < 3)%Z ->
     u (3 * (atom_tag (atom this) (list_ilist (nlist this) ii) - 1) + c)%Z = 0).
Proof.
  intros Hidx Htags Hupd Hdt Hgamma Hfactor.
  assert (Hmain : listed_square this u <= vdot (3 * n) u (compute_step this u zeros)).
  { unfold compute_step, compute_step_from, listed_square, for_range.
    rewrite dsum_sum_from.
    cbn [dadd dsub dmul ddiv dneg done dtwo R_Double].
    match goal with
    | |- sum_from ?m 0 ?delta _ <= vdot _ u (ss_out (for_loop _ 0 ?body ?s0)) =>
        pose proof (for_loop_lower (fun s => vdot (3 * n) u (ss_out s)) body delta m 0%Z s0)
          as Hl
    end.
    cbn [ss_out] in Hl. rewrite (@vdot_zeros R R_Double R_Exact) in Hl.
    cbn [dzero R_Double] in Hl. rewrite Rplus_0_l in Hl. apply Hl.
    intros ii t Hii. apply step_atom_grows; try assumption; [| lia].
    apply Hidx. lia. }
  split; [exact Hmain |].
  intros Hzero ii c Hii Hc.
  assert (Hv : vdot (3 * n) u (compute_step this u zeros) = 0).
  { unfold vdot. rewrite dsum_sum_from.
    rewrite (sum_from_ext _ (fun _ => 0))
      by (intros; rewrite Hzero; cbn [dmul R_Double]; lra).
    apply (@sum_from_zero R R_Double R_Exact). }
  rewrite Hv in Hmain. unfold listed_square in Hmain. rewrite dsum_sum_from in Hmain.
  cbn [dadd dmul dzero R_Double] in Hmain.
  match type of Hmain with
  | sum_from ?m 0 ?t 0 <= 0 =>
      assert (Hsq : t ii = 0);
        [apply (sum_from_vanishes t m 0%Z); [| exact Hmain | lia] |]
  end.
  { intros k Hk. cbv beta zeta. nra. }
  cbv beta zeta in Hsq.
  set (itag := (atom_tag (atom this) (list_ilist (nlist this) ii) - 1)%Z) in *.
  assert (Hc3 : c = 0%Z \/ c = 1%Z \/ c = 2%Z) by lia.
  destruct Hc3 as [-> | [-> | ->]]; rewrite ?Z.add_0_r; nra.
Qed.

(** X16.  The operator of [compute_step] is positive definite.  On the reals,
    under the conditions of X15 and with a time step, friction coefficients
    and special-bond factors that are not negative: the inner product of a
    state vector [u] with its image is at least the squared length of the
    entries of [u] at the listed atoms; and two state vectors with the same
    image (each computed from a zeroed buffer) agree at every entry of every
    listed atom, so that the linear system handed to [compute_inverse] has at
    most one solution there. *)
Lemma compute_step_positive_definite (this : PairDPDJung R) (u v : Z -> R) (n : Z) :
  tags_are_indices this -> tags_below this n -> every_neighbor_updated this ->
  0 <= update_dt (update this) ->
  (forall a b, 0 <= gamma this a b) -> (forall k, 0 <= force_special_lj (force this) k) ->
  listed_square this u <= vdot (3 * n) u (compute_step this u zeros) /\
  ((forall k, compute_step this u zeros k = compute_step this v zeros k) ->
   forall ii c, (0 <= ii < list_inum (nlist this))%Z -> (0 <= c < 3)%Z ->
     u (3 * (atom_tag (atom this) (list_ilist (nlist this) ii) - 1) + c)%Z
     = v (3 * (atom_tag (atom this) (list_ilist (nlist this) ii) - 1) + c)%Z).
Proof.
  intros Hidx Htags Hupd Hdt Hgamma Hfactor.
  split; [apply (compute_step_kernel this u n); assumption |].
  intros Hsame ii c Hii Hc.
  pose (w := fun k => 1 * u k + (-1) * v k).
  assert (Hw : forall k, compute_step this w zeros k = 0).
  { intros k. unfold compute_step.
    rewrite (@compute_step_from_combined R R_Double R_ExactRing this u v w 1 (-1)
               {| ss_out := zeros; ss_divs := [] |} {| ss_out := zeros; ss_divs := [] |}
               {| ss_out := zeros; ss_divs := [] |}).
    - fold (compute_step this u zeros k). fold (compute_step this v zeros k).
      rewrite Hsame. cbn [dadd dmul R_Double]. lra.
    - intros m. reflexivity.
    - intros m. cbn [ss_out dadd dmul R_Double]. unfold zeros. cbn [dzero R_Double]. lra. }
  pose proof (proj2 (compute_step_kernel this w n Hidx Htags Hupd Hdt Hgamma Hfactor)
                Hw ii c Hii Hc) as Hz.
  unfold w in Hz. lra.
Qed.

End Definite.

(** ** Other forms of the operator *)

Section OperatorForms.
Context {F : Type} {DF : Double F} {EX : Exact DF}.
Local Open Scope dbl_scope.

#[local] Existing Instance exact_is_ring.
Add Ring Fring4 : (@exact_ring F DF exact_is_ring).

(** [compute_step] adds the operator with the test of line 540 to its
    buffer. *)
Lemma compute_step_adds_operator (this : PairDPDJung F) (input output : Z -> F) (k : Z) :
  tags_are_indices this ->
  compute_step this input output k = output k + spec_step (updates_j this) this input k.
Proof.
  intros Htags. unfold compute_step, compute_step_from, for_range.
  rewrite (for_loop_adds (fun s => ss_out s k) _ (fun ii => atom_share this input ii k)).
  - cbn [ss_out]. unfold spec_step, Identity_owned, Gamma.
    rewrite !dsum_sum_from.
    unfold atom_share.
    rewrite (sum_from_add
               (fun ii =>
                  ind (k =? 3 * (atom_tag (atom this) (list_ilist (nlist this) ii) - 1))%Z
                    (input k)
                  + ind (k =? 3 * (atom_tag (atom this) (list_ilist (nlist this) ii) - 1) + 1)%Z
                      (input k)
                  + ind (k =? 3 * (atom_tag (atom this) (list_ilist (nlist this) ii) - 1) + 2)%Z
                      (input k))).
    rewrite (sum_from_ext
               (fun ii => - (update_dt (update this) / dtwo
                             * dsum (list_numneigh (nlist this) (list_ilist (nlist this) ii))
                                 (fun jj => Gamma_pair (updates_j this) this input
                                              (list_ilist (nlist this) ii) jj k)))
               (fun ii => (- (update_dt (update this) / dtwo))
                          * dsum (list_numneigh (nlist this) (list_ilist (nlist this) ii))
                              (fun jj => Gamma_pair (updates_j this) this input
                                           (list_ilist (nlist this) ii) jj k)))
      by (intros; ring).
    rewrite (sum_from_scale (- (update_dt (update this) / dtwo))). ring.
  - intros ii t Hii. apply step_atom_adds. apply Htags. lia.
Qed.

(** The operator depends on the test [both] through the listed neighbors
    only. *)
Lemma Gamma_ext (both both' : Z -> bool) (this : PairDPDJung F) (u : Z -> F) (k : Z) :
  (forall ii jj,
     (0 <= ii < list_inum (nlist this))%Z ->
     (0 <= jj < list_numneigh (nlist this) (list_ilist (nlist this) ii))%Z ->
     Gamma_pair both this u (list_ilist (nlist this) ii) jj k
     = Gamma_pair both' this u (list_ilist (nlist this) ii) jj k) ->
  Gamma both this u k = Gamma both' this u k.
Proof.
  intros H. unfold Gamma. rewrite !dsum_sum_from.
  apply sum_from_ext. intros ii Hii. cbv zeta. rewrite !dsum_sum_from.
  apply sum_from_ext. intros jj Hjj. apply H; lia.
Qed.

Lemma compute_step_newton_on (this : PairDPDJung F) (input output : Z -> F) (k : Z) :
  tags_are_indices this -> force_newton_pair (force this) <> 0%Z ->
  compute_step this input output k = output k + claimed_step this input k.
Proof.
  intros Htags Hnewton. rewrite compute_step_adds_operator by exact Htags.
  unfold claimed_step, spec_step. f_equal. f_equal. f_equal.
  apply Gamma_ext. intros ii jj _ _. unfold Gamma_pair.
  unfold updates_j, truthy. apply Z.eqb_neq in Hnewton. rewrite Hnewton. reflexivity.
Qed.

(** A pair whose two particles have the same trial velocity has no
    friction. *)
Lemma friction_coeff_rest (this : PairDPDJung F) (u : Z -> F) (i jj : Z) :
  (forall c, (0 <= c < 3)%Z ->
     u (3 * (atom_tag (atom this) i - 1) + c)%Z = u (3 * neighbor_tag this i jj + c)%Z) ->
  friction_coeff this u i jj = dzero.
Proof.
  intros H. destruct (@exact_div F DF EX) as [inv Hdiv].
  unfold friction_coeff. cbv zeta.
  set (g := pair_geom this _ _ _ i jj).
  change (neighbor_tag this i jj) with (pg_jtag g) in H.
  destruct (pg_rsq g <? cutsq this _ _); [| reflexivity].
  destruct (dsqrt (pg_rsq g) <? EPSILON); [reflexivity |].
  pose proof (H 0%Z ltac:(lia)) as H0. pose proof (H 1%Z ltac:(lia)) as H1.
  pose proof (H 2%Z ltac:(lia)) as H2. rewrite !Z.add_0_r in H0.
  rewrite H0, H1, H2, !Hdiv. ring.
Qed.

(** X17.  No friction without relative motion.  In exact arithmetic, when the
    tag of every listed atom is its local index plus one and the input gives
    every listed atom the same three entries as each of its listed neighbors:
    [compute_step] adds the identity term alone to its buffer, the entry
    [input k] for each listed atom holding [k]; a vector that moves all
    particles alike is left as it is. *)
Lemma compute_step_at_rest (this : PairDPDJung F) (u output : Z -> F) (k : Z) :
  tags_are_indices this ->
  (forall ii jj c,
     (0 <= ii < list_inum (nlist this))%Z ->
     (0 <= jj < list_numneigh (nlist this) (list_ilist (nlist this) ii))%Z ->
     (0 <= c < 3)%Z ->
     u (3 * (atom_tag (atom this) (list_ilist (nlist this) ii) - 1) + c)%Z
     = u (3 * neighbor_tag this (list_ilist (nlist this) ii) jj + c)%Z) ->
  compute_step this u output k = output k + Identity_owned this u k.
Proof.
  intros Htags Hrest. rewrite compute_step_adds_operator by exact Htags.
  unfold spec_step.
  assert (HG : Gamma (updates_j this) this u k = dzero).
  { unfold Gamma. rewrite dsum_sum_from.
    rewrite (sum_from_ext _ (fun _ => dzero)); [apply sum_from_zero |].
    intros ii Hii. cbv zeta. rewrite dsum_sum_from.
    rewrite (sum_from_ext _ (fun _ => dzero)); [apply sum_from_zero |].
    intros jj Hjj. unfold Gamma_pair.
    rewrite friction_coeff_rest by (intros c Hc; apply Hrest; lia).
    unfold ind.
    repeat match goal with |- context [if ?b then _ else _] => destruct b end; ring. }
  rewrite HG. ring.
Qed.

(** X18.  [single] against [compute].  In exact arithmetic, for a listed
    neighbor that passes the cutoff and the [EPSILON] tests: the force factor
    [fpair] of lines 142-144, which [compute] applies and hands to [ev_tally],
    is the factor [fforce] that [single] stores for the same pair plus the
    random term [sigma * wd * randnum * dtinvsqrt] times
    [factor_dpd * rinv]. *)
Lemma single_agrees_with_compute (this : PairDPDJung F) (eflag evflag : Z) (dtinvsqrt : F)
  (i itag jj : Z) (s : ForceState F) (factor_coul fforce : F) :
  let g := pair_geom this (atom_x (atom this) i 0) (atom_x (atom this) i 1)
             (atom_x (atom this) i 2) i jj in
  let itype := atom_type (atom this) i in
  let one := single this i (pg_j g) itype (pg_jtype g) (pg_rsq g) factor_coul
               (pg_factor_dpd g) fforce in
  let s' := force_pair this eflag evflag dtinvsqrt i itag itype (atom_x (atom this) i 0)
              (atom_x (atom this) i 1) (atom_x (atom this) i 2) jj s in
  let r := dsqrt (pg_rsq g) in
  let noise := sigma this itype (pg_jtype g) * (done - r / cut this itype (pg_jtype g))
               * fst (gaussian (fs_random s)) * dtinvsqrt in
  interacts this i jj = true ->
  fpair_of this dtinvsqrt itype g (fst (gaussian (fs_random s)))
  = snd (fst one) + noise * (pg_factor_dpd g * (done / r)) /\
  (truthy evflag = true ->
   exists t, fs_tally s' = t :: fs_tally s /\
             ty_fpair t = snd (fst one) + noise * (pg_factor_dpd g * (done / r))).
Proof.
  intros g itype one s' r noise Hint.
  unfold interacts in Hint. fold g in Hint. fold itype in Hint.
  apply andb_prop in Hint. destruct Hint as [Hcut Hdeg].
  apply negb_true_iff in Hdeg. fold r in Hdeg.
  subst one s'. unfold single, force_pair, fpair_of. fold g. fold r.
  rewrite Hcut, Hdeg.
  destruct (gaussian (fs_random s)) as [randnum rng]. cbn [fst snd] in *.
  subst noise. cbn [fst snd fs_evdwl fs_tally].
  split; [ring |].
  intros Hev. rewrite Hev. eexists. split; [reflexivity |].
  cbn [ty_fpair]. ring.
Qed.

End OperatorForms.

(** ** [compute_step] accumulates into its buffer (C10) *)

Section Accumulation.
Context {F : Type} {DF : Double F}.
Local Open Scope dbl_scope.

Lemma accumulate_app (ds es : list (Increment F)) (x : F) :
  accumulate (ds ++ es) x = accumulate es (accumulate ds x).
Proof. unfold accumulate. apply fold_left_app. Qed.

Lemma accumulating_then (k : Z) (f g : (Z -> F) -> Z -> F) :
  accumulating k f -> accumulating k g -> accumulating k (fun a => g (f a)).
Proof.
  intros [ds Hf] [es Hg]. exists (ds ++ es). intros a.
  rewrite Hg, Hf, accumulate_app. reflexivity.
Qed.

Lemma acc_add_accumulating (k c : Z) (d : F) : accumulating k (fun a => acc_add a c d).
Proof.
  destruct (Z.eqb_spec k c) as [-> | Hne].
  - exists [Added d]. intros a. unfold acc_add, upd. rewrite Z.eqb_refl. reflexivity.
  - exists []. intros a. unfold acc_add, upd.
    destruct (Z.eqb_spec k c); [contradiction | reflexivity].
Qed.

Lemma acc_sub_accumulating (k c : Z) (d : F) : accumulating k (fun a => acc_sub a c d).
Proof.
  destruct (Z.eqb_spec k c) as [-> | Hne].
  - exists [Subtracted d]. intros a. unfold acc_sub, upd. rewrite Z.eqb_refl. reflexivity.
  - exists []. intros a. unfold acc_sub, upd.
    destruct (Z.eqb_spec k c); [contradiction | reflexivity].
Qed.

(** Lines 537-544. *)
Lemma scatter_accumulating (k itag jtag : Z) (both : bool) (dx dy dz : F) :
  accumulating k (fun a => scatter a itag jtag both dx dy dz).
Proof.
  pose proof (accumulating_then k _ _
                (accumulating_then k _ _ (acc_add_accumulating k (3 * itag) dx)
                   (acc_add_accumulating k (3 * itag + 1) dy))
                (acc_add_accumulating k (3 * itag + 2) dz)) as Hi.
  unfold scatter. destruct both; [| exact Hi].
  exact (accumulating_then k _ _
           (accumulating_then k _ _
              (accumulating_then k _ _ Hi (acc_sub_accumulating k (3 * jtag) dx))
              (acc_sub_accumulating k (3 * jtag + 1) dy))
           (acc_sub_accumulating k (3 * jtag + 2) dz)).
Qed.

Lemma accumulates_at_then (k : Z) (f g : StepState F -> StepState F) :
  accumulates_at k f -> accumulates_at k g -> accumulates_at k (fun s => g (f s)).
Proof.
  intros [ds Hf] [es Hg]. exists (ds ++ es). intros s.
  rewrite Hg, Hf, accumulate_app. reflexivity.
Qed.

Lemma for_loop_accumulates (k : Z) (body : Z -> StepState F -> StepState F) :
  (forall i, accumulates_at k (body i)) ->
  forall n lo, accumulates_at k (for_loop n lo body).
Proof.
  intros Hb. induction n as [| n IH]; intros lo.
  - exists []. intros s. reflexivity.
  - exact (accumulates_at_then k _ _ (Hb lo) (IH (lo + 1)%Z)).
Qed.

(** One round of the neighbor loop. *)
Lemma step_pair_accumulates (this : PairDPDJung F) (input : Z -> F) (pre : F)
  (i itag itype : Z) (xtmp ytmp ztmp vxtmp vytmp vztmp : F) (jj k : Z) :
  accumulates_at k
    (step_pair this input pre i itag itype xtmp ytmp ztmp vxtmp vytmp vztmp jj).
Proof.
  unfold step_pair.
  destruct (_ <? cutsq this itype _); [| exists []; intros s; reflexivity].
  destruct (dsqrt _ <? EPSILON); [exists []; intros s; reflexivity |].
  match goal with
  | |- context [scatter _ ?it ?jt ?b ?dx ?dy ?dz] =>
      destruct (scatter_accumulating k it jt b dx dy dz) as [ds Hds]
  end.
  exists ds. intros s. cbn [ss_out]. apply Hds.
Qed.

(** One round of the loop over the owned atoms: the identity term, then the
    neighbors. *)
Lemma step_atom_accumulates (this : PairDPDJung F) (input : Z -> F) (pre : F) (ii k : Z) :
  accumulates_at k (step_atom this input pre ii).
Proof.
  unfold step_atom, for_range.
  set (i := list_ilist (nlist this) ii).
  set (itag := (atom_tag (atom this) i - 1)%Z).
  destruct (accumulating_then k _ _
              (accumulating_then k _ _
                 (acc_add_accumulating k (3 * itag) (input (3 * itag)%Z))
                 (acc_add_accumulating k (3 * itag + 1) (input (3 * itag + 1)%Z)))
              (acc_add_accumulating k (3 * itag + 2) (input (3 * itag + 2)%Z)))
    as [ds Hds].
  match goal with
  | |- accumulates_at k (fun s => for_loop ?n ?lo ?body _) =>
      destruct (for_loop_accumulates k body
                  (fun jj => step_pair_accumulates this input pre i itag _ _ _ _ _ _ _ jj k)
                  n lo) as [es Hes]
  end.
  exists (ds ++ es). intros s. rewrite Hes. cbn [ss_out].
  rewrite Hds, accumulate_app. reflexivity.
Qed.

(** The whole call. *)
Lemma compute_step_accumulating (this : PairDPDJung F) (input : Z -> F) (k : Z) :
  accumulating k (compute_step this input).
Proof.
  unfold compute_step, compute_step_from, for_range.
  destruct (for_loop_accumulates k _
              (fun ii => step_atom_accumulates this input
                           (- update_dt (update this) / dtwo) ii k)
              (Z.to_nat (list_inum (nlist this) - 0)) 0) as [ds Hds].
  exists ds. intros a. rewrite Hds. reflexivity.
Qed.

(** C10, amended.  [compute_step] never overwrites a cell of its output
    buffer.  In every arithmetic, IEEE doubles included, each cell comes back
    as the content it had on entry to which the call has added and from which
    it has subtracted, one after the other, amounts that are the same whatever
    the buffer held.  Where the operations form a commutative ring this makes
    the final output the initial output plus the output the call gives from a
    zeroed buffer, and, in exact arithmetic, when the tags of the listed atoms
    are their indices plus one, that output is the operator image of the
    input, the operator being the one of C1 with the test of line 540.  Only a
    caller that zeroes the buffer gets the image itself. *)
Theorem compute_step_accumulates (this : PairDPDJung F) (input : Z -> F) (k : Z) :
  (exists ds : list (Increment F),
     forall output, compute_step this input output k = accumulate ds (output k))
  /\ (ExactRing DF ->
      forall output,
        compute_step this input output k = output k + compute_step this input zeros k)
  /\ (Exact DF -> tags_are_indices this ->
      compute_step this input zeros k = guarded_step this input k).
Proof.
  split; [exact (compute_step_accumulating this input k) | split].
  - intros ER output. exact (@compute_step_over_zeroed F DF ER this input output k).
  - intros EX Htags.
    rewrite (@compute_step_adds_operator F DF EX this input zeros k Htags).
    unfold zeros, guarded_step.
    exact (Radd_0_l (@exact_ring F DF exact_is_ring) _).
Qed.

End Accumulation.

Section SolverBuffers.
Context {F : Type} {DF : Double F} {ER : ExactRing DF} {DI : DenseInverse F}.
Local Open Scope dbl_scope.

Add Ring Fring5 : (@exact_ring F DF ER).

(** X20.  The buffers of [compute_inverse].  When the solver returns: the cells
    of [output] outside the first [3 nlocal] are as the caller left them; the
    first [3 nlocal] cells do not depend on what [output] and the fresh
    [test_out] held; and, in exact arithmetic, the third column printed by
    the closing test (lines 641-645) is the operator applied to [output] plus
    whatever the cells of [new double[size]] held, since [compute_step] adds
    to a buffer that nobody has zeroed. *)
Lemma compute_inverse_buffers (this : PairDPDJung F) (input output test_out : Z -> F)
  (r : Solved F) :
  compute_inverse this input output test_out = Some r ->
  (forall i, ~ (0 <= i < atom_nlocal (atom this) * 3)%Z -> sv_output r i = output i) /\
  (forall output' test_out',
     exists r', compute_inverse this input output' test_out' = Some r' /\
                forall i, (0 <= i < atom_nlocal (atom this) * 3)%Z ->
                          sv_output r' i = sv_output r i) /\
  (forall k, sv_test_out r k = test_out k + compute_step this (sv_output r) zeros k).
Proof.
  unfold compute_inverse, lanczos_solver.
  destruct (lanczos_init this input) as [st0 norm].
  destruct (for_loop_opt _ 2 (lanczos_round this norm lit_tolLanczos) st0) as [st |];
    [| discriminate].
  intros Hr. injection Hr as <-. cbn [sv_output sv_test_out].
  split; [| split].
  - intros i Hi. unfold copy_prefix.
    destruct (Z.leb_spec 0 i); destruct (Z.ltb_spec i (atom_nlocal (atom this) * 3));
      cbn [andb]; try reflexivity; lia.
  - intros output' test_out'. eexists. split; [reflexivity |].
    intros i Hi. cbn [sv_output]. unfold copy_prefix.
    destruct (Z.leb_spec 0 i); destruct (Z.ltb_spec i (atom_nlocal (atom this) * 3));
      cbn [andb]; try reflexivity; lia.
  - intros k. unfold compute_step.
    rewrite (compute_step_from_shifted this _ test_out
               {| ss_out := zeros; ss_divs := [] |}
               {| ss_out := test_out; ss_divs := [] |}).
    + ring.
    + intros m. cbn [ss_out]. unfold zeros. ring.
Qed.

End SolverBuffers.

(** ** [compute] as a whole, and [init_style] *)

Section WholeCompute.
Context {F : Type} {DF : Double F} {DI : DenseInverse F}.
Local Open Scope dbl_scope.

(** One round of the neighbor loop, with other flags and other velocities. *)
Lemma force_pair_same (this : PairDPDJung F) (vel : Z -> Z -> F) (rnd : RanMars F)
  (eflag evflag eflag' evflag' : Z) (dtinvsqrt : F) (i itag itype : Z)
  (xtmp ytmp ztmp : F) (jj : Z) (s s' : ForceState F) :
  same_forces s s' ->
  same_forces
    (force_pair this eflag evflag dtinvsqrt i itag itype xtmp ytmp ztmp jj s)
    (force_pair (with_velocities this vel rnd) eflag' evflag' dtinvsqrt i itag itype
       xtmp ytmp ztmp jj s').
Proof.
  intros (Hf & Hr & Hd). unfold force_pair.
  change (pair_geom (with_velocities this vel rnd) xtmp ytmp ztmp i jj)
    with (pair_geom this xtmp ytmp ztmp i jj).
  cbn [with_velocities cutsq cut a0 sigma].
  change (updates_j (with_velocities this vel rnd)) with (updates_j this).
  destruct (_ <? cutsq this itype _); [| repeat split; assumption].
  destruct (dsqrt _ <? EPSILON); [repeat split; assumption |].
  rewrite <- Hr. destruct (gaussian (fs_random s)) as [randnum rng].
  unfold same_forces. cbn [fs_f fs_random fs_divs]. rewrite Hf, Hd.
  repeat split; reflexivity.
Qed.

(** The neighbor loops. *)
Lemma compute_forces_same (this : PairDPDJung F) (vel : Z -> Z -> F)
  (eflag vflag eflag' vflag' : Z) :
  same_forces (fst (compute_forces this eflag vflag))
    (fst (compute_forces (with_velocities this vel (random this)) eflag' vflag')).
Proof.
  unfold compute_forces.
  destruct (if truthy eflag || truthy vflag then _ else _) as [evflag fd].
  destruct (if truthy eflag' || truthy vflag' then _ else _) as [evflag' fd'].
  cbn [fst].
  apply (for_range_rel same_forces); [repeat split |].
  intros ii s s' _ Hs. unfold force_atom.
  apply (for_range_rel same_forces); [exact Hs |].
  intros jj t t' _ Ht. apply force_pair_same. exact Ht.
Qed.

(** The right-hand side reads the x components of the owned atoms only. *)
Lemma compute_rhs_same (this : PairDPDJung F) (vel : Z -> Z -> F) (rnd : RanMars F)
  (s s' : ForceState F) :
  (forall i, (0 <= i < atom_nlocal (atom this))%Z -> vel i 0%Z = atom_v (atom this) i 0%Z) ->
  same_forces s s' ->
  same_forces (compute_rhs this s) (compute_rhs (with_velocities this vel rnd) s').
Proof.
  intros Hvel Hs. unfold compute_rhs.
  apply (for_range_rel same_forces); [exact Hs |].
  intros i t t' Hi (Hf & Hr & Hd). unfold rhs_atom, same_forces.
  cbn [fs_f fs_random fs_divs with_velocities atom atom_v update].
  rewrite (Hvel i Hi), Hf, Hr, Hd. repeat split; reflexivity.
Qed.

(** X21.  What one call of [compute] depends on.  Of the velocities the call
    reads the x components [v[i][0]] of the owned atoms and nothing else, and
    its flags [eflag] and [vflag] reach the energy and the tallies only.  Two
    calls on the same object, one of them with other flags and with other
    values in every other cell of [atom->v], fail together or return
    together, and then the right-hand side handed to the solver, the
    state of the generator, the divisions of the loops and all the solver
    leaves behind are the same.  The statement holds for every arithmetic. *)
Lemma compute_dependence (this : PairDPDJung F) (eflag vflag eflag' vflag' : Z)
  (vel : Z -> Z -> F) (test_out : Z -> F) :
  (forall i, (0 <= i < atom_nlocal (atom this))%Z -> vel i 0%Z = atom_v (atom this) i 0%Z) ->
  together same_step
    (compute this eflag vflag test_out)
    (compute (with_velocities this vel (random this)) eflag' vflag' test_out).
Proof.
  intros Hvel. unfold compute.
  pose proof (compute_forces_same this vel eflag vflag eflag' vflag') as H0.
  destruct (compute_forces this eflag vflag) as [s0 fd].
  destruct (compute_forces (with_velocities this vel (random this)) eflag' vflag')
    as [s0' fd'].
  cbn [fst] in H0.
  pose proof (compute_rhs_same this vel (random this) s0 s0' Hvel H0) as H1.
  destruct H1 as (Hf & Hr & Hd).
  change (compute_inverse (with_velocities this vel (random this)))
    with (compute_inverse this).
  rewrite <- Hf.
  destruct (compute_inverse this (fs_f (compute_rhs this s0)) (fun _ => dzero) test_out)
    as [r |]; [| exact I].
  unfold together, same_step, same_forces. cbn [fst snd].
  repeat split; assumption.
Qed.

End WholeCompute.

Section InitStyle.
Context {F : Type} {DF : Double F} {EX : Exact DF}.
Local Open Scope dbl_scope.

(** X19.  [init_style].  The run ends with "Pair dpd requires ghost atoms store
    velocity" when [comm->ghost_velocity] is 0.  Otherwise one neighbor list is
    requested, and the warning "Pair dpd needs newton pair on for momentum
    conservation" is given exactly when [newton_pair] is 0 on rank 0, and
    nothing else is ever warned of.  A rank 0 that was given no warning runs
    with [newton_pair] set, and then, in exact arithmetic and with tags equal
    to local indices plus one, [compute_step] adds to its buffer the operator
    in which every listed pair acts on both of its particles. *)
Lemma init_style_outcome (this : PairDPDJung F) (ghost_velocity : Z) :
  (ghost_velocity = 0%Z -> init_style this ghost_velocity = ErrorAll Needs_ghost_velocity) /\
  (ghost_velocity <> 0%Z ->
   exists st,
     init_style this ghost_velocity = Returns st /\ st_requests st = 1%nat /\
     (st_warnings st = [Needs_newton_pair]
      <-> force_newton_pair (force this) = 0%Z /\ comm_me this = 0%Z) /\
     (st_warnings st = []
      <-> ~ (force_newton_pair (force this) = 0%Z /\ comm_me this = 0%Z)) /\
     (comm_me this = 0%Z -> st_warnings st = [] -> tags_are_indices this ->
      forall input output k,
        compute_step this input output k = output k + claimed_step this input k)).
Proof.
  unfold init_style. split.
  - intros ->. reflexivity.
  - intros Hgv. apply Z.eqb_neq in Hgv. rewrite Hgv.
    eexists. split; [reflexivity |]. cbn [st_requests st_warnings].
    split; [reflexivity |].
    destruct (Z.eqb_spec (force_newton_pair (force this)) 0) as [Hn | Hn];
      destruct (Z.eqb_spec (comm_me this) 0) as [Hm | Hm]; cbn [andb].
    + split; [tauto |]. split; [split; [discriminate | tauto] |].
      intros _ Hw. discriminate Hw.
    + split; [split; [discriminate | tauto] |]. split; [tauto |].
      intros Hme. contradiction.
    + split; [split; [discriminate | tauto] |]. split; [tauto |].
      intros _ _ Htags input output k. now apply compute_step_newton_on.
    + split; [split; [discriminate | tauto] |]. split; [tauto |].
      intros Hme. contradiction.
Qed.

End InitStyle.

(** ** The restart file, further *)

Section RestartMore.
Context {F : Type} {DF : Double F} {OR : ObjRepr F}.

Lemma read_pair_keeps (start : PairDPDJung F) (i j : Z) (s : PairDPDJung F * list byte) :
  1 <= i <= j -> j <= atom_ntypes (atom start) ->
  read_kept start (fst s) -> read_kept start (fst (read_pair i j s)).
Proof.
  intros Hi Hj H. destruct s as [this fp]. unfold read_pair.
  destruct (fread_int (setflag this i j) fp) as [sf fp1].
  cbn [setflag cutsq cut a0 gamma sigma with_tables].
  destruct (truthy (upd2 (setflag this) i j sf i j)).
  - destruct (fread_double _ fp1) as [a fp2].
    destruct (fread_double _ fp2) as [g fp3].
    destruct (fread_double _ fp3) as [c fp4].
    cbn [fst] in *.
    destruct H as (H1 & H2 & H3 & H4 & H5 & H6 & H7 & H8 & H9 & H10).
    unfold read_kept.
    cbn [setflag cutsq cut a0 gamma sigma with_tables random allocated atom temperature
           cut_global seed mix_flag].
    repeat (split; [assumption |]).
    intros a' b' Hout. destruct (H10 a' b' Hout) as (T1 & T2 & T3 & T4).
    rewrite !upd2_other by (intros Heq; injection Heq as -> ->; apply Hout; lia).
    auto.
  - cbn [fst] in *.
    destruct H as (H1 & H2 & H3 & H4 & H5 & H6 & H7 & H8 & H9 & H10).
    unfold read_kept.
    cbn [setflag cutsq cut a0 gamma sigma with_tables random allocated atom temperature
           cut_global seed mix_flag].
    repeat (split; [assumption |]).
    intros a' b' Hout. destruct (H10 a' b' Hout) as (T1 & T2 & T3 & T4).
    rewrite !upd2_other by (intros Heq; injection Heq as -> ->; apply Hout; lia).
    auto.
Qed.

Lemma read_loops_keep (start : PairDPDJung F) (fp : list byte) :
  read_kept start
    (fst (for_range 1 (atom_ntypes (atom start) + 1)
            (fun i s => for_range i (atom_ntypes (atom start) + 1) (read_pair i) s)
            (start, fp))).
Proof.
  apply (for_range_ind (fun s => read_kept start (fst s))).
  - unfold read_kept. cbn [fst]. repeat split.
  - intros i s Hi Hs.
    apply (for_range_ind (fun s => read_kept start (fst s))); [exact Hs |].
    intros j t Hj Ht. apply read_pair_keeps; [lia | lia | exact Ht].
Qed.

(** X22.  What [read_restart] never restores.  Whatever bytes the file holds,
    after [read_restart]: the tables are allocated; [sigma] is zero on the
    whole square [0..ntypes] (the noise coefficient is not in the file, and
    [init_one] has to run again before [compute] is given a noise); [cutsq] and
    every cell outside the pairs [1 <= i <= j <= ntypes] of [setflag], [a0] and
    [cut] are the cells [memory->create] handed out; and the generator is
    created anew from the seed just read plus the rank of the reading process.
    The statement holds for every arithmetic and every platform. *)
Lemma read_restart_rebuilds (that : PairDPDJung F) (heap : Fresh F) (fp : list byte) :
  let n := atom_ntypes (atom that) in
  let that' := fst (read_restart that heap fp) in
  allocated that' = 1 /\
  (forall i j,
     sigma that' i j
     = if (0 <=? i) && (i <=? n) && (0 <=? j) && (j <=? n) then dzero
       else fresh_sigma heap i j) /\
  cutsq that' = fresh_cutsq heap /\
  random that' = new_RanMars (base that) (seed that' + comm_me that) /\
  atom that' = atom that /\
  (forall i j, ~ (1 <= i <= j /\ j <= n) ->
     setflag that' i j = fresh_setflag heap i j /\ a0 that' i j = fresh_a0 heap i j /\
     cut that' i j = fresh_cut heap i j).
Proof.
  intros n that'. subst that'. unfold read_restart, read_restart_settings.
  destruct (fread_double (temperature that) fp) as [t fp1].
  destruct (fread_double (cut_global that) fp1) as [cg fp2].
  destruct (fread_int (seed that) fp2) as [sd fp3].
  destruct (fread_int (mix_flag that) fp3) as [mf fp4].
  set (that1 := {| atom := atom that; force := force that; update := update that;
                   nlist := nlist that; base := base that; comm_me := comm_me that;
                   allocated := allocated that; setflag := setflag that;
                   cutsq := cutsq that; cut := cut that; a0 := a0 that;
                   gamma := gamma that; sigma := sigma that; temperature := t;
                   cut_global := cg; seed := sd; mix_flag := mf;
                   random := new_RanMars (base that) (sd + comm_me that) |}).
  set (start := allocate that1 heap).
  pose proof (read_loops_keep start fp4) as Hk.
  assert (Hn : atom_ntypes (atom start) = n) by reflexivity.
  change (atom_ntypes (atom (allocate that1 heap))) with (atom_ntypes (atom start)).
  fold start.
  destruct Hk as (H1 & H2 & H3 & H4 & H5 & H6 & H7 & H8 & H9 & H10).
  destruct (allocate_tables that1 heap) as (A1 & A2 & A3 & A4 & A5 & A6 & A7 & A8 & _).
  fold start in A1, A2, A3, A4, A5, A6, A7, A8. cbv zeta in A2, A3, A4.
  change (atom_ntypes (atom that1)) with n in A2, A3, A4.
  split; [congruence |].
  split; [| split; [congruence | split; [| split; [rewrite H5, A8; reflexivity |]]]].
  - intros i j. rewrite H1. apply A3.
  - rewrite H3, H8. reflexivity.
  - intros i j Hout.
    destruct (H10 i j) as (T1 & T2 & T3 & T4); [rewrite Hn; exact Hout |].
    rewrite T1, T2, T4, A2, A5, A6.
    destruct (Z.leb_spec 1 i); destruct (Z.leb_spec i j); destruct (Z.leb_spec j n);
      cbn [andb]; auto. exfalso. apply Hout. lia.
Qed.

Lemma fread_empty (size : nat) : (0 < size)%nat -> fread size [] = (None, []).
Proof.
  intros H. unfold fread. cbn [length].
  destruct (Nat.leb_spec size 0); [lia | reflexivity].
Qed.

Lemma upd2_idle {A : Type} (a : Z -> Z -> A) (i j m n : Z) : upd2 a i j (a i j) m n = a m n.
Proof.
  unfold upd2. destruct (Z.eqb_spec m i) as [-> |]; destruct (Z.eqb_spec n j) as [-> |];
    reflexivity.
Qed.

Lemma read_pair_empty (start : PairDPDJung F) (i j : Z) (s : PairDPDJung F * list byte) :
  (0 < sizeof_int)%nat -> (0 < sizeof_double)%nat ->
  snd s = [] /\ same_tables start (fst s) ->
  snd (read_pair i j s) = [] /\ same_tables start (fst (read_pair i j s)).
Proof.
  intros Hsi Hsd [Hfp Htab]. destruct s as [this fp]. cbn [fst snd] in *. subst fp.
  unfold read_pair, fread_int, fread_double.
  rewrite !(fread_empty _ Hsi). cbv beta iota.
  cbn [setflag cutsq cut a0 gamma sigma with_tables short_int].
  destruct (truthy (upd2 (setflag this) i j (setflag this i j) i j)).
  - repeat (rewrite (fread_empty _ Hsd); cbv beta iota).
    cbn [fst snd short_double]. split; [reflexivity |].
    intros a b. cbn [setflag cutsq cut a0 gamma sigma with_tables].
    rewrite !upd2_idle. apply Htab.
  - cbn [fst snd]. split; [reflexivity |].
    intros a b. cbn [setflag cutsq cut a0 gamma sigma with_tables].
    rewrite !upd2_idle. apply Htab.
Qed.

(** X23.  An empty restart file.  The source does not look at what [fread]
    returns.  On a platform whose [int] and [double] have at least one byte,
    [read_restart] run on a file with no byte in it returns as if nothing were
    wrong, at the end of the file: the temperature, the global cutoff, the
    seed and the mixing flag are what they were before the call, the generator
    is created anew from the old seed, and the tables are exactly those
    [allocate] made, so that every pair reads unset. *)
Lemma read_restart_empty_file (that : PairDPDJung F) (heap : Fresh F) :
  (0 < sizeof_int)%nat -> (0 < sizeof_double)%nat ->
  exists that',
    read_restart that heap [] = (that', []) /\
    temperature that' = temperature that /\ cut_global that' = cut_global that /\
    seed that' = seed that /\ mix_flag that' = mix_flag that /\
    random that' = new_RanMars (base that) (seed that + comm_me that) /\
    same_tables (allocate that heap) that'.
Proof.
  intros Hsi Hsd. unfold read_restart, read_restart_settings, fread_int, fread_double.
  repeat (first [rewrite (fread_empty _ Hsd) | rewrite (fread_empty _ Hsi)];
          cbv beta iota).
  cbn [short_int short_double].
  set (that1 := {| atom := atom that; force := force that; update := update that;
                   nlist := nlist that; base := base that; comm_me := comm_me that;
                   allocated := allocated that; setflag := setflag that;
                   cutsq := cutsq that; cut := cut that; a0 := a0 that;
                   gamma := gamma that; sigma := sigma that;
                   temperature := temperature that; cut_global := cut_global that;
                   seed := seed that; mix_flag := mix_flag that;
                   random := new_RanMars (base that) (seed that + comm_me that) |}).
  set (start := allocate that1 heap).
  pose proof (read_loops_keep start []) as Hk.
  assert (Hloop : snd (for_range 1 (atom_ntypes (atom start) + 1)
                         (fun i s => for_range i (atom_ntypes (atom start) + 1)
                                       (read_pair i) s) (start, []))
                  = [] /\
                  same_tables start
                    (fst (for_range 1 (atom_ntypes (atom start) + 1)
                            (fun i s => for_range i (atom_ntypes (atom start) + 1)
                                          (read_pair i) s) (start, [])))).
  { apply (for_range_ind (fun s => snd s = [] /\ same_tables start (fst s))).
    - split; [reflexivity |]. intros a b. repeat split.
    - intros i s _ Hs.
      apply (for_range_ind (fun s => snd s = [] /\ same_tables start (fst s))); [exact Hs |].
      intros j t _ Ht. now apply read_pair_empty. }
  destruct Hloop as [Hfp Htab].
  destruct (for_range 1 (atom_ntypes (atom start) + 1) _ (start, [])) as [that' fp'].
  cbn [fst snd] in *. subst fp'.
  exists that'. split; [reflexivity |].
  destruct Hk as (H1 & H2 & H3 & H4 & H5 & H6 & H7 & H8 & H9 & H10).
  repeat (split; [assumption |]).
  exact Htab.
Qed.

End RestartMore.

Section RestartStable.
Context {F : Type} {DF : Double F} {OR : ObjRepr F} {ORL : ObjReprLaws OR}.

Lemma blocks_from_ext (blk blk' : Z -> list byte) :
  forall n lo,
    (forall i, lo <= i < lo + Z.of_nat n -> blk i = blk' i) ->
    blocks_from n lo blk = blocks_from n lo blk'.
Proof.
  induction n as [| n IH]; intros lo H; cbn [blocks_from]; [reflexivity |].
  rewrite (H lo) by lia. f_equal. apply IH. intros i Hi. apply H. lia.
Qed.

(** What [read_restart] makes of a file written by [write_restart]. *)
Lemma read_back (this that : PairDPDJung F) (heap : Fresh F) (tail : list byte) :
  atom_ntypes (atom that) = atom_ntypes (atom this) ->
  (forall i j, - 2 ^ 31 <= setflag this i j < 2 ^ 31) ->
  - 2 ^ 31 <= seed this < 2 ^ 31 ->
  - 2 ^ 31 <= mix_flag this < 2 ^ 31 ->
  exists that',
    read_restart that heap (write_restart this [] ++ tail) = (that', tail) /\
    atom that' = atom that /\
    temperature that' = temperature this /\ cut_global that' = cut_global this /\
    seed that' = seed this /\ mix_flag that' = mix_flag this /\
    forall i j, 1 <= i <= j -> j <= atom_ntypes (atom this) ->
      setflag that' i j = setflag this i j /\
      (truthy (setflag this i j) = true ->
       a0 that' i j = a0 this i j /\ gamma that' i j = gamma this i j /\
       cut that' i j = cut this i j).
Proof.
  intros Hn Hint Hseed Hmix.
  rewrite (write_restart_layout this []). cbn [app].
  unfold read_restart, restart_image, settings_block, read_restart_settings.
  rewrite <- !app_assoc.
  rewrite !fread_double_written, !(fread_int_written _ _ _ Hseed),
    !(fread_int_written _ _ _ Hmix).
  set (that1 := allocate _ heap).
  assert (Hn1 : atom_ntypes (atom that1) = atom_ntypes (atom this)) by exact Hn.
  rewrite Hn1. unfold for_range.
  destruct (read_table this that1 (atom_ntypes (atom this)) tail eq_refl Hint
              (Z.to_nat (atom_ntypes (atom this) + 1 - 1)) 1 that1)
    as (that' & Hread & Hat & Ht & Hcg & Hsd & Hmf & Htab).
  - lia.
  - reflexivity.
  - unfold read_upto. repeat (split; [reflexivity |]).
    intros a b. rewrite before_pair_start. cbn [andb]. auto.
  - exists that'. split; [exact Hread |].
    split; [exact Hat |].
    split; [exact Ht | split; [exact Hcg | split; [exact Hsd | split; [exact Hmf |]]]].
    intros i j Hi Hj. destruct (Htab i j) as (H1 & H2 & H3 & H4).
    rewrite before_pair_end in H1, H2, H3, H4 by assumption. cbn [andb] in *.
    split; [exact H1 |].
    intros Hset. rewrite Hset in *. auto.
Qed.

(** X24.  A restart file is stable.  Under the conditions of C8, the object
    that [read_restart] builds from the file of [this], written out again by
    [write_restart], gives the same file byte for byte: the coefficient cells
    of the unset pairs, which hold whatever [memory->create] handed out, never
    reach the file. *)
Lemma restart_file_is_stable (this that : PairDPDJung F) (heap : Fresh F) (tail : list byte) :
  atom_ntypes (atom that) = atom_ntypes (atom this) ->
  (forall i j, - 2 ^ 31 <= setflag this i j < 2 ^ 31) ->
  - 2 ^ 31 <= seed this < 2 ^ 31 ->
  - 2 ^ 31 <= mix_flag this < 2 ^ 31 ->
  write_restart (fst (read_restart that heap (write_restart this [] ++ tail))) []
  = write_restart this [].
Proof.
  intros Hn Hint Hseed Hmix.
  destruct (read_back this that heap tail Hn Hint Hseed Hmix)
    as (that' & Hread & Hat & Ht & Hcg & Hsd & Hmf & Htab).
  rewrite Hread. cbn [fst]. rewrite !write_restart_layout. cbn [app].
  unfold restart_image, settings_block. rewrite Ht, Hcg, Hsd, Hmf, Hat, Hn.
  f_equal.
  apply blocks_from_ext. intros i Hi. unfold row_block. rewrite Hat, Hn.
  apply blocks_from_ext. intros j Hj. unfold pair_block.
  destruct (Htab i j ltac:(lia) ltac:(lia)) as (Hsf & Hco).
  rewrite Hsf. destruct (truthy (setflag this i j)); [| reflexivity].
  destruct (Hco eq_refl) as (-> & -> & ->). reflexivity.
Qed.

End RestartStable.

(** ** The data file *)

Section DataFileLines.
Context {F : Type} {DF : Double F}.

Lemma data_row (this : PairDPDJung F) (i : Z) :
  forall m j fp,
    i <= j ->
    let fp' := for_loop m j
                 (fun j fp =>
                    fp ++ [{| da_i := i; da_j := j; da_a0 := a0 this i j;
                              da_gamma := gamma this i j; da_cut := cut this i j |}]) fp in
    length fp' = (length fp + m)%nat /\
    map short_line (filter on_diagonal fp')
    = map short_line (filter on_diagonal fp)
      ++ (if (i =? j) && (0 <? Z.of_nat m)
          then [{| dl_i := i; dl_a0 := a0 this i i; dl_gamma := gamma this i i |}]
          else []).
Proof.
  induction m as [| m IH]; intros j fp Hij; cbn [for_loop].
  - cbv zeta. split; [lia |]. rewrite andb_false_r. now rewrite app_nil_r.
  - cbv zeta. destruct (IH (j + 1) (fp ++ [{| da_i := i; da_j := j; da_a0 := a0 this i j;
                                              da_gamma := gamma this i j;
                                              da_cut := cut this i j |}]) ltac:(lia))
      as [Hlen Hmap].
    split.
    + rewrite Hlen, length_app. cbn [length]. lia.
    + rewrite Hmap, filter_app, map_app.
      match goal with
      | |- context [filter on_diagonal [?l]] =>
          change (filter on_diagonal [l]) with (if (i =? j) then [l] else [])
      end.
      destruct (Z.eqb_spec i (j + 1)); [lia |]. cbn [andb]. rewrite app_nil_r.
      destruct (Z.eqb_spec i j) as [-> | Hne]; cbn [andb map].
      * destruct (Z.ltb_spec 0 (Z.of_nat (Datatypes.S m))); [reflexivity | lia].
      * now rewrite app_nil_r.
Qed.

Lemma data_rows (this : PairDPDJung F) (n : Z) :
  forall m i fpa fp,
    1 <= i -> Z.of_nat m = n + 1 - i ->
    map short_line (filter on_diagonal fpa) = fp ->
    let fpa' := for_loop m i
                  (fun i fp =>
                     for_loop (Z.to_nat (n + 1 - i)) i
                       (fun j fp =>
                          fp ++ [{| da_i := i; da_j := j; da_a0 := a0 this i j;
                                    da_gamma := gamma this i j; da_cut := cut this i j |}])
                       fp) fpa in
    let fp' := for_loop m i
                 (fun i fp =>
                    fp ++ [{| dl_i := i; dl_a0 := a0 this i i; dl_gamma := gamma this i i |}])
                 fp in
    2 * Z.of_nat (length fpa') = 2 * Z.of_nat (length fpa) + Z.of_nat m * (Z.of_nat m + 1) /\
    map short_line (filter on_diagonal fpa') = fp'.
Proof.
  induction m as [| m IH]; intros i fpa fp Hi Hm Hfp; cbn [for_loop].
  - cbv zeta. split; [lia | exact Hfp].
  - cbv zeta.
    destruct (data_row this i (Z.to_nat (n + 1 - i)) i fpa ltac:(lia)) as [Hlen Hmap].
    cbv zeta in Hlen, Hmap.
    rewrite Z.eqb_refl in Hmap.
    destruct (Z.ltb_spec 0 (Z.of_nat (Z.to_nat (n + 1 - i)))); [| lia].
    cbn [andb] in Hmap. rewrite Hfp in Hmap.
    destruct (IH (i + 1) _ _ ltac:(lia) ltac:(lia) Hmap) as [Hlen' Hmap'].
    cbv zeta in Hlen', Hmap'.
    split; [| exact Hmap'].
    rewrite Hlen', Hlen. nia.
Qed.

Lemma for_loop_appends_one {A : Type} (line : Z -> A) :
  forall m lo (fp : list A),
    length (for_loop m lo (fun i fp => fp ++ [line i]) fp) = (length fp + m)%nat.
Proof.
  induction m as [| m IH]; intros lo fp; cbn [for_loop]; [lia |].
  rewrite IH, length_app. cbn [length]. lia.
Qed.

(** X25.  The two writers of the data file.  [write_data_all] prints one line
    for every unordered type pair [1 <= i <= j <= ntypes], [ntypes (ntypes+1)/2]
    lines in all, whether or not the pair is set; [write_data] prints [ntypes]
    lines, and they are the lines of [write_data_all] with [i = j], in the same
    order, less the cutoff: the data file of [write_data] holds no cutoff and
    no coefficient of a pair of two different types. *)
Lemma write_data_all_lines (this : PairDPDJung F) :
  let n := atom_ntypes (atom this) in
  0 <= n ->
  2 * Z.of_nat (length (write_data_all this [])) = n * (n + 1) /\
  map short_line (filter on_diagonal (write_data_all this [])) = write_data this [] /\
  Z.of_nat (length (write_data this [])) = n.
Proof.
  intros n Hn. unfold write_data_all, write_data. fold n. unfold for_range.
  destruct (data_rows this n (Z.to_nat (n + 1 - 1)) 1 [] [] ltac:(lia) ltac:(lia) eq_refl)
    as [Hlen Hmap].
  cbv zeta in Hlen, Hmap. split; [| split].
  - rewrite Hlen. cbn [length]. nia.
  - exact Hmap.
  - rewrite (for_loop_appends_one
               (fun i => {| dl_i := i; dl_a0 := a0 this i i; dl_gamma := gamma this i i |})).
    cbn [length]. lia.
Qed.

End DataFileLines.

(** ** The further properties on concrete configurations *)

(** Facts about [duo] on the reals, with [newton_pair] set. *)
Lemma duo_tags_are_indices (nloc : Z) : tags_are_indices (duo (1 / 2)%R 1 nloc).
Proof. intros ii _. cbn. lia. Qed.

Lemma duo_tags_below : tags_below (duo (1 / 2)%R 1 2) 2.
Proof.
  split.
  - intros ii Hii. cbn -[Z.mul Z.add Z.sub] in *. lia.
  - intros ii jj Hii Hjj. unfold neighbor_tag. cbn -[Z.mul Z.add Z.sub] in *. lia.
Qed.

Lemma duo_every_neighbor_updated : every_neighbor_updated (duo (1 / 2)%R 1 2).
Proof. intros ii jj _ _. reflexivity. Qed.

(** C10 on [duo]: the increments exist on IEEE doubles; on the reals the
    entry 0 of the output is the entry on entry plus the image of [e0], which
    is the operator of C1 as amended. *)
Lemma compute_step_accumulates_witness :
  (exists ds : list (Increment float),
     forall output,
       compute_step (duo 0.5%float 1 2) e0 output 0 = accumulate ds (output 0)) /\
  (forall output,
     compute_step (duo (1 / 2)%R 1 2) e0 output 0
     = (output 0%Z + compute_step (duo (1 / 2)%R 1 2) e0 zeros 0)%R) /\
  compute_step (duo (1 / 2)%R 1 2) e0 zeros 0 = guarded_step (duo (1 / 2)%R 1 2) e0 0.
Proof.
  split; [exact (proj1 (compute_step_accumulates (duo 0.5%float 1 2) e0 0)) |].
  split.
  - exact (proj1 (proj2 (compute_step_accumulates (duo (1 / 2)%R 1 2) e0 0)) R_ExactRing).
  - exact (proj2 (proj2 (compute_step_accumulates (duo (1 / 2)%R 1 2) e0 0)) R_Exact
             (duo_tags_are_indices 2)).
Defined.

(** C10 as stated fails on IEEE doubles.  [duo] with both atoms owned, the
    input [e0] and a buffer that holds [2^53] in every cell.  From a zeroed
    buffer the call gives [1.125] in cell 0: the identity term [1] and the
    pair term [0.125].  Added to [2^53] one after the other, as the call does,
    they are both rounded away and the cell stays [2^53]; the buffer plus the
    image, [2^53 + 1.125], is rounded to [2^53 + 2]. *)
Lemma compute_step_accumulates_counterexample :
  let this := duo 0.5%float 1 2 in
  let output := fun _ : Z => 9007199254740992%float in
  compute_step this e0 zeros 0 = 1.125%float /\
  guarded_step this e0 0 = 1.125%float /\
  compute_step this e0 output 0 = 9007199254740992%float /\
  (output 0%Z + compute_step this e0 zeros 0)%float = 9007199254740994%float /\
  compute_step this e0 output 0 <> (output 0%Z + compute_step this e0 zeros 0)%float /\
  compute_step this e0 output 0 <> (output 0%Z + guarded_step this e0 0)%float.
Proof.
  cbv zeta. repeat split; vm_compute; congruence.
Qed.

(** The two atoms of [duo], half a unit apart, interact. *)
Lemma duo_interacts : interacts (duo (1 / 2)%R 1 2) 0 0 = true.
Proof.
  unfold interacts. cbn -[Rltb sqrt].
  unfold Rltb.
  destruct (Rlt_dec _ _) as [_ | H]; [| exfalso; apply H; lra].
  cbn [andb].
  destruct (Rlt_dec _ _) as [H | _]; [| reflexivity].
  exfalso.
  set (x := ((0 - 1 / 2) * (0 - 1 / 2) + (0 - 0) * (0 - 0) + (0 - 0) * (0 - 0))%R) in *.
  assert (Hx : (x = 1 / 4)%R) by (subst x; lra).
  pose proof (sqrt_pos x) as Hp.
  pose proof (sqrt_sqrt x ltac:(lra)) as Hs.
  nra.
Qed.

(** [pair_coeff 1 2 3 4] given to [duo], on IEEE doubles: the pair [(1,2)], which
    was not set, gets [a0 = 3], [gamma = 4] and the global cutoff. *)
Lemma coeff_sets_block_witness :
  let this := duo 0.5%float 1 2 in
  exists this',
    coeff (FI := script_reader) this stale 4
      (words ["1"; "2"; "3"; "4"]%string) = Returns this' /\
    (forall i j,
       setflag this' i j = (if in_block 1 1 2 2 i j then 1 else setflag this i j) /\
       a0 this' i j = (if in_block 1 1 2 2 i j then 3%float else a0 this i j) /\
       gamma this' i j = (if in_block 1 1 2 2 i j then 4%float else gamma this i j) /\
       cut this' i j = (if in_block 1 1 2 2 i j then 1%float else cut this i j)) /\
    sigma this' = sigma this /\ cutsq this' = cutsq this /\
    temperature this' = temperature this /\ cut_global this' = cut_global this /\
    seed this' = seed this /\ random this' = random this /\
    allocated this' = allocated this /\ atom this' = atom this /\
    force this' = force this.
Proof.
  refine (coeff_sets_block (FI := script_reader) (duo 0.5%float 1 2) stale 4
            (words ["1"; "2"; "3"; "4"]%string) 1 1 2 2 3%float 4%float 1%float 1 2
            _ _ _ _ _ _ _); try (vm_compute; reflexivity). lia.
Defined.

(** [pair_style dpd/jung 2 3 7] and [pair_coeff 1 2 3 4] given to an object of two
    types with nothing allocated, on IEEE doubles. *)
Lemma script_then_init_one_witness :
  let this := blank (duo 0.5%float 1 2) in
  exists this1 this2,
    settings (FI := script_reader) this 3 (words ["2"; "3"; "7"]%string)
    = Returns this1 /\
    coeff (FI := script_reader) this1 stale 4
      (words ["1"; "2"; "3"; "4"]%string) = Returns this2 /\
    forall i j, 1 <= i <= j -> j <= 2 ->
      if in_block 1 1 2 2 i j then
        exists this3,
          init_one this2 i j = Some (this3, 3%float) /\
          sigma this3 i j = PrimFloat.sqrt (2 * 1 * 2 * 4)%float /\
          sigma this3 j i = sigma this3 i j /\
          a0 this3 i j = 3%float /\ a0 this3 j i = 3%float /\
          gamma this3 i j = 4%float /\ gamma this3 j i = 4%float /\
          cut this3 i j = 3%float /\ cut this3 j i = 3%float
      else init_one this2 i j = None.
Proof.
  refine (script_then_init_one (FI := script_reader)
            (blank (duo 0.5%float 1 2)) stale (words ["2"; "3"; "7"]%string)
            (words ["1"; "2"; "3"; "4"]%string) 2%float 3%float 7 1 1 2 2 3%float 4%float
            1 2 _ _ _ _ _ _ _ _ _ _); try (vm_compute; reflexivity).
Defined.

(** The x components of the forces of [duo], on the reals. *)
Lemma compute_conserves_momentum_witness :
  component_sum 2 0 (fs_f (fst (compute_forces (duo (1 / 2)%R 1 2) 0 0))) = 0%R.
Proof.
  refine (@compute_conserves_momentum R R_Double R_Exact (duo (1 / 2)%R 1 2) 0 0 2 0
            duo_tags_below duo_every_neighbor_updated _). lia.
Defined.

(** The x components of the image of [e0] under the operator of [duo]. *)
Lemma compute_step_conserves_sums_witness :
  let this := duo (1 / 2)%R 1 2 in
  component_sum 2 0 (compute_step this e0 zeros)
  = (component_sum 2 0 zeros
     + dsum (list_inum (nlist this))
         (fun ii => e0 (3 * (atom_tag (atom this) (list_ilist (nlist this) ii) - 1) + 0)))%R.
Proof.
  refine (@compute_step_conserves_sums R R_Double R_Exact (duo (1 / 2)%R 1 2) e0 zeros 2 0
            duo_tags_below duo_every_neighbor_updated _). lia.
Defined.

(** The unit vector [e0] and the vector of ones, for [duo]. *)
Lemma compute_step_self_adjoint_witness :
  let this := duo (1 / 2)%R 1 2 in
  vdot (3 * 2) e0 (compute_step this (fun _ => 1%R) zeros)
  = vdot (3 * 2) (fun _ => 1%R) (compute_step this e0 zeros).
Proof.
  exact (@compute_step_self_adjoint R R_Double R_Exact (duo (1 / 2)%R 1 2) e0 (fun _ => 1%R) 2
           (duo_tags_are_indices 2) duo_tags_below duo_every_neighbor_updated).
Defined.

(** [duo] has [dt], [gamma] and the special-bond factors equal to 1. *)
Lemma compute_step_positive_definite_witness :
  let this := duo (1 / 2)%R 1 2 in
  (listed_square this e0 <= vdot (3 * 2) e0 (compute_step this e0 zeros))%R /\
  ((forall k, compute_step this e0 zeros k = compute_step this zeros zeros k) ->
   forall ii c, 0 <= ii < list_inum (nlist this) -> 0 <= c < 3 ->
     e0 (3 * (atom_tag (atom this) (list_ilist (nlist this) ii) - 1) + c)
     = zeros (3 * (atom_tag (atom this) (list_ilist (nlist this) ii) - 1) + c)).
Proof.
  refine (compute_step_positive_definite (duo (1 / 2)%R 1 2) e0 zeros 2
            (duo_tags_are_indices 2) duo_tags_below duo_every_neighbor_updated _ _ _);
    intros; cbn; lra.
Defined.

(** The vector of ones: all particles of [duo] move alike. *)
Lemma compute_step_at_rest_witness :
  let this := duo (1 / 2)%R 1 2 in
  compute_step this (fun _ => 1%R) zeros 3
  = (zeros 3 + Identity_owned this (fun _ => 1%R) 3)%R.
Proof.
  refine (@compute_step_at_rest R R_Double R_Exact (duo (1 / 2)%R 1 2) (fun _ => 1%R)
            zeros 3 (duo_tags_are_indices 2) _).
  intros. reflexivity.
Defined.

(** [duo] reading an empty file on x86-64. *)
Lemma read_restart_empty_file_witness :
  let that := duo 0.5%float 1 2 in
  exists that',
    read_restart (OR := x86_64_ObjRepr) that stale [] = (that', []) /\
    temperature that' = temperature that /\ cut_global that' = cut_global that /\
    seed that' = seed that /\ mix_flag that' = mix_flag that /\
    random that' = new_RanMars (base that) (seed that + comm_me that) /\
    same_tables (allocate that stale) that'.
Proof.
  refine (read_restart_empty_file (OR := x86_64_ObjRepr) (duo 0.5%float 1 2)
            stale _ _); cbn; lia.
Defined.

(** The file of [duo], read by a process whose tables hold other values and
    written again, on x86-64. *)
Lemma restart_file_is_stable_witness :
  let this := duo 0.5%float 1 2 in
  write_restart
    (fst (read_restart (duo 2%float 0 1) stale (write_restart this [] ++ [Byte.x2a]))) []
  = write_restart this [].
Proof.
  refine (restart_file_is_stable (ORL := x86_64_ObjReprLaws)
            (duo 0.5%float 1 2) (duo 2%float 0 1) stale [Byte.x2a] _ _ _ _).
  - reflexivity.
  - intros i j. cbn. destruct (_ && _); lia.
  - cbn. lia.
  - cbn. lia.
Defined.

(** [duo] has two types: three lines, two of them on the diagonal. *)
Lemma write_data_all_lines_witness :
  let this := duo 0.5%float 1 2 in
  2 * Z.of_nat (length (write_data_all this [])) = 2 * (2 + 1) /\
  map short_line (filter on_diagonal (write_data_all this [])) = write_data this [] /\
  Z.of_nat (length (write_data this [])) = 2.
Proof.
  refine (write_data_all_lines (duo 0.5%float 1 2) _). cbn. lia.
Defined.

(** [duo] on rank 0 with [newton_pair] set and ghost velocities stored. *)
Lemma init_style_outcome_witness :
  let this := duo (1 / 2)%R 1 2 in
  (1 = 0 -> init_style this 1 = ErrorAll Needs_ghost_velocity) /\
  (1 <> 0 ->
   exists st,
     init_style this 1 = Returns st /\ st_requests st = 1%nat /\
     (st_warnings st = [Needs_newton_pair]
      <-> force_newton_pair (force this) = 0 /\ comm_me this = 0) /\
     (st_warnings st = []
      <-> ~ (force_newton_pair (force this) = 0 /\ comm_me this = 0)) /\
     (comm_me this = 0 -> st_warnings st = [] -> tags_are_indices this ->
      forall input output k,
        compute_step this input output k = (output k + claimed_step this input k)%R)).
Proof.
  exact (@init_style_outcome R R_Double R_Exact (duo (1 / 2)%R 1 2) 1).
Defined.

(** The pair of [duo], on the reals, with [eflag] and [evflag] set. *)
Lemma single_agrees_with_compute_witness :
  let this := duo (1 / 2)%R 1 2 in
  let g := pair_geom this 0%R 0%R 0%R 0 0 in
  let one := single this 0 (pg_j g) 1 (pg_jtype g) (pg_rsq g) 1%R (pg_factor_dpd g) 0%R in
  let s' := force_pair this 1 1 1%R 0 0 1 0%R 0%R 0%R 0 (force_start this) in
  let r := sqrt (pg_rsq g) in
  let noise := (sigma this 1 (pg_jtype g) * (1 - r / cut this 1 (pg_jtype g))
                * fst (gaussian (fs_random (force_start this))) * 1)%R in
  fpair_of this 1%R 1 g (fst (gaussian (fs_random (force_start this))))
  = (snd (fst one) + noise * (pg_factor_dpd g * (1 / r)))%R /\
  (truthy 1 = true ->
   exists t, fs_tally s' = t :: fs_tally (force_start this) /\
             ty_fpair t = (snd (fst one) + noise * (pg_factor_dpd g * (1 / r)))%R).
Proof.
  exact (@single_agrees_with_compute R R_Double R_Exact (duo (1 / 2)%R 1 2) 1 1 1%R 0 0 0
           (force_start _) 1%R 0%R duo_interacts).
Defined.

(** [duo] with the right-hand side [e0], on the reals, with Gauss-Jordan
    elimination in the place of the dense inverse. *)
Lemma compute_inverse_buffers_witness :
  let this := duo (1 / 2)%R 1 2 in
  exists r,
    @compute_inverse R R_Double gauss_jordan this e0 zeros zeros = Some r /\
    (forall i, ~ (0 <= i < atom_nlocal (atom this) * 3) -> sv_output r i = zeros i) /\
    (forall output' test_out',
       exists r', @compute_inverse R R_Double gauss_jordan this e0 output' test_out' = Some r' /\
                  forall i, 0 <= i < atom_nlocal (atom this) * 3 ->
                            sv_output r' i = sv_output r i) /\
    (forall k, sv_test_out r k = (zeros k + compute_step this (sv_output r) zeros k)%R).
Proof.
  destruct (@compute_inverse R R_Double gauss_jordan (duo (1 / 2)%R 1 2) e0 zeros zeros)
    as [r |] eqn:Hrun.
  - exists r. split; [exact Hrun |].
    exact (@compute_inverse_buffers R R_Double R_ExactRing gauss_jordan
             (duo (1 / 2)%R 1 2) e0 zeros zeros r Hrun).
  - exfalso.
    exact (@compute_inverse_returns_with_gauss_jordan R R_Double (duo (1 / 2)%R 1 2)
             e0 zeros zeros Hrun).
Defined.

(** [duo] on IEEE doubles with Gauss-Jordan elimination in the place of the
    dense inverse: a call without flags, and a call with both flags set and
    with 7 in the y and z components of every velocity. *)
Lemma compute_dependence_witness :
  let this := duo 0.5%float 1 2 in
  let vel := fun (_ c : Z) => if (c =? 0)%Z then 1%float else 7%float in
  together same_step
    (@compute float float_Double gauss_jordan this 0 0 zeros)
    (@compute float float_Double gauss_jordan (with_velocities this vel (random this))
       1 1 zeros).
Proof.
  refine (@compute_dependence float float_Double gauss_jordan (duo 0.5%float 1 2)
            0 0 1 1 (fun (_ c : Z) => if (c =? 0)%Z then 1%float else 7%float) zeros _).
  intros i _. reflexivity.
Defined.

(** The same pair on IEEE doubles. *)
Lemma duo_interacts_float : interacts (duo 0.5%float 1 2) 0 0 = true.
Proof. vm_compute. reflexivity. Qed.

(** The pair of [duo] on IEEE doubles, with [eflag] and [evflag] set. *)
Lemma single_energy_is_tallied_witness :
  let this := duo 0.5%float 1 2 in
  let g := pair_geom this 0%float 0%float 0%float 0 0 in
  let one := single this 0 (pg_j g) 1 (pg_jtype g) (pg_rsq g) 1%float (pg_factor_dpd g)
               0%float in
  let s' := force_pair this 1 1 1%float 0 0 1 0%float 0%float 0%float 0 (force_start this) in
  fs_evdwl s' = fst (fst one) /\
  (truthy 1 = true ->
   exists t, fs_tally s' = t :: fs_tally (force_start this) /\ ty_evdwl t = fst (fst one) /\
             ty_i t = 0 /\ ty_j t = pg_j g).
Proof.
  exact (single_energy_is_tallied (duo 0.5%float 1 2) 1 1 1%float 0 0 0 (force_start _)
           1%float 0%float float_mul_comm duo_interacts_float eq_refl).
Defined.

(** Two inputs that differ in cell 7, which [duo] does not read. *)
Lemma compute_step_reads_witness :
  let this := duo 0.5%float 1 2 in
  let v := fun k => if (k =? 7)%Z then 5%float else e0 k in
  compute_step_from this e0 {| ss_out := zeros; ss_divs := [] |}
  = compute_step_from this v {| ss_out := zeros; ss_divs := [] |} /\
  forall output, compute_step this e0 output = compute_step this v output.
Proof.
  refine (compute_step_reads (duo 0.5%float 1 2) e0
            (fun k => if (k =? 7)%Z then 5%float else e0 k)
            {| ss_out := zeros; ss_divs := [] |} _ _).
  - intros ii c Hii Hc. cbn -[Z.mul Z.add Z.sub Z.eqb] in *.
    destruct (Z.eqb_spec (3 * ii + c) 7); [lia |].
    destruct (Z.eqb_spec (3 * (ii + 1 - 1) + c) 7); [lia |]. auto.
  - intros ii jj c Hii Hjj Hc. unfold neighbor_tag. cbn -[Z.mul Z.add Z.sub Z.eqb] in *.
    destruct (Z.eqb_spec (3 * (1 + 1 - 1) + c) 7); [lia | reflexivity].
Defined.

(** [pair_style dpd/jung 2 3 7] given to [duo], whose tables are allocated and
    whose pairs [(1,1)] and [(2,2)] are set, on IEEE doubles. *)
Lemma settings_outcome_witness :
  let this := duo 0.5%float 1 2 in
  exists this',
    settings (FI := script_reader) this 3 (words ["2"; "3"; "7"]%string) = Returns this' /\
    temperature this' = 2%float /\ cut_global this' = 3%float /\ seed this' = 7 /\
    random this' = new_RanMars (base this) (7 + comm_me this) /\
    (forall i j,
       cut this' i j
       = if truthy (allocated this) && (1 <=? i) && (i <=? j) && (j <=? 2)
            && truthy (setflag this i j)
         then 3%float else cut this i j) /\
    setflag this' = setflag this /\ a0 this' = a0 this /\ gamma this' = gamma this /\
    sigma this' = sigma this /\ cutsq this' = cutsq this /\
    mix_flag this' = mix_flag this /\ allocated this' = allocated this /\
    atom this' = atom this /\ force this' = force this.
Proof.
  refine (proj2 (proj2 (settings_outcome (FI := script_reader) (duo 0.5%float 1 2) 3
                          (words ["2"; "3"; "7"]%string))
                   2%float 3%float 7 eq_refl _ _ _) _);
    vm_compute; reflexivity.
Defined.

(** [pair_coeff 2 1 3 4]: the larger type first. *)
Lemma coeff_rejects_empty_block_witness :
  coeff (FI := script_reader) (duo 0.5%float 1 2) stale 4
    (words ["2"; "1"; "3"; "4"]%string)
  = ErrorAll Incorrect_args.
Proof.
  refine (proj2 (coeff_rejects_empty_block (FI := script_reader) (duo 0.5%float 1 2) stale
                   4 (words ["2"; "1"; "3"; "4"]%string))
            2 2 1 1 3%float 4%float 1%float _ _ _ _ _ _ _);
    try (vm_compute; reflexivity); lia.
Defined.

(** The pair [(2,1)] of [duo], which is set, on IEEE doubles; its mirror cell
    is [(1,2)]. *)
Lemma init_one_mirrors_witness :
  let this := duo 0.5%float 1 2 in
  exists this',
    init_one this 2 1 = Some (this', cut this 2 1) /\
    cut this' 1 2 = cut this 2 1 /\ a0 this' 1 2 = a0 this 2 1 /\
    gamma this' 1 2 = gamma this 2 1 /\ sigma this' 1 2 = sigma this' 2 1 /\
    (forall a b, (a, b) <> (1, 2) ->
       cut this' a b = cut this a b /\ a0 this' a b = a0 this a b /\
       gamma this' a b = gamma this a b) /\
    (forall a b, (a, b) <> (2, 1) -> (a, b) <> (1, 2) -> sigma this' a b = sigma this a b) /\
    setflag this' = setflag this /\ cutsq this' = cutsq this /\
    exists this'',
      init_one this' 2 1 = Some (this'', cut this 2 1) /\
      forall a b,
        cut this'' a b = cut this' a b /\ a0 this'' a b = a0 this' a b /\
        gamma this'' a b = gamma this' a b /\ sigma this'' a b = sigma this' a b.
Proof.
  refine (proj2 (init_one_mirrors (duo 0.5%float 1 2) 2 1) _). vm_compute. discriminate.
Defined.
